(** * Verification of the Archives-of-Nethys creature importer

    A shallow embedding of [src/dataloader-aon_co.js] (the importer with
    the text mirror) and of the attack scan of [src/unnamed/part_000]
    (the earlier importer), followed by the properties proved of them.

    Strings are sequences of UTF-16 code units, as in JavaScript.  The
    regular expressions of the source are written as terms of [regex] and
    run by a backtracking matcher that follows the RepeatMatcher and
    continuation semantics of ECMA-262. *)

From Stdlib Require Import Bool String Ascii List NArith ZArith Lia Arith.
Import ListNotations.

Set Implicit Arguments.

(** ** Strings *)

Definition char := N.
Bind Scope N_scope with char.
Definition jsstring := list char.

Definition str (s : string) : jsstring :=
  map N_of_ascii (list_ascii_of_string s).

Definition jsstring_eqb (a b : jsstring) : bool :=
  if list_eq_dec N.eq_dec a b then true else false.

Definition TYPOGRAPHIC_MINUS : char := 0x2212%N.
Definition BULLET : char := 0x2022%N.
Definition EM_DASH : char := 0x2014%N.
Definition FULLWIDTH_COLON : char := 0xFF1A%N.
Definition LF : char := 10%N.
Definition CR : char := 13%N.

Definition inRange (lo hi c : char) : bool := ((lo <=? c) && (c <=? hi))%N.

(** LineTerminator of ECMA-262. *)
Definition isLineTerminator (c : char) : bool :=
  ((c =? 10) || (c =? 13) || (c =? 0x2028) || (c =? 0x2029))%N.

(** WhiteSpace and LineTerminator: the set of [\s] and of [trim]. *)
Definition isSpace (c : char) : bool :=
  ((c =? 9) || (c =? 11) || (c =? 12) || (c =? 32) || (c =? 0xA0)
   || (c =? 0x1680) || inRange 0x2000 0x200A c || (c =? 0x202F)
   || (c =? 0x205F) || (c =? 0x3000) || (c =? 0xFEFF))%N
  || isLineTerminator c.

Definition isDigit (c : char) : bool := inRange 48 57 c.

Definition isWordChar (c : char) : bool :=
  inRange 97 122 c || inRange 65 90 c || isDigit c || (c =? 95)%N.

(** Canonicalize for the [i] flag without the [u] flag.  It folds the
    ASCII letters only: a code unit of 128 or more never canonicalizes to
    an ASCII one, and every literal and class member of the patterns below
    is either ASCII or has no case mapping, so on these patterns the
    folding agrees with the full upper-casing of the standard. *)
Definition canonicalize (ignoreCase : bool) (c : char) : char :=
  if ignoreCase && inRange 97 122 c then (c - 32)%N else c.

(** ** Regular expressions *)

Inductive citem :=
| CChr (c : char)
| CDigit
| CSpace
| CWord.

Inductive regex :=
| Empty
| Chr (c : char)
| Dot
| Class (neg : bool) (items : list citem)
| Bol
| Eol
| WordB
| Seq (r1 r2 : regex)
| Alt (r1 r2 : regex)
| Group (i : nat) (r : regex)
| Quant (greedy : bool) (min : nat) (max : option nat) (r : regex).

Record flags := Flags { ignoreCase : bool; multiline : bool }.

(** A match state: the code unit before the current position (for [^],
    [$] and [\b]), the input that remains, and the captures so far. *)
Record mstate := MState {
  prev : option char;
  rest : jsstring;
  caps : list (nat * jsstring)
}.

Definition cont := mstate -> option mstate.

Fixpoint lookupCap (i : nat) (cs : list (nat * jsstring)) : option jsstring :=
  match cs with
  | [] => None
  | (j, v) :: cs' => if Nat.eqb i j then Some v else lookupCap i cs'
  end.

Definition dropCap (i : nat) (cs : list (nat * jsstring)) :=
  filter (fun p => negb (Nat.eqb i (fst p))) cs.

Definition setCap (i : nat) (v : jsstring) (x : mstate) : mstate :=
  MState (prev x) (rest x) ((i, v) :: dropCap i (caps x)).

Definition clearCaps (grp : list nat) (x : mstate) : mstate :=
  MState (prev x) (rest x) (fold_right dropCap (caps x) grp).

(** The text between two positions of one input, the later one given by
    what remains there. *)
Definition consumed (from to : jsstring) : jsstring :=
  firstn (length from - length to) from.

Fixpoint groupsOf (r : regex) : list nat :=
  match r with
  | Seq r1 r2 | Alt r1 r2 => groupsOf r1 ++ groupsOf r2
  | Group i r1 => i :: groupsOf r1
  | Quant _ _ _ r1 => groupsOf r1
  | _ => []
  end.

Definition itemMatches (ic : bool) (c : char) (it : citem) : bool :=
  match it with
  | CChr a => (canonicalize ic a =? canonicalize ic c)%N
  | CDigit => isDigit c
  | CSpace => isSpace c
  | CWord => isWordChar c
  end.

Definition classMatches (ic : bool) (neg : bool) (items : list citem) (c : char) : bool :=
  xorb neg (existsb (itemMatches ic c) items).

Definition step (x : mstate) (a : char) (s : jsstring) : mstate :=
  MState (Some a) s (caps x).

Definition atLineStart (fl : flags) (x : mstate) : bool :=
  match prev x with
  | None => true
  | Some p => multiline fl && isLineTerminator p
  end.

Definition atLineEnd (fl : flags) (x : mstate) : bool :=
  match rest x with
  | [] => true
  | a :: _ => multiline fl && isLineTerminator a
  end.

Definition atWordBoundary (x : mstate) : bool :=
  let a := match prev x with Some p => isWordChar p | None => false end in
  let b := match rest x with c :: _ => isWordChar c | [] => false end in
  xorb a b.

(** RepeatMatcher of ECMA-262 (22.2.2.3.1).  [fuel] bounds the number of
    iterations; the bound that [matcher] gives is never reached (lemmas
    [repeat_fuel] and [matcher_Quant]). *)
Fixpoint repeatMatcher (m : mstate -> cont -> option mstate) (grp : list nat)
    (greedy : bool) (fuel min : nat) (max : option nat) (x : mstate) (c : cont)
    {struct fuel} : option mstate :=
  match fuel with
  | O => None
  | S fuel' =>
      match max with
      | Some O => c x
      | _ =>
          let d : cont := fun y =>
            if Nat.eqb min 0 && Nat.eqb (length (rest y)) (length (rest x))
            then None
            else repeatMatcher m grp greedy fuel' (pred min) (option_map pred max) y c in
          let xr := clearCaps grp x in
          if negb (Nat.eqb min 0) then m xr d
          else if greedy then
            match m xr d with Some z => Some z | None => c x end
          else
            match c x with Some z => Some z | None => m xr d end
      end
  end.

Fixpoint matcher (fl : flags) (r : regex) (x : mstate) (c : cont) {struct r}
    : option mstate :=
  match r with
  | Empty => c x
  | Chr ch =>
      match rest x with
      | a :: s =>
          if (canonicalize (ignoreCase fl) a =? canonicalize (ignoreCase fl) ch)%N
          then c (step x a s) else None
      | [] => None
      end
  | Dot =>
      match rest x with
      | a :: s => if isLineTerminator a then None else c (step x a s)
      | [] => None
      end
  | Class neg items =>
      match rest x with
      | a :: s =>
          if classMatches (ignoreCase fl) neg items a then c (step x a s) else None
      | [] => None
      end
  | Bol => if atLineStart fl x then c x else None
  | Eol => if atLineEnd fl x then c x else None
  | WordB => if atWordBoundary x then c x else None
  | Seq r1 r2 => matcher fl r1 x (fun y => matcher fl r2 y c)
  | Alt r1 r2 =>
      match matcher fl r1 x c with
      | Some z => Some z
      | None => matcher fl r2 x c
      end
  | Group i r1 =>
      matcher fl r1 x (fun y => c (setCap i (consumed (rest x) (rest y)) y))
  | Quant greedy min max r1 =>
      repeatMatcher (matcher fl r1) (groupsOf r1) greedy
        (S (min + length (rest x))) min max x c
  end.

(** Pattern builders, in the order of the source syntax. *)
Fixpoint seqs (rs : list regex) : regex :=
  match rs with
  | [] => Empty
  | [r] => r
  | r :: rs' => Seq r (seqs rs')
  end.

Definition lit (s : string) : regex := seqs (map Chr (str s)).
Definition star (r : regex) : regex := Quant true 0 None r.
Definition plus (r : regex) : regex := Quant true 1 None r.
Definition plusLazy (r : regex) : regex := Quant false 1 None r.
Definition starLazy (r : regex) : regex := Quant false 0 None r.
Definition opt (r : regex) : regex := Quant true 0 (Some 1) r.
Definition range (lo hi : nat) (r : regex) : regex := Quant true lo (Some hi) r.
Definition ws : regex := Class false [CSpace].
Definition digit : regex := Class false [CDigit].

(** ** exec, match, test, split *)

Record rmatch := RMatch {
  whole : jsstring;          (* m[0] *)
  groups : list (nat * jsstring);
  after : mstate             (* the position at lastIndex *)
}.

Definition grp (i : nat) (m : rmatch) : option jsstring := lookupCap i (groups m).

Definition matchAt (fl : flags) (r : regex) (p : option char) (s : jsstring)
    : option rmatch :=
  match matcher fl r (MState p s []) (fun y => Some y) with
  | Some y => Some (RMatch (consumed s (rest y)) (caps y) (MState (prev y) (rest y) []))
  | None => None
  end.

(** RegExpBuiltinExec from a position: the first index at or after it
    where the pattern matches. *)
Fixpoint searchFrom (fl : flags) (r : regex) (p : option char) (s : jsstring)
    : option rmatch :=
  match matchAt fl r p s with
  | Some m => Some m
  | None =>
      match s with
      | [] => None
      | a :: s' => searchFrom fl r (Some a) s'
      end
  end.

(** [s.match(re)] and [re.exec(s)] for a pattern without the [g] flag. *)
Definition exec (fl : flags) (r : regex) (s : jsstring) : option rmatch :=
  searchFrom fl r None s.

Definition test (fl : flags) (r : regex) (s : jsstring) : bool :=
  match exec fl r s with Some _ => true | None => false end.

(** [while ((m = re.exec(t)) !== null) ...] for a pattern with the [g]
    flag: each call resumes at the end of the previous match.  The loop
    of the source does not end on a pattern that matches the empty
    string; the attack patterns never do, and for them the bound is not
    reached (lemma [execAll_fuel]). *)
Fixpoint execLoop (fuel : nat) (fl : flags) (r : regex) (p : option char)
    (s : jsstring) : list rmatch :=
  match fuel with
  | O => []
  | S fuel' =>
      match searchFrom fl r p s with
      | Some m => m :: execLoop fuel' fl r (prev (after m)) (rest (after m))
      | None => []
      end
  end.

Definition execAll (fl : flags) (r : regex) (s : jsstring) : list rmatch :=
  execLoop (S (length s)) fl r None s.

(** ** Text utilities of the importer *)

Definition ch (a : ascii) : char := N_of_ascii a.

(** The truthiness of a string that may be absent. *)
Definition truthy (s : option jsstring) : bool :=
  match s with
  | Some (_ :: _) => true
  | _ => false
  end.

(** [s || d] for a string that may be absent. *)
Definition orElse (s : option jsstring) (d : jsstring) : jsstring :=
  match s with
  | Some (a :: s') => a :: s'
  | _ => d
  end.

(** [.replace(/\s+/g, " ")]: every maximal run of white space becomes one
    space; [inRun] says that the previous code unit was white space. *)
Fixpoint collapseSpaces (inRun : bool) (s : jsstring) : jsstring :=
  match s with
  | [] => []
  | a :: s' =>
      if isSpace a then
        if inRun then collapseSpaces true s' else 32%N :: collapseSpaces true s'
      else a :: collapseSpaces false s'
  end.

Fixpoint trimStart (s : jsstring) : jsstring :=
  match s with
  | a :: s' => if isSpace a then trimStart s' else s
  | [] => []
  end.

Definition trimEnd (s : jsstring) : jsstring := rev (trimStart (rev s)).
Definition trim (s : jsstring) : jsstring := trimEnd (trimStart s).

(** [function clean(s) { return (s || "").replace(/\s+/g, " ").trim(); }] *)
Definition clean (s : option jsstring) : jsstring :=
  trim (collapseSpaces false (orElse s [])).

(** [.replace(x, y)] with a one-unit string pattern: the first occurrence
    only. *)
Fixpoint replaceFirst (x : char) (y : jsstring) (s : jsstring) : jsstring :=
  match s with
  | [] => []
  | a :: s' => if (a =? x)%N then y ++ s' else a :: replaceFirst x y s'
  end.

(** [function normalizePlus(s) { return (s || "").replace("−", "-"); }] *)
Definition normalizePlus (s : option jsstring) : jsstring :=
  replaceFirst TYPOGRAPHIC_MINUS [ch "-"] (orElse s []).

(** [function dedup(a) { return Array.from(new Set(a)); }]: a Set keeps
    the first insertion of each value, in insertion order. *)
Fixpoint dedupFrom (seen : list jsstring) (a : list jsstring) : list jsstring :=
  match a with
  | [] => []
  | x :: a' =>
      if existsb (jsstring_eqb x) seen then dedupFrom seen a'
      else x :: dedupFrom (x :: seen) a'
  end.

Definition dedup (a : list jsstring) : list jsstring := dedupFrom [] a.

(** ** Numbers

    Every number of the importer is a result of [parseInt], so it is an
    integer, an infinity or NaN.  Negative zero is identified with zero:
    the two compare equal and both are finite. *)
Inductive number :=
| NaN
| NegInf
| Fin (z : Z)
| PosInf.

(** The double nearest to an integer, ties to even. *)
Definition toDouble (z : Z) : number :=
  let a := Z.abs z in
  if (a <? 2 ^ 53)%Z then Fin z
  else
    let e := (Z.log2 a - 52)%Z in
    let q := Z.shiftr a e in
    let r := (a - Z.shiftl q e)%Z in
    let half := (2 ^ (e - 1))%Z in
    let q' := if (half <? r)%Z || ((half =? r)%Z && Z.odd q) then (q + 1)%Z else q in
    let v := Z.shiftl q' e in
    if (2 ^ 1024 <=? v)%Z then (if (z <? 0)%Z then NegInf else PosInf)
    else Fin (if (z <? 0)%Z then - v else v)%Z.

Fixpoint takeDigits (s : jsstring) : jsstring :=
  match s with
  | a :: s' => if isDigit a then a :: takeDigits s' else []
  | [] => []
  end.

Definition digitsValue (ds : jsstring) : Z :=
  fold_left (fun acc d => (10 * acc + (Z.of_N d - 48))%Z) ds 0%Z.

(** [parseInt(s, 10)]: leading white space, an optional sign, then the
    longest run of decimal digits; NaN when there is none.  Beyond twenty
    significant digits the standard lets an implementation approximate;
    the model rounds the exact value. *)
Definition parseInt (s : jsstring) : number :=
  let s1 := trimStart s in
  let '(negative, s2) :=
    match s1 with
    | a :: s' =>
        if (a =? ch "-")%N then (true, s')
        else if (a =? ch "+")%N then (false, s')
        else (false, s1)
    | [] => (false, s1)
    end in
  match takeDigits s2 with
  | [] => NaN
  | ds => toDouble (if negative then - digitsValue ds else digitsValue ds)%Z
  end.

(** The relational operators [>] and [>=] on numbers. *)
Definition gt (a b : number) : bool :=
  match a, b with
  | NaN, _ | _, NaN => false
  | NegInf, _ => false
  | _, PosInf => false
  | Fin x, Fin y => (y <? x)%Z
  | Fin _, NegInf => true
  | PosInf, _ => true
  end.

Definition ge (a b : number) : bool :=
  match a, b with
  | NaN, _ | _, NaN => false
  | NegInf, NegInf => true
  | NegInf, _ => false
  | PosInf, _ => true
  | Fin _, PosInf => false
  | Fin x, Fin y => (y <=? x)%Z
  | Fin _, NegInf => true
  end.

(** The global [isFinite(v)] applies ToNumber first, and ToNumber(null)
    is 0; [Number.isFinite(v)] does not convert. *)
Definition globalIsFinite (v : option number) : bool :=
  match v with
  | None => true
  | Some (Fin _) => true
  | Some _ => false
  end.

Definition numberIsFinite (v : option number) : bool :=
  match v with
  | Some (Fin _) => true
  | _ => false
  end.

(** ** Attack entries and their merge *)

Record AttackEntry := Attack {
  name : jsstring;
  attack : option jsstring;
  damage : option jsstring
}.

(** What the host's [String.prototype.toLowerCase] does is left to the
    platform; the development holds for every such function. *)
Class StringOps := { toLowerCase : jsstring -> jsstring }.

(** A [Map] from strings: the entries in insertion order; [set] on a key
    that is present replaces the value where it stands. *)
Section JsMap.
Variable V : Type.

Definition jsmap := list (jsstring * V).

Fixpoint mapGet (k : jsstring) (m : jsmap) : option V :=
  match m with
  | [] => None
  | (k', v) :: m' => if jsstring_eqb k k' then Some v else mapGet k m'
  end.

Fixpoint mapSet (k : jsstring) (v : V) (m : jsmap) : jsmap :=
  match m with
  | [] => [(k, v)]
  | (k', v') :: m' =>
      if jsstring_eqb k k' then (k', v) :: m' else (k', v') :: mapSet k v m'
  end.

Definition mapValues (m : jsmap) : list V := map snd m.
End JsMap.

(** The number compared by the merge:
    [parseInt((a.attack || "0").replace("+",""), 10)]. *)
Definition bonusOf (a : AttackEntry) : number :=
  parseInt (replaceFirst (ch "+") [] (orElse (attack a) (str "0"))).

Section Merge.
Context {ops : StringOps}.

Definition keyOf (a : AttackEntry) : jsstring := toLowerCase (name a).

(** One turn of the loop of [coalesceAttacks] in dataloader-aon_co.js. *)
Definition coalesceStep (by_ : jsmap AttackEntry) (a : AttackEntry)
    : jsmap AttackEntry :=
  let k := keyOf a in
  match mapGet k by_ with
  | None => mapSet k a by_
  | Some prev_ => if gt (bonusOf a) (bonusOf prev_) then mapSet k a by_ else by_
  end.

Definition coalesceAttacks (l : list AttackEntry) : list AttackEntry :=
  mapValues (fold_left coalesceStep l []).
End Merge.

(** ** The attack patterns

    Both patterns of [extractAttacksFromText] start with
    "(Melee|Ranged)\s+([^\n\r;•—-]+?)\s+([+−-]\d{1,2})" under the flags
    [ig]; the detailed one goes on with a non-capturing group of any
    number of "[^(\n\r]" and then "\(([^)]+)\)".  The earlier importer
    has "\d+" in the place of "\d{1,2}". *)

Definition attackFlags : flags := Flags true false.

Definition nameClass : regex :=
  Class true [CChr LF; CChr CR; CChr (ch ";"); CChr BULLET; CChr EM_DASH; CChr (ch "-")].

Definition signClass : regex :=
  Class false [CChr (ch "+"); CChr TYPOGRAPHIC_MINUS; CChr (ch "-")].

Definition attackHead (digits : regex) : list regex :=
  [ Group 1 (Alt (lit "Melee") (lit "Ranged"));
    plus ws;
    Group 2 (plusLazy nameClass);
    plus ws;
    Group 3 (Seq signClass digits) ].

Definition damageTail : list regex :=
  [ star (Class true [CChr (ch "("); CChr LF; CChr CR]);
    Chr (ch "(");
    Group 4 (plus (Class true [CChr (ch ")")]));
    Chr (ch ")") ].

Definition detailedPattern (digits : regex) : regex :=
  seqs (attackHead digits ++ damageTail).

Definition simplePattern (digits : regex) : regex :=
  seqs (attackHead digits).

Inductive phase := Detailed | Relaxed.

Definition phasePattern (digits : regex) (p : phase) : regex :=
  match p with
  | Detailed => detailedPattern digits
  | Relaxed => simplePattern digits
  end.

(** The object pushed for one match. *)
Definition entryOf (p : phase) (m : rmatch) : AttackEntry :=
  Attack (clean (grp 2 m)) (Some (normalizePlus (grp 3 m)))
         (match p with
          | Detailed => Some (clean (grp 4 m))
          | Relaxed => None
          end).

(** A computation that records which patterns it has run. *)
Definition traced (A : Type) : Type := list phase * A.

Definition ret {A} (a : A) : traced A := ([], a).

Definition bind {A B} (m : traced A) (f : A -> traced B) : traced B :=
  let '(l1, a) := m in
  let '(l2, b) := f a in
  (l1 ++ l2, b).

Notation "x <- m ;; k" := (bind m (fun x => k))
  (at level 61, m at next level, right associativity).

(** One [while ((m = re.exec(t)) !== null) attacks.push(...)] loop. *)
Definition scanPhase (digits : regex) (p : phase) (t : jsstring)
    : traced (list AttackEntry) :=
  ([p], map (entryOf p) (execAll attackFlags (phasePattern digits p) t)).

Definition isEmpty {A} (l : list A) : bool :=
  match l with [] => true | _ => false end.

Definition twoDigits : regex := range 1 2 digit.
Definition manyDigits : regex := plus digit.

(** The candidates of [extractAttacksFromText], before the merge. *)
Definition attackCandidates (t : jsstring) : traced (list AttackEntry) :=
  attacks <- scanPhase twoDigits Detailed t ;;
  if isEmpty attacks then
    more <- scanPhase twoDigits Relaxed t ;;
    ret (attacks ++ more)
  else ret attacks.

Section Extract.
Context {ops : StringOps}.

Definition extractAttacksFromText (t : jsstring) : list AttackEntry :=
  coalesceAttacks (snd (attackCandidates t)).
End Extract.

(** ASCII lower-casing: what [toLowerCase] does to ASCII text. *)
Definition asciiLower (s : jsstring) : jsstring :=
  map (fun c => if inRange 65 90 c then (c + 32)%N else c) s.

Definition asciiOps : StringOps := {| toLowerCase := asciiLower |}.


(** [s.match(re)] for a pattern with the [g] flag: the texts of all the
    matches; after an empty match the scan moves on by one unit. *)
Fixpoint matchLoop (fuel : nat) (fl : flags) (r : regex) (p : option char)
    (s : jsstring) : list jsstring :=
  match fuel with
  | O => []
  | S fuel' =>
      match searchFrom fl r p s with
      | None => []
      | Some m =>
          whole m ::
          match whole m, rest (after m) with
          | [], [] => []
          | [], a :: s' => matchLoop fuel' fl r (Some a) s'
          | _, _ => matchLoop fuel' fl r (prev (after m)) (rest (after m))
          end
      end
  end.

Definition matchAll (fl : flags) (r : regex) (s : jsstring) : list jsstring :=
  matchLoop (S (S (length s))) fl r None s.

(** [s.split(re)] for a pattern without capture groups: [tok] holds, in
    reverse, the units since the end of the last separator. *)
Fixpoint splitLoop (fuel : nat) (fl : flags) (r : regex) (p : option char)
    (tok : jsstring) (s : jsstring) : list jsstring :=
  match fuel with
  | O => []
  | S fuel' =>
      match s with
      | [] => [rev tok]
      | a :: s' =>
          match matchAt fl r p s with
          | None => splitLoop fuel' fl r (Some a) (a :: tok) s'
          | Some m =>
              let e := rest (after m) in
              if isEmpty tok && Nat.eqb (length e) (length s)
              then splitLoop fuel' fl r (Some a) (a :: tok) s'
              else rev tok :: splitLoop fuel' fl r (prev (after m)) [] e
          end
      end
  end.

Definition split (fl : flags) (r : regex) (s : jsstring) : list jsstring :=
  match s with
  | [] => match matchAt fl r None [] with Some _ => [] | None => [[]] end
  | _ => splitLoop (2 * length s + 2) fl r None [] s
  end.

Definition nonEmpty (s : jsstring) : bool := negb (isEmpty s).

(** [function splitTraits(s) { return s.split(/[,•;]+/).map(x => clean(x)).filter(Boolean); }] *)
Definition traitSeparator : regex :=
  plus (Class false [CChr (ch ","); CChr BULLET; CChr (ch ";")]).

Definition splitTraits (s : jsstring) : list jsstring :=
  filter nonEmpty (map (fun x => clean (Some x)) (split (Flags false false) traitSeparator s)).

(** ** The patterns of the field extractors *)

Definition fI : flags := Flags true false.
Definition fIM : flags := Flags true true.
Definition fNone : flags := Flags false false.

Definition signedInt : regex := Seq (opt (Chr (ch "-"))) (plus digit).
Definition colon : regex := Class false [CChr (ch ":"); CChr FULLWIDTH_COLON].

(** "/^.*Creature\s+-?\d+.*$/gmi" *)
Definition creatureLineRe : regex :=
  seqs [Bol; star Dot; lit "Creature"; plus ws; opt (Chr (ch "-")); plus digit;
        star Dot; Eol].

(** "/^(.+?)\s*\(.*?Creature\s+(-?\d+)\)/i" *)
Definition nameParenRe : regex :=
  seqs [Bol; Group 1 (plusLazy Dot); star ws; Chr (ch "("); starLazy Dot;
        lit "Creature"; plus ws; Group 2 signedInt; Chr (ch ")")].

(** "/^(.+?)\s+Creature\s+(-?\d+)/i" *)
Definition namePlainRe : regex :=
  seqs [Bol; Group 1 (plusLazy Dot); plus ws; lit "Creature"; plus ws;
        Group 2 signedInt].

(** "/^\s*Traits\s*[:：]\s*(.+)$/gmi" *)
Definition traitsLineRe : regex :=
  seqs [Bol; star ws; lit "Traits"; star ws; colon; star ws; Group 1 (plus Dot); Eol].

(** "/Traits\s*[:：]\s*(.+)$/i" *)
Definition traitsRestRe : regex :=
  seqs [lit "Traits"; star ws; colon; star ws; Group 1 (plus Dot); Eol].

(** "/(^|[^\w])AC\s+(\d+)/i" and the same with HP *)
Definition labeledIntRe (label : string) : regex :=
  seqs [Group 1 (Alt Bol (Class true [CWord])); lit label; plus ws;
        Group 2 (plus digit)].

(** "/(^|\n)\s*Speed\s*([^\n]+)/i" *)
Definition speedRe : regex :=
  seqs [Group 1 (Alt Bol (Chr LF)); star ws; lit "Speed"; star ws;
        Group 2 (plus (Class true [CChr LF]))].

(** "/\bCreature\s+(-?\d+)\b/i" *)
Definition creatureRe : regex :=
  seqs [WordB; lit "Creature"; plus ws; Group 1 signedInt; WordB].

(** "/^(.+?)\s*\(Creature\s+(-?\d+)\)$/i" *)
Definition headingRe : regex :=
  seqs [Bol; Group 1 (plusLazy Dot); star ws; Chr (ch "("); lit "Creature";
        plus ws; Group 2 signedInt; Chr (ch ")"); Eol].

(** "/^\s*Traits\s*[:：]/im" *)
Definition traitsLabelRe : regex :=
  seqs [Bol; star ws; lit "Traits"; star ws; colon].

(** "/\bAC\b/i", "/\bHP\b/i", "/\bSpeed\b/i": the source of a label. *)
Definition labelRe (label : string) : regex := seqs [WordB; lit label; WordB].

(** [new RegExp(labelRe.source + "\\s*(\\d+)", "i")] *)
Definition labelNumberRe (label : string) : regex :=
  seqs [labelRe label; star ws; Group 1 (plus digit)].

(** [new RegExp(labelRe.source + "\\s*([^\\n\\.]+)")], without flags *)
Definition labelLineRe (label : string) : regex :=
  seqs [labelRe label; star ws; Group 1 (plus (Class true [CChr LF; CChr (ch ".")]))].

(** ** Records *)

(** The object a parser returns.  A field that is not an array is [None]
    in [traits] and [attacks]; [null] is [None] in the others. *)
Module Parsed.
Record t := mk {
  name : option jsstring;
  level : option number;
  traits : option (list jsstring);
  ac : option number;
  hp : option number;
  speed : option jsstring;
  attacks : option (list AttackEntry)
}.
End Parsed.

(** The object [normalize] returns. *)
Module Stat.
Record t := mk {
  name : jsstring;
  level : option number;
  traits : list jsstring;
  ac : option number;
  hp : option number;
  speed : option jsstring;
  attacks : list AttackEntry
}.
End Stat.

Definition UNKNOWN : jsstring := str "Unknown".

(** [function normalize(obj)] *)
Definition normalize (obj : Parsed.t) : Stat.t :=
  Stat.mk
    (orElse (Parsed.name obj) UNKNOWN)
    (if numberIsFinite (Parsed.level obj) then Parsed.level obj else None)
    (match Parsed.traits obj with Some a => a | None => [] end)
    (if numberIsFinite (Parsed.ac obj) then Parsed.ac obj else None)
    (if numberIsFinite (Parsed.hp obj) then Parsed.hp obj else None)
    (if truthy (Parsed.speed obj) then Parsed.speed obj else None)
    (match Parsed.attacks obj with Some a => a | None => [] end).

(** What [importFromLink] and [fetchAoN] throw: an [Error] with its
    message, or whatever a failed [fetch] or body read rejects with; the
    earlier importer can also end in the [URIError] of
    [encodeURIComponent]. *)
Inductive thrown :=
| Error (msg : string)
| Rejection
| URIError.

(** The check of [importFromLink]:
    [!out || (!out.name && !isFinite(out.level) && !isFinite(out.hp))]. *)
Definition parseFailed (out : Parsed.t) : bool :=
  negb (truthy (Parsed.name out))
  && negb (globalIsFinite (Parsed.level out))
  && negb (globalIsFinite (Parsed.hp out)).

(** [importFromLink] after the retrieval. *)
Definition finish (out : Parsed.t) : thrown + Stat.t :=
  if parseFailed out then inl (Error "Parse failed") else inr (normalize out).

(** ** The text parser *)

Definition firstInt (fl : flags) (r : regex) (text : jsstring) : option number :=
  match exec fl r text with
  | Some m => Some (parseInt (orElse (grp 2 m) []))
  | None => None
  end.

Definition orMatch (a b : option rmatch) : option rmatch :=
  match a with Some m => Some m | None => b end.

Section TextParser.
Context {ops : StringOps}.

(** [function parseText(text)] *)
Definition parseText (text : jsstring) : Parsed.t :=
  let creatureLine := hd_error (matchAll fIM creatureLineRe text) in
  let header :=
    match creatureLine with
    | Some (a :: l) =>
        orMatch (exec fI nameParenRe (a :: l)) (exec fI namePlainRe (a :: l))
    | _ => None
    end in
  let name := option_map (fun m => clean (grp 1 m)) header in
  let level := option_map (fun m => parseInt (orElse (grp 2 m) [])) header in
  let traitsLine := hd_error (matchAll fIM traitsLineRe text) in
  let traits :=
    match traitsLine with
    | Some (a :: l) =>
        match exec fI traitsRestRe (a :: l) with
        | Some m => splitTraits (orElse (grp 1 m) [])
        | None => []
        end
    | _ => []
    end in
  let ac := firstInt fI (labeledIntRe "AC") text in
  let hp := firstInt fI (labeledIntRe "HP") text in
  let speed :=
    match exec fI speedRe text with
    | Some m => Some (clean (grp 2 m))
    | None => None
    end in
  let attacks := extractAttacksFromText text in
  Parsed.mk name level (Some traits) ac hp speed (Some attacks).
End TextParser.

(** ** The document parser

    The DOM is a capability of the host: the importer only asks it the
    questions below. *)
Class Dom := {
  document : Type;
  element : Type;
  textnode : Type;
  (* new DOMParser().parseFromString(html, "text/html") *)
  parseFromString : jsstring -> document;
  docQuerySelector : document -> string -> option element;
  body : document -> element;
  querySelector : element -> string -> option element;
  querySelectorAll : element -> string -> list element;
  textContent : element -> jsstring;
  (* the nodes a TreeWalker over SHOW_TEXT visits, in its order *)
  textNodes : element -> list textnode;
  nodeText : textnode -> jsstring;
  parentElement : textnode -> option element
}.

Section HtmlParser.
Context {ops : StringOps} {dom : Dom}.

(** [function findTextNode(root, regex)] *)
Definition findTextNode (root : element) (fl : flags) (r : regex) : option textnode :=
  find (fun n => test fl r (nodeText n)) (textNodes root).

(** [node.parentElement?.textContent || node.textContent || ""] *)
Definition lineOf (node : textnode) : jsstring :=
  orElse (option_map textContent (parentElement node))
         (orElse (Some (nodeText node)) []).

Definition pickNameHtml (doc : document) (scope : element) : option jsstring :=
  let fromScope :=
    option_map (fun head => clean (Some (textContent head)))
      (querySelector scope "h1, h2, .title, .page-title, strong, b") in
  match docQuerySelector doc "h1" with
  | Some h1 =>
      if nonEmpty (textContent h1) then
        let t := clean (Some (textContent h1)) in
        match exec fI headingRe t with
        | Some m => grp 1 m
        | None => Some t
        end
      else fromScope
  | None => fromScope
  end.

Definition pickNumber (scope : element) (fl : flags) (r : regex) : option number :=
  match findTextNode scope fl r with
  | None => None
  | Some node =>
      match exec fl r (nodeText node) with
      | Some m => Some (parseInt (orElse (grp 1 m) []))
      | None => None
      end
  end.

Definition pickTraitsHtml (scope : element) : list jsstring :=
  let links :=
    filter nonEmpty
      (map (fun x => clean (Some (textContent x)))
           (querySelectorAll scope "a.trait, span.trait, .traits a, .traits span")) in
  if negb (isEmpty links) then dedup links
  else
    match findTextNode scope fIM traitsLabelRe with
    | Some node =>
        match exec fI traitsRestRe (lineOf node) with
        | Some m => splitTraits (orElse (grp 1 m) [])
        | None => []
        end
    | None => []
    end.

Definition pickLabeledNumber (scope : element) (label : string) : option number :=
  match findTextNode scope fI (labelRe label) with
  | None => None
  | Some node =>
      match exec fI (labelNumberRe label) (lineOf node) with
      | Some m => Some (parseInt (orElse (grp 1 m) []))
      | None => None
      end
  end.

Definition pickLabeledLine (scope : element) (label : string) : option jsstring :=
  match findTextNode scope fI (labelRe label) with
  | None => None
  | Some node =>
      match exec fNone (labelLineRe label) (lineOf node) with
      | Some m => Some (clean (grp 1 m))
      | None => None
      end
  end.

Definition pickAttacks (scope : element) : list AttackEntry :=
  extractAttacksFromText (orElse (Some (textContent scope)) []).

(** [function parseHtml(html)] *)
Definition parseHtml (html : jsstring) : Parsed.t :=
  let doc := parseFromString html in
  let scope :=
    match docQuerySelector doc "#ctl00_MainContent_DetailedOutput" with
    | Some e => e
    | None => body doc
    end in
  Parsed.mk
    (pickNameHtml doc scope)
    (pickNumber scope fI creatureRe)
    (Some (pickTraitsHtml scope))
    (pickLabeledNumber scope "AC")
    (pickLabeledNumber scope "HP")
    (pickLabeledLine scope "Speed")
    (Some (pickAttacks scope)).
End HtmlParser.

(** ** Retrieval

    The network is a capability of the host.  [respond log url] is what
    the request for [url] meets after the requests of [log]; a computation
    of [io] carries the log of the requests made so far. *)

Module Url.
Record t := mk {
  href : jsstring;        (* u.toString() *)
  host : jsstring;
  pathname : jsstring;
  search : jsstring
}.
End Url.

Record Response := {
  ok : bool;
  contentType : option jsstring;   (* r.headers.get("content-type") *)
  bodyText : option jsstring       (* r.text(); None when reading rejects *)
}.

Inductive fetchOutcome :=
| Rejected
| Responded (r : Response).

Class Net := {
  parseURL : jsstring -> option Url.t;     (* new URL(rawUrl); None when it throws *)
  encodeURIComponent : jsstring -> jsstring;
  respond : list jsstring -> jsstring -> fetchOutcome
}.

Definition io (A : Type) : Type := list jsstring -> (thrown + A) * list jsstring.

Definition ioRet {A} (a : A) : io A := fun log => (inr a, log).
Definition ioThrow {A} (e : thrown) : io A := fun log => (inl e, log).

Definition ioBind {A B} (m : io A) (f : A -> io B) : io B :=
  fun log =>
    match m log with
    | (inl e, log') => (inl e, log')
    | (inr a, log') => f a log'
    end.

Notation "x <~ m ;; k" := (ioBind m (fun x => k))
  (at level 61, m at next level, right associativity).

Inductive kind := Html | Text.

(** [haystack.includes(needle)] *)
Fixpoint startsWith (needle s : jsstring) : bool :=
  match needle, s with
  | [], _ => true
  | a :: n', b :: s' => (a =? b)%N && startsWith n' s'
  | _ :: _, [] => false
  end.

Fixpoint includes (needle s : jsstring) : bool :=
  startsWith needle s
  || match s with
     | [] => false
     | _ :: s' => includes needle s'
     end.

Section Retrieval.
Context {net : Net}.

(** [fetch(url, ...)], awaited: the outcome, with the request logged. *)
Definition fetch (url : jsstring) : io fetchOutcome :=
  fun log => (inr (respond log url), log ++ [url]).

(** The [try] block of [fetchAoN]: [Some] when it returns, [None] when
    control leaves it, by a status that is not ok or by an exception. *)
Definition tryDirect (u : Url.t) : io (option (kind * jsstring)) :=
  o <~ fetch (Url.href u) ;;
  ioRet
    match o with
    | Responded r =>
        if ok r then
          let ct := orElse (contentType r) [] in
          match bodyText r with
          | Some text =>
              if includes (str "text/html") ct then Some (Html, text)
              else Some (Text, text)
          | None => None
          end
        else None
    | Rejected => None
    end.

Definition mirrorUrl (u : Url.t) : jsstring :=
  let target := str "http://" ++ Url.host u ++ Url.pathname u ++ orElse (Some (Url.search u)) [] in
  str "https://r.jina.ai/http/" ++ encodeURIComponent target.

Definition fetchMirror (u : Url.t) : io (kind * jsstring) :=
  o <~ fetch (mirrorUrl u) ;;
  match o with
  | Rejected => ioThrow Rejection
  | Responded r2 =>
      if negb (ok r2) then ioThrow (Error "Fetch failed via mirror")
      else
        match bodyText r2 with
        | Some text2 => ioRet (Text, text2)
        | None => ioThrow Rejection
        end
  end.

(** [async function fetchAoN(rawUrl)] *)
Definition fetchAoN (rawUrl : jsstring) : io (kind * jsstring) :=
  match parseURL rawUrl with
  | None => ioThrow (Error "Invalid URL")
  | Some u =>
      d <~ tryDirect u ;;
      match d with
      | Some page => ioRet page
      | None => fetchMirror u
      end
  end.

Context {ops : StringOps} {dom : Dom}.

(** [export async function importFromLink(url)] *)
Definition importFromLink (url : jsstring) : io Stat.t :=
  page <~ fetchAoN url ;;
  let '(kind, body) := page in
  let out := match kind with Html => parseHtml body | Text => parseText body end in
  match finish out with
  | inl e => ioThrow e
  | inr record => ioRet record
  end.
End Retrieval.

(** The spec's conditions, read off the exception. *)
Definition isRetrievalFailure (e : thrown) : bool :=
  match e with
  | Error "Fetch failed via mirror" => true
  | Error "Fetch failed." => true
  | Rejection => true
  | _ => false
  end.

Definition isParseFailure (e : thrown) : bool :=
  match e with
  | Error "Parse failed" => true
  | _ => false
  end.

Definition isInvalidInput (e : thrown) : bool :=
  match e with
  | Error "Invalid URL" => true
  | Error "Invalid URL." => true
  | _ => false
  end.

(** A string is well formed when each surrogate in it has its partner:
    a high one is followed by a low one, and a low one follows a high
    one. *)
Definition isHighSurrogate (c : char) : bool := inRange 0xD800 0xDBFF c.
Definition isLowSurrogate (c : char) : bool := inRange 0xDC00 0xDFFF c.

Fixpoint isWellFormed (s : jsstring) : bool :=
  match s with
  | [] => true
  | a :: s' =>
      if isHighSurrogate a then
        match s' with
        | b :: s'' => isLowSurrogate b && isWellFormed s''
        | [] => false
        end
      else negb (isLowSurrogate a) && isWellFormed s'
  end.

(** ** The earlier importer (src/unnamed/part_000) *)

Module Earlier.
Section Merge.
Context {ops : StringOps}.

(** One turn of the loop of its [coalesceAttacks]:
    [map.set(key, aNum > pNum ? a : prev)]. *)
Definition coalesceStep (map_ : jsmap AttackEntry) (a : AttackEntry)
    : jsmap AttackEntry :=
  let key := toLowerCase (name a) in
  match mapGet key map_ with
  | None => mapSet key a map_
  | Some prev_ =>
      mapSet key (if gt (bonusOf a) (bonusOf prev_) then a else prev_) map_
  end.

Definition coalesceAttacks (l : list AttackEntry) : list AttackEntry :=
  mapValues (fold_left coalesceStep l []).

(** One [for (const blk of blocks) while ((m = re.exec(blk)) !== null)]
    loop; [exec] returning [null] leaves [lastIndex] at 0 for the next
    block. *)
Definition scanBlocks (p : phase) (blocks : list jsstring)
    : traced (list AttackEntry) :=
  ([p], flat_map
          (fun blk => map (entryOf p) (execAll attackFlags (phasePattern manyDigits p) blk))
          blocks).

Definition attackCandidates (blocks : list jsstring) : traced (list AttackEntry) :=
  attacks <- scanBlocks Detailed blocks ;;
  if isEmpty attacks then
    more <- scanBlocks Relaxed blocks ;;
    ret (attacks ++ more)
  else ret attacks.

(** [function extractAttacks(scope)] from
    [blocks = textBlocks(scope).slice(0, 40)] on. *)
Definition extractAttacks (blocks : list jsstring) : list AttackEntry :=
  coalesceAttacks (snd (attackCandidates blocks)).
End Merge.

Section Retrieval.
Context {net : Net}.

(** [encodeURIComponent(url)] on the string that the caller passed: it
    throws a URIError on a surrogate without its partner (ECMA-262,
    Encode), which [new URL] and [fetch] accept.  [fetchAoN] above
    encodes parts of a parsed URL only, and those are ASCII. *)
Definition encodeRaw (s : jsstring) : io jsstring :=
  if isWellFormed s then ioRet (encodeURIComponent s) else ioThrow URIError.

(** [async function fetchWithFallback(url)] *)
Definition fetchWithFallback (url : jsstring) : io jsstring :=
  o <~ fetch url ;;
  let direct :=
    match o with
    | Responded r => if ok r then bodyText r else None
    | Rejected => None
    end in
  match direct with
  | Some text => ioRet text
  | None =>
      encoded <~ encodeRaw url ;;
      let proxied := str "https://api.allorigins.win/raw?url=" ++ encoded in
      o2 <~ fetch proxied ;;
      match o2 with
      | Rejected => ioThrow Rejection
      | Responded r2 =>
          if negb (ok r2) then ioThrow (Error "Fetch failed.")
          else
            match bodyText r2 with
            | Some text2 => ioRet text2
            | None => ioThrow Rejection
            end
      end
  end.
End Retrieval.
End Earlier.

(** ** Notions used in the statements *)

(** [isSignUnit a]: [a] is one of the three units of the class "[+−-]". *)
Definition isSignUnit (a : char) : bool :=
  ((a =? ch "+") || (a =? TYPOGRAPHIC_MINUS) || (a =? ch "-"))%N.

(** The number of digits in the bonus of an entry. *)
Definition bonusDigits (e : AttackEntry) : nat :=
  length (filter isDigit (orElse (attack e) [])).

(** [shortCapture z]: the third capture of the result [z], the sign and
    the digits of a bonus, has at most three units. *)
Definition shortCapture (z : mstate) : Prop :=
  length (orElse (lookupCap 3 (caps z)) []) <= 3.

(** [follows P c1 c2]: the continuation [c1] fails wherever [c2] fails,
    and gives the result of [c2] wherever that result satisfies [P]. *)
Definition follows (P : mstate -> Prop) (c1 c2 : cont) : Prop :=
  forall y,
    (c2 y = None -> c1 y = None)
    /\ (forall z, c2 y = Some z -> P z -> c1 y = Some z).

(** A retrieval attempt succeeds when it answers with an ok status and a
    body that can be read. *)
Definition attemptOk (o : fetchOutcome) : bool :=
  match o with
  | Responded r => ok r && match bodyText r with Some _ => true | None => false end
  | Rejected => false
  end.

(** The bonus as the specification words it: the integer of the string
    once its sign is stripped. *)
Definition specStrippedBonus (a : AttackEntry) : number :=
  parseInt
    match orElse (attack a) (str "0") with
    | c :: s => if isSignUnit c then s else c :: s
    | [] => []
    end.

(** [suffixOf s' s]: [s'] is what remains of [s] at a later position. *)
Definition suffixOf (s' s : jsstring) : Prop := exists p, s = p ++ s'.

(** Two continuations that agree on every later position of [s]. *)
Definition agree (s : jsstring) (c1 c2 : cont) : Prop :=
  forall y, suffixOf (rest y) s -> c1 y = c2 y.

Definition extensional (m : mstate -> cont -> option mstate) : Prop :=
  forall x c1 c2, agree (rest x) c1 c2 -> m x c1 = m x c2.

(** ** What a successful run of the matcher went through

    [sem fl r x y]: the pattern [r] can take the state [x] to the state
    [y].  Every result of [matcher] comes from such a path. *)
Inductive sem (fl : flags) : regex -> mstate -> mstate -> Prop :=
| sem_Empty x : sem fl Empty x x
| sem_Chr c a s x :
    rest x = a :: s ->
    canonicalize (ignoreCase fl) a = canonicalize (ignoreCase fl) c ->
    sem fl (Chr c) x (step x a s)
| sem_Dot a s x :
    rest x = a :: s -> isLineTerminator a = false -> sem fl Dot x (step x a s)
| sem_Class neg items a s x :
    rest x = a :: s -> classMatches (ignoreCase fl) neg items a = true ->
    sem fl (Class neg items) x (step x a s)
| sem_Bol x : atLineStart fl x = true -> sem fl Bol x x
| sem_Eol x : atLineEnd fl x = true -> sem fl Eol x x
| sem_WordB x : atWordBoundary x = true -> sem fl WordB x x
| sem_Seq r1 r2 x y z : sem fl r1 x y -> sem fl r2 y z -> sem fl (Seq r1 r2) x z
| sem_AltL r1 r2 x y : sem fl r1 x y -> sem fl (Alt r1 r2) x y
| sem_AltR r1 r2 x y : sem fl r2 x y -> sem fl (Alt r1 r2) x y
| sem_Group i r x y :
    sem fl r x y -> sem fl (Group i r) x (setCap i (consumed (rest x) (rest y)) y)
| sem_QuantDone g mn mx r x :
    mn = 0 \/ mx = Some 0 -> sem fl (Quant g mn mx r) x x
| sem_QuantIter g mn mx r x y z :
    mx <> Some 0 ->
    sem fl r (clearCaps (groupsOf r) x) y ->
    (mn = 0 -> length (rest y) <> length (rest x)) ->
    sem fl (Quant g (pred mn) (option_map pred mx) r) y z ->
    sem fl (Quant g mn mx r) x z.

(** A pattern makes progress when each of its matches takes at least one
    unit; the [exec] loop of such a pattern ends well within its bound. *)
Definition progresses (fl : flags) (r : regex) : Prop :=
  forall x y, sem fl r x y -> length (rest y) < length (rest x).

(** The bounds of a quantifier are in order. *)
Definition boundsOk (mn : nat) (mx : option nat) : Prop :=
  match mx with Some k => mn <= k | None => True end.

Definition isSign (a : char) : Prop := a = ch "+" \/ a = TYPOGRAPHIC_MINUS \/ a = ch "-".

(** What every candidate of a scan looks like: its bonus is an ASCII
    sign and then digits only. *)
Definition asciiSigned (b : jsstring) : Prop :=
  exists sgn ds, b = sgn :: ds /\ (sgn = ch "+" \/ sgn = ch "-")
    /\ Forall (fun d => isDigit d = true) ds /\ 1 <= length ds.

Section MergeNotions.
Context {ops : StringOps}.

(** The map of the merge after a list of candidates. *)
Definition mergeMap (l : list AttackEntry) : jsmap AttackEntry :=
  fold_left coalesceStep l [].

(** What the map holds about the candidates [seen] so far: the keys are
    distinct, each entry sits under its own key, every candidate seen has
    its key in the map, and the entry under a key is a candidate that no
    earlier one of that key reaches and no later one exceeds. *)
Record mergeInv (seen : list AttackEntry) (m : jsmap AttackEntry) : Prop := {
  inv_nodup : NoDup (map fst m);
  inv_keys : forall k e, mapGet k m = Some e -> keyOf e = k;
  inv_seen : forall e, In e seen -> mapGet (keyOf e) m <> None;
  inv_best : forall k e, mapGet k m = Some e ->
    exists l1 l2, seen = l1 ++ e :: l2
      /\ (forall e', In e' l1 -> keyOf e' = k -> ge (bonusOf e') (bonusOf e) = false)
      /\ (forall e', In e' l2 -> keyOf e' = k -> gt (bonusOf e') (bonusOf e) = false)
}.

End MergeNotions.


(** ** A small host for the examples

    A document that is one text node, a URL parser for "https://host/path",
    and two networks: one where the direct request is refused and the
    mirror serves a text, one where nothing answers. *)

Definition flatDom : Dom := {|
  document := jsstring;
  element := jsstring;
  textnode := jsstring;
  parseFromString := fun html => html;
  docQuerySelector := fun _ _ => None;
  body := fun doc => doc;
  querySelector := fun _ _ => None;
  querySelectorAll := fun _ _ => [];
  textContent := fun e => e;
  textNodes := fun e => [e];
  nodeText := fun n => n;
  parentElement := fun _ => None
|}.

Fixpoint takeUntil (stop : char) (s : jsstring) : jsstring :=
  match s with
  | a :: s' => if (a =? stop)%N then [] else a :: takeUntil stop s'
  | [] => []
  end.

Fixpoint dropUntil (stop : char) (s : jsstring) : jsstring :=
  match s with
  | a :: s' => if (a =? stop)%N then s else dropUntil stop s'
  | [] => []
  end.

Definition simpleParseURL (s : jsstring) : option Url.t :=
  if startsWith (str "https://") s then
    let r := skipn 8 s in
    let path := dropUntil (ch "/") r in
    Some (Url.mk s (takeUntil (ch "/") r) (takeUntil (ch "?") path) (dropUntil (ch "?") path))
  else None.

Definition hexDigit (n : N) : char :=
  if (n <? 10)%N then (48 + n)%N else (55 + n)%N.

Definition percentEncode (s : jsstring) : jsstring :=
  flat_map (fun c =>
    if isWordChar c || (c =? ch "-")%N || (c =? ch ".")%N then [c]
    else [ch "%"; hexDigit (c / 16); hexDigit (c mod 16)]) s.

Definition textResponse (page : jsstring) : Response :=
  {| ok := true; contentType := Some (str "text/plain"); bodyText := Some page |}.

Definition mirrorOnlyNet (page : jsstring) : Net := {|
  parseURL := simpleParseURL;
  encodeURIComponent := percentEncode;
  respond := fun _ url =>
    if startsWith (str "https://r.jina.ai/") url then Responded (textResponse page)
    else Rejected
|}.

Definition deadNet : Net := {|
  parseURL := simpleParseURL;
  encodeURIComponent := percentEncode;
  respond := fun _ _ => Rejected
|}.

Definition sampleUrl : jsstring := str "https://2e.aonprd.com/Monsters.aspx?ID=42".

Definition lines (ls : list jsstring) : jsstring :=
  match ls with
  | [] => []
  | l :: ls' => l ++ flat_map (fun x => LF :: x) ls'
  end.

Definition barghestPage : jsstring :=
  lines [ str "Barghest (Creature 4)";
          str "Traits: Fiend, Evil, Large";
          str "AC 23 HP 150";
          str "Speed 35 feet";
          str "Melee jaws +14 (2d8+6 piercing)";
          str "Melee claw +18 (2d8+9 piercing)";
          str "Melee claw +12 (2d8+9 piercing)" ].

Definition claw (bonus : jsstring) : AttackEntry :=
  Attack (str "claw") (Some bonus) (Some (str "2d8+9 piercing")).

Definition sampleParsedUrl : Url.t :=
  Url.mk sampleUrl (str "2e.aonprd.com") (str "/Monsters.aspx") (str "?ID=42").

Definition barghestRecord : Stat.t :=
  Stat.mk (str "Barghest") (Some (Fin 4)) [str "Fiend"; str "Evil"; str "Large"]
    (Some (Fin 23)) (Some (Fin 150)) (Some (str "35 feet"))
    [Attack (str "jaws") (Some (str "+14")) (Some (str "2d8+6 piercing"));
     claw (str "+18")].

(** ** The rest of the earlier importer (src/unnamed/part_000) *)

(** [scope.closest(sel)], which the earlier importer asks of the host
    besides the questions of [Dom]. *)
Class DomClosest {dom : Dom} := {
  closest : element -> string -> option element
}.

Module EarlierPage.

(** [.replace(/[ \t]+/g, " ")]: every run of spaces and tabs becomes one
    space. *)
Definition isBlank (c : char) : bool := ((c =? 32) || (c =? 9))%N.

Fixpoint collapseBlanks (inRun : bool) (s : jsstring) : jsstring :=
  match s with
  | [] => []
  | a :: s' =>
      if isBlank a then
        if inRun then collapseBlanks true s' else 32%N :: collapseBlanks true s'
      else a :: collapseBlanks false s'
  end.

(** [function cleanSpaces(txt)]:
    [(txt || "").replace(/[ \t]+/g, " ").replace(/\r/g, "").trim()] *)
Definition cleanSpaces (txt : option jsstring) : jsstring :=
  trim (filter (fun c => negb (c =? CR)%N) (collapseBlanks false (orElse txt []))).

(** "/\n{2,}/" *)
Definition blankLinesRe : regex := Quant true 2 None (Chr LF).

(** [raw.split(/\n{2,}/).map(t => cleanSpaces(t)).filter(Boolean)] *)
Definition blocksOf (raw : jsstring) : list jsstring :=
  filter nonEmpty (map (fun t => cleanSpaces (Some t)) (split fNone blankLinesRe raw)).

(** "/\(([^)]+)\)/" *)
Definition parenRe : regex :=
  seqs [Chr (ch "("); Group 1 (plus (Class true [CChr (ch ")")])); Chr (ch ")")].

(** "/\bSpeed\b\s*([^.\n\r]+)/i" *)
Definition speedLineRe : regex :=
  seqs [WordB; lit "Speed"; WordB; star ws;
        Group 1 (plus (Class true [CChr (ch "."); CChr LF; CChr CR]))].

Section Page.
Context {ops : StringOps} {dom : Dom} {cl : DomClosest}.

(** [function textBlocks(scope)] *)
Definition textBlocks (scope : element) : list jsstring :=
  let sels := ["#ctl00_MainContent_DetailedOutput"; ".stat-block"; ".content";
               "article"; "main"; "body"]%string in
  let found :=
    map (fun s => match closest scope s with
                  | Some e => Some e
                  | None => querySelector scope s
                  end) sels in
  let container :=
    match find (fun o => match o with Some _ => true | None => false end) found with
    | Some (Some e) => e
    | _ => scope
    end in
  blocksOf (orElse (Some (textContent container)) []).

(** [function pickScope(doc)] *)
Definition pickScope (doc : document) : element :=
  match docQuerySelector doc "#ctl00_MainContent_DetailedOutput" with
  | Some e => e
  | None =>
      match docQuerySelector doc "#main" with
      | Some e => e
      | None => body doc
      end
  end.

(** The guard [e && clean(e.textContent)] and the value returned under
    it. *)
Definition cleanTextOf (e : option element) : option jsstring :=
  match e with
  | Some x =>
      let t := clean (Some (textContent x)) in
      if nonEmpty t then Some t else None
  | None => None
  end.

(** [function extractName(scope, doc)] *)
Definition extractName (scope : element) (doc : document) : option jsstring :=
  match cleanTextOf (docQuerySelector doc "h1, .title, .page-title") with
  | Some n => Some n
  | None =>
      match cleanTextOf (querySelector scope "h1, h2, h3, strong, b") with
      | Some n => Some n
      | None =>
          match findTextNode scope fI creatureRe with
          | Some creatureLine =>
              let t := orElse (option_map textContent (parentElement creatureLine)) [] in
              match exec fI namePlainRe t with
              | Some m => Some (clean (grp 1 m))
              | None => None
              end
          | None => None
          end
      end
  end.

(** [function extractLevel(scope)] *)
Definition extractLevel (scope : element) : option number :=
  match findTextNode scope fI creatureRe with
  | Some node =>
      match exec fI creatureRe (nodeText node) with
      | Some m => Some (parseInt (orElse (grp 1 m) []))
      | None => None
      end
  | None => None
  end.

(** [function extractTraits(scope)] *)
Definition extractTraits (scope : element) : list jsstring :=
  let tagLinks :=
    filter nonEmpty
      (map (fun x => clean (Some (textContent x)))
           (querySelectorAll scope "a.trait, span.trait, .traits a, .traits span")) in
  if negb (isEmpty tagLinks) then dedup tagLinks
  else
    let fromLine :=
      match findTextNode scope fIM traitsLineRe with
      | Some traitsLine =>
          match exec fIM traitsLineRe (nodeText traitsLine) with
          | Some m => Some (splitTraits (orElse (grp 1 m) []))
          | None => None
          end
      | None => None
      end in
    match fromLine with
    | Some traits => traits
    | None =>
        match querySelector scope "p" with
        | Some firstPara =>
            match exec fNone parenRe (textContent firstPara) with
            | Some m => splitTraits (orElse (grp 1 m) [])
            | None => []
            end
        | None => []
        end
    end.

(** [function extractNumberAfter(scope, labelRe)]; the label is looked
    for as it is written, the number after it without regard to case. *)
Definition extractNumberAfter (scope : element) (label : string) : option number :=
  match findTextNode scope fNone (labelRe label) with
  | None => None
  | Some node =>
      match exec fI (labelNumberRe label) (lineOf node) with
      | Some m => Some (parseInt (orElse (grp 1 m) []))
      | None => None
      end
  end.

(** [function extractSpeed(scope)] *)
Definition extractSpeed (scope : element) : option jsstring :=
  match findTextNode scope fI (labelRe "Speed") with
  | None => None
  | Some node =>
      match exec fI speedLineRe (lineOf node) with
      | Some m => Some (clean (grp 1 m))
      | None => None
      end
  end.

(** [function extractAttacks(scope)] *)
Definition extractAttacks (scope : element) : list AttackEntry :=
  Earlier.extractAttacks (firstn 40 (textBlocks scope)).

(** The record that [importFromLink] builds from the document. *)
Definition recordOf (html : jsstring) : Stat.t :=
  let doc := parseFromString html in
  let scope := pickScope doc in
  let name := extractName scope doc in
  let level := extractLevel scope in
  let traits := extractTraits scope in
  let ac := extractNumberAfter scope "AC" in
  let hp := extractNumberAfter scope "HP" in
  let speed := extractSpeed scope in
  let attacks := extractAttacks scope in
  Stat.mk
    (orElse name UNKNOWN)
    (if numberIsFinite level then level else None)
    traits
    (if numberIsFinite ac then ac else None)
    (if numberIsFinite hp then hp else None)
    (if truthy speed then speed else None)
    attacks.

Context {net : Net}.

(** [function assertAoN(url)]; the warning on a foreign host goes to the
    console and changes nothing else. *)
Definition assertAoN (url : jsstring) : io unit :=
  match parseURL url with
  | Some _ => ioRet tt
  | None => ioThrow (Error "Invalid URL.")
  end.

(** [export async function importFromLink(url)] *)
Definition importFromLink (url : jsstring) : io Stat.t :=
  _ <~ assertAoN url ;;
  html <~ Earlier.fetchWithFallback url ;;
  ioRet (recordOf html).
End Page.
End EarlierPage.

(** The one-node document answers no [closest]. *)
Definition flatClosest : DomClosest (dom := flatDom) := {|
  closest := fun _ _ => None
|}.

(** ** Notions used in the further properties *)

Definition notSpace (c : char) : bool := negb (isSpace c).

(** [startsClean s]: [s] does not start with white space. *)
Definition startsClean (s : jsstring) : bool :=
  match s with
  | a :: _ => negb (isSpace a)
  | [] => true
  end.

(** [singleSpaced s]: every white-space unit of [s] is an ASCII space and
    no white-space unit follows it. *)
Fixpoint singleSpaced (s : jsstring) : bool :=
  match s with
  | [] => true
  | a :: s' =>
      (if isSpace a then (a =? 32)%N && startsClean s' else true) && singleSpaced s'
  end.

(** [tidy s]: single-spaced, with no white space at either end. *)
Definition tidy (s : jsstring) : bool :=
  singleSpaced s && startsClean s && startsClean (rev s).

(** What the scan lets through as the name and the damage of an attack. *)
Definition wellFormedName (n : jsstring) : Prop :=
  tidy n = true
  /\ forall c, In c n ->
       c <> LF /\ c <> CR /\ c <> ch ";" /\ c <> BULLET /\ c <> EM_DASH /\ c <> ch "-".

Definition wellFormedDamage (d : option jsstring) : Prop :=
  match d with
  | Some s => tidy s = true /\ ~ In (ch ")") s
  | None => True
  end.


(** [mentions w t]: some stretch of [t] is [w] once its ASCII capitals are
    lowered. *)
Definition mentions (w t : jsstring) : Prop :=
  exists pre v post, t = pre ++ v ++ post /\ asciiLower v = w.

(** A number that is an integer not below zero, or plus infinity. *)
Definition nonNegative (n : number) : Prop :=
  n = PosInf \/ exists z, n = Fin z /\ (0 <= z)%Z.

Definition isSeparator (c : char) : bool :=
  ((c =? ch ",") || (c =? BULLET) || (c =? ch ";"))%N.

(** What the importer lets through as a trait. *)
Definition wellFormedTrait (x : jsstring) : Prop :=
  x <> [] /\ tidy x = true.
(** * Properties of the matcher *)

Create HintDb regex.

Lemma suffixOf_refl s : suffixOf s s.
Proof. now exists []. Qed.

Lemma suffixOf_trans s1 s2 s3 : suffixOf s1 s2 -> suffixOf s2 s3 -> suffixOf s1 s3.
Proof.
  intros [p Hp] [q Hq]. exists (q ++ p). now rewrite Hq, Hp, app_assoc.
Qed.

Lemma suffixOf_tail a s : suffixOf s (a :: s).
Proof. now exists [a]. Qed.

Lemma suffixOf_length s' s : suffixOf s' s -> length s' <= length s.
Proof. intros [p ->]. rewrite length_app. lia. Qed.

Lemma suffixOf_same_length s' s : suffixOf s' s -> length s' = length s -> s' = s.
Proof.
  intros [p ->] H. rewrite length_app in H.
  destruct p; [reflexivity | simpl in H; lia].
Qed.

#[local] Hint Resolve suffixOf_refl suffixOf_tail : regex.

Lemma agree_suffix s s' c1 c2 : agree s c1 c2 -> suffixOf s' s -> agree s' c1 c2.
Proof. intros H Hs y Hy. apply H. eapply suffixOf_trans; eassumption. Qed.

Lemma repeatMatcher_ext m gs g :
  extensional m ->
  forall fuel mn mx, extensional (repeatMatcher m gs g fuel mn mx).
Proof.
  intros Hm fuel. induction fuel as [|fuel IH]; intros mn mx x c1 c2 Hc; simpl.
  - reflexivity.
  - assert (Hx : c1 x = c2 x) by (apply Hc; auto with regex).
    assert (Hd : m (clearCaps gs x)
                   (fun y => if Nat.eqb mn 0 && Nat.eqb (length (rest y)) (length (rest x))
                             then None
                             else repeatMatcher m gs g fuel (pred mn) (option_map pred mx) y c1)
               = m (clearCaps gs x)
                   (fun y => if Nat.eqb mn 0 && Nat.eqb (length (rest y)) (length (rest x))
                             then None
                             else repeatMatcher m gs g fuel (pred mn) (option_map pred mx) y c2)).
    { apply Hm. intros y Hy. simpl in Hy.
      destruct (Nat.eqb mn 0 && Nat.eqb (length (rest y)) (length (rest x))); [reflexivity|].
      apply IH. eapply agree_suffix; eassumption. }
    destruct mx as [[|k]|]; try assumption;
      destruct (Nat.eqb mn 0); simpl in Hd |- *; try assumption;
      destruct g; rewrite Hd, Hx; reflexivity.
Qed.

(** The matcher only looks at its continuation on later positions of the
    input: it never moves backwards. *)
Lemma matcher_ext fl r : extensional (matcher fl r).
Proof.
  induction r; intros x c1 c2 Hc;
    [ simpl; try (destruct (rest x) as [|a s] eqn:E; [reflexivity|]) .. | ].
  - apply Hc; auto with regex.
  - destruct (_ =? _)%N; [|reflexivity]. apply Hc. simpl. auto with regex.
  - destruct (isLineTerminator a); [reflexivity|]. apply Hc. simpl. auto with regex.
  - destruct (classMatches _ _ _ _); [|reflexivity]. apply Hc. simpl. auto with regex.
  - destruct (atLineStart fl x); [|reflexivity]. apply Hc; auto with regex.
  - destruct (atLineEnd fl x); [|reflexivity]. apply Hc; auto with regex.
  - destruct (atWordBoundary x); [|reflexivity]. apply Hc; auto with regex.
  - apply IHr1. intros y Hy. apply IHr2. eapply agree_suffix; eassumption.
  - rewrite (IHr1 x c1 c2 Hc), (IHr2 x c1 c2 Hc). reflexivity.
  - apply IHr. intros y Hy. apply Hc. exact Hy.
  - change (repeatMatcher (matcher fl r) (groupsOf r) greedy
              (S (min + length (rest x))) min max x c1
            = repeatMatcher (matcher fl r) (groupsOf r) greedy
              (S (min + length (rest x))) min max x c2).
    apply repeatMatcher_ext; assumption.
Qed.

(** The bound on the iterations is never reached: any larger bound gives
    the same result. *)
Lemma repeat_fuel m gs g :
  extensional m ->
  forall fuel1 fuel2 mn mx x c,
    mn + length (rest x) < fuel1 -> mn + length (rest x) < fuel2 ->
    repeatMatcher m gs g fuel1 mn mx x c = repeatMatcher m gs g fuel2 mn mx x c.
Proof.
  intros Hm fuel1. induction fuel1 as [|fuel1 IH]; intros fuel2 mn mx x c H1 H2; [lia|].
  destruct fuel2 as [|fuel2]; [lia|]. simpl.
  assert (Hd : m (clearCaps gs x)
                 (fun y => if Nat.eqb mn 0 && Nat.eqb (length (rest y)) (length (rest x))
                           then None
                           else repeatMatcher m gs g fuel1 (pred mn) (option_map pred mx) y c)
             = m (clearCaps gs x)
                 (fun y => if Nat.eqb mn 0 && Nat.eqb (length (rest y)) (length (rest x))
                           then None
                           else repeatMatcher m gs g fuel2 (pred mn) (option_map pred mx) y c)).
  { apply Hm. intros y Hy. simpl in Hy. apply suffixOf_length in Hy.
    destruct (Nat.eqb mn 0) eqn:E0; simpl.
    - destruct (Nat.eqb (length (rest y)) (length (rest x))) eqn:E1; [reflexivity|].
      apply Nat.eqb_eq in E0. apply Nat.eqb_neq in E1. apply IH; lia.
    - apply Nat.eqb_neq in E0. apply IH; lia. }
  destruct mx as [[|k]|]; try reflexivity;
    destruct (Nat.eqb mn 0); simpl in Hd |- *; try assumption;
    destruct g; rewrite Hd; reflexivity.
Qed.

Lemma repeatMatcher_sound fl r :
  (forall x c z, matcher fl r x c = Some z -> exists y, sem fl r x y /\ c y = Some z) ->
  forall g fuel mn mx x c z,
    repeatMatcher (matcher fl r) (groupsOf r) g fuel mn mx x c = Some z ->
    exists y, sem fl (Quant g mn mx r) x y /\ c y = Some z.
Proof.
  intros Hm g fuel. induction fuel as [|fuel IH]; intros mn mx x c z H; simpl in H.
  - discriminate.
  - assert (Hdone : mn = 0 \/ mx = Some 0 -> c x = Some z ->
                    exists y, sem fl (Quant g mn mx r) x y /\ c y = Some z).
    { intros Hd Hc. exists x. split; [now apply sem_QuantDone | exact Hc]. }
    assert (Hiter : mx <> Some 0 ->
              matcher fl r (clearCaps (groupsOf r) x)
                (fun y => if Nat.eqb mn 0 && Nat.eqb (length (rest y)) (length (rest x))
                          then None
                          else repeatMatcher (matcher fl r) (groupsOf r) g fuel
                                 (pred mn) (option_map pred mx) y c) = Some z ->
              exists y, sem fl (Quant g mn mx r) x y /\ c y = Some z).
    { intros Hmx Hrun. apply Hm in Hrun. destruct Hrun as (y & Hy & Hk).
      destruct (Nat.eqb mn 0 && Nat.eqb (length (rest y)) (length (rest x))) eqn:E;
        [discriminate|].
      apply IH in Hk. destruct Hk as (y' & Hy' & Hc). exists y'. split; [|exact Hc].
      eapply sem_QuantIter; eauto.
      intros Hmn Hlen. subst mn. rewrite Hlen, !Nat.eqb_refl in E. discriminate E. }
    destruct mx as [[|k]|].
    + apply Hdone; auto.
    + destruct (Nat.eqb mn 0) eqn:E0; simpl in H.
      * apply Nat.eqb_eq in E0.
        destruct g.
        -- destruct (matcher fl r _ _) eqn:Em in H.
           ++ inversion H; subst. apply Hiter; [discriminate|]. simpl. exact Em.
           ++ apply Hdone; auto.
        -- destruct (c x) eqn:Ec.
           ++ inversion H; subst. apply Hdone; auto.
           ++ apply Hiter; [discriminate|]. simpl. exact H.
      * apply Hiter; [discriminate|]. simpl. exact H.
    + destruct (Nat.eqb mn 0) eqn:E0; simpl in H.
      * apply Nat.eqb_eq in E0.
        destruct g.
        -- destruct (matcher fl r _ _) eqn:Em in H.
           ++ inversion H; subst. apply Hiter; [discriminate|]. simpl. exact Em.
           ++ apply Hdone; auto.
        -- destruct (c x) eqn:Ec.
           ++ inversion H; subst. apply Hdone; auto.
           ++ apply Hiter; [discriminate|]. simpl. exact H.
      * apply Hiter; [discriminate|]. simpl. exact H.
Qed.

Theorem matcher_sound fl r :
  forall x k z, matcher fl r x k = Some z -> exists y, sem fl r x y /\ k y = Some z.
Proof.
  induction r; intros x k z H;
    [ simpl in H; try (destruct (rest x) as [|a s] eqn:E; [discriminate|]) .. | ].
  - exists x. split; [constructor | exact H].
  - destruct (_ =? _)%N eqn:Ec in H; [|discriminate]. apply N.eqb_eq in Ec.
    exists (step x a s). split; [now constructor | exact H].
  - destruct (isLineTerminator a) eqn:El; [discriminate|].
    exists (step x a s). split; [now constructor | exact H].
  - destruct (classMatches _ _ _ _) eqn:Ec in H; [|discriminate].
    exists (step x a s). split; [now constructor | exact H].
  - destruct (atLineStart fl x) eqn:Eb; [|discriminate].
    exists x. split; [now constructor | exact H].
  - destruct (atLineEnd fl x) eqn:Eb; [|discriminate].
    exists x. split; [now constructor | exact H].
  - destruct (atWordBoundary x) eqn:Eb; [|discriminate].
    exists x. split; [now constructor | exact H].
  - apply IHr1 in H. destruct H as (y & Hy & H). apply IHr2 in H.
    destruct H as (y' & Hy' & H). exists y'. split; [econstructor; eauto | exact H].
  - destruct (matcher fl r1 x k) eqn:E1.
    + inversion H; subst. apply IHr1 in E1. destruct E1 as (y & Hy & Hc).
      exists y. split; [now apply sem_AltL | exact Hc].
    + apply IHr2 in H. destruct H as (y & Hy & Hc).
      exists y. split; [now apply sem_AltR | exact Hc].
  - apply IHr in H. destruct H as (y & Hy & Hc).
    eexists. split; [apply sem_Group; exact Hy | exact Hc].
  - change (repeatMatcher (matcher fl r) (groupsOf r) greedy
              (S (min + length (rest x))) min max x k = Some z) in H.
    eapply repeatMatcher_sound; eauto.
Qed.

(** A path only moves forward in the input. *)
Lemma sem_suffix fl r x y : sem fl r x y -> suffixOf (rest y) (rest x).
Proof.
  induction 1; simpl; auto with regex;
    try (match goal with H : rest _ = _ :: _ |- _ => rewrite H end; auto with regex).
  - eapply suffixOf_trans; eassumption.
  - simpl in *. eapply suffixOf_trans; eassumption.
Qed.

Lemma lookupCap_dropCap i j cs : i <> j -> lookupCap i (dropCap j cs) = lookupCap i cs.
Proof.
  intros Hij. induction cs as [|[k v] cs IH]; simpl; [reflexivity|].
  destruct (Nat.eqb j k) eqn:Ejk; simpl.
  - apply Nat.eqb_eq in Ejk. subst k.
    destruct (Nat.eqb i j) eqn:Eij; [apply Nat.eqb_eq in Eij; contradiction | exact IH].
  - now rewrite IH.
Qed.

Lemma lookupCap_clearCaps i gs x :
  ~ In i gs -> lookupCap i (caps (clearCaps gs x)) = lookupCap i (caps x).
Proof.
  intros Hi. simpl. induction gs as [|j gs IH]; simpl; [reflexivity|].
  rewrite lookupCap_dropCap; [apply IH|]; intro; apply Hi; simpl; auto.
Qed.

Lemma lookupCap_setCap_same i v x : lookupCap i (caps (setCap i v x)) = Some v.
Proof. simpl. now rewrite Nat.eqb_refl. Qed.

Lemma lookupCap_setCap_other i j v x :
  i <> j -> lookupCap i (caps (setCap j v x)) = lookupCap i (caps x).
Proof.
  intros Hij. simpl. destruct (Nat.eqb i j) eqn:E.
  - apply Nat.eqb_eq in E. contradiction.
  - now apply lookupCap_dropCap.
Qed.

(** A pattern leaves the captures of the groups it does not contain. *)
Lemma sem_frame fl r x y i :
  sem fl r x y -> ~ In i (groupsOf r) -> lookupCap i (caps y) = lookupCap i (caps x).
Proof.
  induction 1; intros Hi; simpl in Hi; try reflexivity.
  - rewrite IHsem2, IHsem1; auto; intro; apply Hi; apply in_or_app; auto.
  - apply IHsem. intro; apply Hi; apply in_or_app; auto.
  - apply IHsem. intro; apply Hi; apply in_or_app; auto.
  - rewrite lookupCap_setCap_other; [apply IHsem|]; intro; apply Hi; auto.
  - rewrite IHsem2, IHsem1 by assumption. now apply lookupCap_clearCaps.
Qed.

(** * Properties of the merge *)

Lemma jsstring_eqb_eq a b : jsstring_eqb a b = true <-> a = b.
Proof.
  unfold jsstring_eqb. destruct (list_eq_dec N.eq_dec a b); split; congruence.
Qed.

Lemma jsstring_eqb_refl a : jsstring_eqb a a = true.
Proof. now apply jsstring_eqb_eq. Qed.

Lemma jsstring_eqb_neq a b : jsstring_eqb a b = false <-> a <> b.
Proof.
  unfold jsstring_eqb. destruct (list_eq_dec N.eq_dec a b); split; congruence.
Qed.

Section MapFacts.
Variable V : Type.
Implicit Types (m : jsmap V) (k : jsstring) (v : V).

Lemma mapGet_mapSet k' k v m :
  mapGet k' (mapSet k v m) = if jsstring_eqb k' k then Some v else mapGet k' m.
Proof.
  induction m as [|[k0 v0] m IH]; simpl.
  - reflexivity.
  - destruct (jsstring_eqb k k0) eqn:E; simpl.
    + apply jsstring_eqb_eq in E. subst k0.
      destruct (jsstring_eqb k' k); reflexivity.
    + rewrite IH. destruct (jsstring_eqb k' k0) eqn:E0; [|reflexivity].
      apply jsstring_eqb_eq in E0. subst k0.
      destruct (jsstring_eqb k' k) eqn:E1; [|reflexivity].
      apply jsstring_eqb_eq in E1. subst k'. rewrite jsstring_eqb_refl in E. discriminate.
Qed.

Lemma mapGet_None k m : mapGet k m = None <-> ~ In k (map fst m).
Proof.
  induction m as [|[k0 v0] m IH]; simpl.
  - tauto.
  - destruct (jsstring_eqb k k0) eqn:E.
    + apply jsstring_eqb_eq in E. split; [discriminate | intros H; exfalso; apply H; auto].
    + apply jsstring_eqb_neq in E. rewrite IH. split.
      * intros H [H1|H1]; [congruence | contradiction].
      * intros H H1. apply H. now right.
Qed.

(** [set] on a present key keeps the order of the keys; on a new key it
    appends the key. *)
Lemma mapSet_keys k v m :
  map fst (mapSet k v m)
  = match mapGet k m with Some _ => map fst m | None => map fst m ++ [k] end.
Proof.
  induction m as [|[k0 v0] m IH]; simpl.
  - reflexivity.
  - destruct (jsstring_eqb k k0) eqn:E; simpl; [reflexivity|].
    rewrite IH. destruct (mapGet k m); reflexivity.
Qed.

Lemma mapSet_same k v m : mapGet k m = Some v -> mapSet k v m = m.
Proof.
  induction m as [|[k0 v0] m IH]; simpl; [discriminate|].
  destruct (jsstring_eqb k k0).
  - now intros [= ->].
  - intros H. now rewrite IH.
Qed.

Lemma mapSet_NoDup k v m : NoDup (map fst m) -> NoDup (map fst (mapSet k v m)).
Proof.
  intros H. rewrite mapSet_keys. destruct (mapGet k m) eqn:E; [exact H|].
  apply mapGet_None in E. apply NoDup_app; [exact H | repeat constructor; simpl; tauto |].
  intros x Hx [<-|[]]. contradiction.
Qed.

Lemma mapGet_In k v m : mapGet k m = Some v -> In (k, v) m.
Proof.
  induction m as [|[k0 v0] m IH]; simpl; [discriminate|].
  destruct (jsstring_eqb k k0) eqn:E.
  - apply jsstring_eqb_eq in E. subst. intros [= ->]. now left.
  - intros H. right. auto.
Qed.

Lemma In_mapGet k v m : NoDup (map fst m) -> In (k, v) m -> mapGet k m = Some v.
Proof.
  induction m as [|[k0 v0] m IH]; simpl; [tauto|].
  intros Hnd [H|H].
  - inversion H; subst. now rewrite jsstring_eqb_refl.
  - inversion Hnd as [|? ? Hk0 Hm]; subst.
    destruct (jsstring_eqb k k0) eqn:E; [|auto].
    apply jsstring_eqb_eq in E. subst k0. exfalso. apply Hk0.
    change k with (fst (k, v)). now apply in_map.
Qed.
End MapFacts.

(** The order [>] and [>=] of numbers, as far as the merge needs it. *)
Lemma gt_ge_trans a p e : gt a p = true -> ge e p = false -> ge e a = false.
Proof.
  destruct a, p, e; simpl; try congruence; intros H1 H2;
    rewrite ?Z.ltb_lt, ?Z.leb_gt in *; apply Z.leb_gt; lia.
Qed.

Lemma gt_not_ge a p : gt a p = true -> ge p a = false.
Proof.
  destruct a, p; simpl; try congruence; intros H;
    rewrite ?Z.ltb_lt in *; apply Z.leb_gt; lia.
Qed.

Lemma gt_gt_ge a p e : gt a p = true -> gt e p = false -> ge e a = false.
Proof.
  destruct a, p, e; simpl; try congruence; intros H1 H2;
    rewrite ?Z.ltb_lt, ?Z.ltb_ge in *; apply Z.leb_gt; lia.
Qed.

Section MergeFacts.
Context {ops : StringOps}.

Lemma mergeInv_nil : mergeInv [] [].
Proof. split; simpl; try constructor; try discriminate; tauto. Qed.

Lemma mergeInv_step seen m a :
  mergeInv seen m -> mergeInv (seen ++ [a]) (coalesceStep m a).
Proof.
  intros [Hnd Hkeys Hseen Hbest]. unfold coalesceStep.
  destruct (mapGet (keyOf a) m) as [p|] eqn:Eg.
  - destruct (gt (bonusOf a) (bonusOf p)) eqn:Egt.
    + split.
      * now apply mapSet_NoDup.
      * intros k e. rewrite mapGet_mapSet.
        destruct (jsstring_eqb k (keyOf a)) eqn:E; [|apply Hkeys].
        apply jsstring_eqb_eq in E. now intros [= <-].
      * intros e He. rewrite mapGet_mapSet.
        destruct (jsstring_eqb (keyOf e) (keyOf a)); [discriminate|].
        apply in_app_or in He. destruct He as [He|[<-|[]]]; [now apply Hseen|].
        congruence.
      * intros k e. rewrite mapGet_mapSet.
        destruct (jsstring_eqb k (keyOf a)) eqn:E.
        -- apply jsstring_eqb_eq in E. subst k. intros [= <-].
           exists seen, []. split; [reflexivity|]. split; [|intros ? []].
           destruct (Hbest _ _ Eg) as (l1 & l2 & -> & H1 & H2).
           intros e' He' Hk. apply in_app_or in He'. destruct He' as [He'|[<-|He']].
           ++ eapply gt_ge_trans; eauto.
           ++ now apply gt_not_ge.
           ++ eapply gt_gt_ge; eauto.
        -- apply jsstring_eqb_neq in E. intros Hg.
           destruct (Hbest _ _ Hg) as (l1 & l2 & -> & H1 & H2).
           exists l1, (l2 ++ [a]). split; [now rewrite <- app_assoc|]. split; [exact H1|].
           intros e' He' Hk. apply in_app_or in He'. destruct He' as [He'|[<-|[]]]; auto.
           congruence.
    + split; auto.
      * intros e He. apply in_app_or in He. destruct He as [He|[<-|[]]]; [now apply Hseen|].
        congruence.
      * intros k e Hg. destruct (Hbest _ _ Hg) as (l1 & l2 & -> & H1 & H2).
        exists l1, (l2 ++ [a]). split; [now rewrite <- app_assoc|]. split; [exact H1|].
        intros e' He' Hk. apply in_app_or in He'. destruct He' as [He'|[<-|[]]]; auto.
        subst k. rewrite Eg in Hg. now inversion Hg; subst.
  - split.
    + now apply mapSet_NoDup.
    + intros k e. rewrite mapGet_mapSet.
      destruct (jsstring_eqb k (keyOf a)) eqn:E; [|apply Hkeys].
      apply jsstring_eqb_eq in E. now intros [= <-].
    + intros e He. rewrite mapGet_mapSet.
      destruct (jsstring_eqb (keyOf e) (keyOf a)) eqn:E; [discriminate|].
      apply in_app_or in He. destruct He as [He|[<-|[]]]; [now apply Hseen|].
      rewrite jsstring_eqb_refl in E. discriminate.
    + intros k e. rewrite mapGet_mapSet.
      destruct (jsstring_eqb k (keyOf a)) eqn:E.
      * apply jsstring_eqb_eq in E. subst k. intros [= <-].
        exists seen, []. split; [reflexivity|]. split; [|intros ? []].
        intros e' He' Hk. apply Hseen in He'. congruence.
      * apply jsstring_eqb_neq in E. intros Hg.
        destruct (Hbest _ _ Hg) as (l1 & l2 & -> & H1 & H2).
        exists l1, (l2 ++ [a]). split; [now rewrite <- app_assoc|]. split; [exact H1|].
        intros e' He' Hk. apply in_app_or in He'. destruct He' as [He'|[<-|[]]]; auto.
        congruence.
Qed.

Lemma mergeInv_fold l : forall seen m,
  mergeInv seen m -> mergeInv (seen ++ l) (fold_left coalesceStep l m).
Proof.
  induction l as [|a l IH]; intros seen m H; simpl.
  - now rewrite app_nil_r.
  - replace (seen ++ a :: l) with ((seen ++ [a]) ++ l) by now rewrite <- app_assoc.
    apply IH. now apply mergeInv_step.
Qed.

Lemma mergeInv_mergeMap l : mergeInv l (mergeMap l).
Proof. apply (mergeInv_fold l (seen := [])). apply mergeInv_nil. Qed.

Lemma mergeMap_snoc l a : mergeMap (l ++ [a]) = coalesceStep (mergeMap l) a.
Proof. unfold mergeMap. now rewrite fold_left_app. Qed.

Lemma coalesceAttacks_keys l : map keyOf (coalesceAttacks l) = map fst (mergeMap l).
Proof.
  unfold coalesceAttacks, mapValues. fold (mergeMap l).
  pose proof (mergeInv_mergeMap l) as [Hnd Hkeys _ _].
  assert (H : forall k e, In (k, e) (mergeMap l) -> keyOf e = k).
  { intros k e Hin. apply Hkeys. now apply In_mapGet. }
  clear Hkeys Hnd. induction (mergeMap l) as [|[k e] m IH]; simpl; [reflexivity|].
  rewrite IH by (intros; apply H; now right). f_equal. apply H. now left.
Qed.

Lemma coalesceAttacks_NoDup l : NoDup (map keyOf (coalesceAttacks l)).
Proof. rewrite coalesceAttacks_keys. apply (mergeInv_mergeMap l). Qed.

Lemma coalesceAttacks_In l e :
  In e (coalesceAttacks l) -> mapGet (keyOf e) (mergeMap l) = Some e.
Proof.
  unfold coalesceAttacks, mapValues. fold (mergeMap l). intros H.
  apply in_map_iff in H. destruct H as ([k e'] & He & Hin). simpl in He. subst e'.
  pose proof (mergeInv_mergeMap l) as [Hnd Hkeys _ _].
  assert (Hg : mapGet k (mergeMap l) = Some e) by (apply In_mapGet; assumption).
  now rewrite (Hkeys _ _ Hg).
Qed.

Lemma coalesceAttacks_subset l e : In e (coalesceAttacks l) -> In e l.
Proof.
  intros H. apply coalesceAttacks_In in H.
  destruct (inv_best (mergeInv_mergeMap l) _ H) as (l1 & l2 & -> & _).
  apply in_or_app. right. now left.
Qed.

(** The merge of the earlier importer is the same function. *)
Lemma earlier_coalesceStep m a : Earlier.coalesceStep m a = coalesceStep m a.
Proof.
  unfold Earlier.coalesceStep, coalesceStep, keyOf.
  destruct (mapGet (toLowerCase (name a)) m) as [p|] eqn:E; [|reflexivity].
  destruct (gt (bonusOf a) (bonusOf p)); [reflexivity|].
  now apply mapSet_same.
Qed.

Lemma earlier_coalesceAttacks l : Earlier.coalesceAttacks l = coalesceAttacks l.
Proof.
  unfold Earlier.coalesceAttacks, coalesceAttacks. f_equal.
  generalize (@nil (jsstring * AttackEntry)).
  induction l as [|a l IH]; intros m; simpl; [reflexivity|].
  now rewrite earlier_coalesceStep, IH.
Qed.
End MergeFacts.

(** * Properties of the attack scan *)

Lemma consumed_app (p r : jsstring) : consumed (p ++ r) r = p.
Proof.
  unfold consumed. rewrite length_app.
  replace (length p + length r - length r) with (length p) by lia.
  now rewrite firstn_app, Nat.sub_diag, firstn_all, app_nil_r.
Qed.

Lemma matchAt_sem fl r p s m :
  matchAt fl r p s = Some m ->
  exists y, sem fl r (MState p s []) y
    /\ m = RMatch (consumed s (rest y)) (caps y) (MState (prev y) (rest y) []).
Proof.
  unfold matchAt. intros H.
  destruct (matcher fl r (MState p s []) (fun y => Some y)) as [y|] eqn:E; [|discriminate].
  apply matcher_sound in E. destruct E as (y' & Hsem & [= ->]).
  exists y. split; [exact Hsem | now inversion H].
Qed.

(** Every match that [exec] finds is a match at some later position. *)
Lemma searchFrom_matchAt fl r : forall s p m,
  searchFrom fl r p s = Some m ->
  exists p' s', suffixOf s' s /\ matchAt fl r p' s' = Some m.
Proof.
  induction s as [|a s IH]; intros p m H; simpl in H.
  - destruct (matchAt fl r p []) eqn:E; [|discriminate].
    inversion H; subst. exists p, []. split; [apply suffixOf_refl | exact E].
  - destruct (matchAt fl r p (a :: s)) eqn:E.
    + inversion H; subst. exists p, (a :: s). split; [apply suffixOf_refl | exact E].
    + apply IH in H. destruct H as (p' & s' & Hs & Hm). exists p', s'. split; [|exact Hm].
      eapply suffixOf_trans; [exact Hs | apply suffixOf_tail].
Qed.

Lemma execLoop_Forall fl r (P : rmatch -> Prop) :
  (forall p s m, matchAt fl r p s = Some m -> P m) ->
  forall fuel p s, Forall P (execLoop fuel fl r p s).
Proof.
  intros HP fuel. induction fuel as [|fuel IH]; intros p s; simpl; [constructor|].
  destruct (searchFrom fl r p s) as [m|] eqn:E; [|constructor].
  constructor; [|apply IH].
  apply searchFrom_matchAt in E. destruct E as (p' & s' & _ & Hm). eapply HP; eauto.
Qed.

Lemma searchFrom_progress fl r s p m :
  progresses fl r -> searchFrom fl r p s = Some m ->
  length (rest (after m)) < length s.
Proof.
  intros Hp H. apply searchFrom_matchAt in H. destruct H as (p' & s' & Hs & Hm).
  apply matchAt_sem in Hm. destruct Hm as (y & Hy & ->). simpl.
  apply Hp in Hy. simpl in Hy. apply suffixOf_length in Hs. lia.
Qed.

Lemma execLoop_fuel fl r :
  progresses fl r ->
  forall fuel1 fuel2 p s,
    length s < fuel1 -> length s < fuel2 ->
    execLoop fuel1 fl r p s = execLoop fuel2 fl r p s.
Proof.
  intros Hp fuel1. induction fuel1 as [|fuel1 IH]; intros fuel2 p s H1 H2; [lia|].
  destruct fuel2 as [|fuel2]; [lia|]. simpl.
  destruct (searchFrom fl r p s) as [m|] eqn:E; [|reflexivity].
  f_equal. pose proof (searchFrom_progress _ _ Hp E). apply IH; lia.
Qed.

(** *** The shape of the bonus group *)

Lemma canonicalize_symbol ic c a :
  inRange 97 122 c = false -> inRange 65 90 c = false ->
  (canonicalize ic c =? canonicalize ic a)%N = true -> a = c.
Proof.
  unfold canonicalize, inRange. intros H1 H2. rewrite H1, andb_false_r.
  destruct (ic && ((97 <=? a)%N && (a <=? 122)%N)) eqn:E; intros H; apply N.eqb_eq in H.
  - apply andb_true_iff in E. destruct E as [_ E].
    apply andb_true_iff in E. destruct E as [E1 E2].
    apply N.leb_le in E1. apply N.leb_le in E2.
    apply andb_false_iff in H2. destruct H2 as [H2|H2]; apply N.leb_gt in H2; lia.
  - now symmetry.
Qed.

Lemma signClass_spec ic a :
  classMatches ic false
    [CChr (ch "+"); CChr TYPOGRAPHIC_MINUS; CChr (ch "-")] a = true ->
  a = ch "+" \/ a = TYPOGRAPHIC_MINUS \/ a = ch "-".
Proof.
  cbv [classMatches existsb itemMatches xorb]. rewrite orb_false_r.
  intros H. apply orb_true_iff in H. destruct H as [H|H]; [|apply orb_true_iff in H; destruct H as [H|H]].
  - left. now apply canonicalize_symbol in H.
  - right; left. now apply canonicalize_symbol in H.
  - right; right. now apply canonicalize_symbol in H.
Qed.

Lemma digitClass_spec ic a : classMatches ic false [CDigit] a = true -> isDigit a = true.
Proof. unfold classMatches. simpl. now rewrite orb_false_r. Qed.

Lemma isDigit_not_minus a : isDigit a = true -> a <> TYPOGRAPHIC_MINUS.
Proof.
  unfold isDigit, inRange, TYPOGRAPHIC_MINUS. intros H ->. simpl in H. discriminate.
Qed.

(** A run of [\d], bounded or not, consumes digits only, and as many as
    its bounds say. *)
Lemma digits_sem fl g mn mx x y :
  sem fl (Quant g mn mx digit) x y -> boundsOk mn mx ->
  exists ds, rest x = ds ++ rest y /\ Forall (fun d => isDigit d = true) ds
             /\ mn <= length ds
             /\ match mx with Some k => length ds <= k | None => True end.
Proof.
  intros H. remember (Quant g mn mx digit) as r eqn:Er.
  revert mn mx Er. induction H; intros mn' mx' Er Hb; try discriminate.
  - inversion Er; subst. exists []. repeat split; auto.
    + destruct H as [->| ->]; simpl in *; lia.
    + destruct mx'; [simpl; lia | exact I].
  - inversion Er; subst. clear IHsem1.
    destruct (IHsem2 _ _ eq_refl) as (ds & Hds & Hall & Hmin & Hmax).
    { destruct mx' as [k|]; simpl in *; [lia | exact I]. }
    inversion H0; subst.
    match goal with H : classMatches _ _ _ _ = true |- _ => apply digitClass_spec in H end.
    simpl in *.
    exists (a :: ds). repeat split.
    + match goal with E : rest x = _ |- _ => rewrite E end. simpl. now rewrite Hds.
    + constructor; assumption.
    + simpl. lia.
    + destruct mx' as [[|k]|]; simpl in *; try lia. congruence.
Qed.

Lemma bonusGroup_sem fl g mn mx x y :
  boundsOk mn mx ->
  sem fl (Group 3 (Seq signClass (Quant g mn mx digit))) x y ->
  exists a ds, lookupCap 3 (caps y) = Some (a :: ds) /\ isSign a
    /\ Forall (fun d => isDigit d = true) ds
    /\ mn <= length ds
    /\ match mx with Some k => length ds <= k | None => True end.
Proof.
  intros Hb H. inversion H; subst; clear H.
  match goal with H : sem _ (Seq _ _) _ _ |- _ => inversion H; subst; clear H end.
  match goal with H : sem _ signClass _ _ |- _ => inversion H; subst; clear H end.
  match goal with H : sem _ (Quant _ _ _ _) _ _ |- _ =>
    apply digits_sem in H; [destruct H as (ds & Hds & Hall & Hmin & Hmax) | exact Hb] end.
  simpl in Hds. exists a, ds. rewrite lookupCap_setCap_same.
  match goal with E : rest x = _ |- _ => rewrite E end.
  rewrite Hds. change (a :: ds ++ rest y0) with ((a :: ds) ++ rest y0).
  rewrite consumed_app. repeat split; auto.
  eapply signClass_spec; eauto.
Qed.

Lemma phasePattern_unfold digits p :
  phasePattern digits p
  = Seq (Group 1 (Alt (lit "Melee") (lit "Ranged")))
      (Seq (plus ws)
        (Seq (Group 2 (plusLazy nameClass))
          (Seq (plus ws)
            match p with
            | Detailed => Seq (Group 3 (Seq signClass digits)) (seqs damageTail)
            | Relaxed => Group 3 (Seq signClass digits)
            end))).
Proof. destruct p; reflexivity. Qed.

Lemma bonus_shape fl g mn mx p x y :
  boundsOk mn mx ->
  sem fl (phasePattern (Quant g mn mx digit) p) x y ->
  exists a ds, lookupCap 3 (caps y) = Some (a :: ds) /\ isSign a
    /\ Forall (fun d => isDigit d = true) ds
    /\ mn <= length ds
    /\ match mx with Some k => length ds <= k | None => True end.
Proof.
  rewrite phasePattern_unfold. intros Hb H.
  repeat match goal with
         | H : sem _ (Seq (Group 1 _) _) _ _ |- _ => inversion H; subst; clear H
         | H : sem _ (Seq (Group 2 _) _) _ _ |- _ => inversion H; subst; clear H
         | H : sem _ (Seq (plus _) _) _ _ |- _ => inversion H; subst; clear H
         end.
  destruct p.
  - match goal with H : sem _ (Seq (Group 3 _) _) _ _ |- _ => inversion H; subst; clear H end.
    match goal with H : sem _ (Group 3 _) _ _ |- _ => apply bonusGroup_sem in H; [|exact Hb] end.
    match goal with H : sem _ (Seq (star _) _) _ _ |- _ =>
      rewrite (sem_frame 3 H) by (simpl; intros [E|[]]; discriminate) end.
    assumption.
  - eapply bonusGroup_sem; eassumption.
Qed.

Lemma keyword_progress fl x y :
  sem fl (Group 1 (Alt (lit "Melee") (lit "Ranged"))) x y ->
  length (rest y) < length (rest x).
Proof.
  intros H. inversion H; subst; clear H. simpl.
  match goal with H : sem _ (Alt _ _) _ _ |- _ => inversion H; subst; clear H end.
  - match goal with H : sem _ (lit _) _ _ |- _ => inversion H; subst; clear H end.
    match goal with H : sem _ (Chr _) _ _ |- _ => inversion H; subst; clear H end.
    match goal with H : sem _ _ _ _ |- _ => apply sem_suffix, suffixOf_length in H end.
    simpl in *. match goal with E : rest x = _ |- _ => rewrite E end. simpl. lia.
  - match goal with H : sem _ (lit _) _ _ |- _ => inversion H; subst; clear H end.
    match goal with H : sem _ (Chr _) _ _ |- _ => inversion H; subst; clear H end.
    match goal with H : sem _ _ _ _ |- _ => apply sem_suffix, suffixOf_length in H end.
    simpl in *. match goal with E : rest x = _ |- _ => rewrite E end. simpl. lia.
Qed.

Lemma phasePattern_progresses fl digits p : progresses fl (phasePattern digits p).
Proof.
  intros x y H. rewrite phasePattern_unfold in H.
  inversion H; subst; clear H.
  match goal with H : sem _ (Group 1 _) _ _ |- _ => apply keyword_progress in H end.
  match goal with H : sem _ (Seq _ _) _ _ |- _ => apply sem_suffix, suffixOf_length in H end.
  lia.
Qed.

(** The bound of [execAll] is enough for the attack patterns. *)
Lemma execAll_fuel digits p t n :
  length t < n ->
  execLoop n attackFlags (phasePattern digits p) None t
  = execAll attackFlags (phasePattern digits p) t.
Proof.
  intros H. unfold execAll. apply execLoop_fuel; [apply phasePattern_progresses | lia..].
Qed.

(** *** Sign normalisation *)

Lemma replaceFirst_absent x y s : ~ In x s -> replaceFirst x y s = s.
Proof.
  induction s as [|a s IH]; simpl; [reflexivity|]. intros H.
  destruct (a =? x)%N eqn:E.
  - apply N.eqb_eq in E. exfalso. apply H. now left.
  - rewrite IH; [reflexivity|]. intro. apply H. now right.
Qed.

Lemma digits_no_minus ds :
  Forall (fun d => isDigit d = true) ds -> ~ In TYPOGRAPHIC_MINUS ds.
Proof.
  induction 1 as [|d ds Hd _ IH]; simpl; [tauto|].
  intros [->|H]; [|contradiction]. now apply (isDigit_not_minus Hd).
Qed.

Lemma normalizePlus_bonus a ds :
  isSign a -> Forall (fun d => isDigit d = true) ds ->
  normalizePlus (Some (a :: ds))
  = (if (a =? TYPOGRAPHIC_MINUS)%N then ch "-" else a) :: ds.
Proof.
  intros Ha Hds. unfold normalizePlus. simpl.
  destruct (a =? TYPOGRAPHIC_MINUS)%N; [reflexivity|].
  now rewrite replaceFirst_absent by now apply digits_no_minus.
Qed.

Lemma asciiSigned_no_minus b : asciiSigned b -> ~ In TYPOGRAPHIC_MINUS b.
Proof.
  intros (sgn & ds & -> & Hs & Hds & _) [H|H].
  - destruct Hs as [-> | ->]; discriminate.
  - now apply (digits_no_minus Hds).
Qed.

Lemma entryOf_bonus g mn mx p q s m :
  1 <= mn -> boundsOk mn mx ->
  matchAt attackFlags (phasePattern (Quant g mn mx digit) p) q s = Some m ->
  exists b, attack (entryOf p m) = Some b /\ asciiSigned b
    /\ match mx with Some k => length b <= S k | None => True end.
Proof.
  intros Hmn Hb H. apply matchAt_sem in H. destruct H as (y & Hsem & ->).
  apply bonus_shape in Hsem; [|exact Hb]. destruct Hsem as (a & ds & Hcap & Ha & Hds & Hmin & Hmax).
  unfold entryOf, grp. simpl. rewrite Hcap, normalizePlus_bonus by assumption.
  eexists. split; [reflexivity|]. split.
  - eexists _, ds. split; [reflexivity|]. split; [|split; [exact Hds | lia]].
    destruct Ha as [->|[->| ->]]; simpl; auto.
  - destruct mx; [simpl; lia | exact I].
Qed.

Lemma scanPhase_bonus p t :
  Forall (fun e => exists b, attack e = Some b /\ asciiSigned b /\ length b <= 3)
         (snd (scanPhase twoDigits p t)).
Proof.
  unfold scanPhase, execAll. cbn [snd]. apply Forall_map.
  apply execLoop_Forall. intros q s m H.
  unfold twoDigits, range in H. apply entryOf_bonus in H; [|lia|simpl; lia].
  destruct H as (b & Hb & Hs & Hl). exists b. auto.
Qed.

Lemma attackCandidates_split t :
  attackCandidates t
  = if isEmpty (snd (scanPhase twoDigits Detailed t))
    then ([Detailed; Relaxed], snd (scanPhase twoDigits Relaxed t))
    else ([Detailed], snd (scanPhase twoDigits Detailed t)).
Proof.
  unfold attackCandidates, bind, ret. simpl.
  destruct (map _ _) eqn:E; simpl; reflexivity.
Qed.

Lemma attackCandidates_bonus t :
  Forall (fun e => exists b, attack e = Some b /\ asciiSigned b /\ length b <= 3)
         (snd (attackCandidates t)).
Proof.
  rewrite attackCandidates_split.
  destruct (isEmpty _); simpl; apply scanPhase_bonus.
Qed.

(** *** The bounds of [matchAll] and [split] *)

Lemma matchAt_after fl r p s m :
  matchAt fl r p s = Some m ->
  suffixOf (rest (after m)) s /\ whole m = consumed s (rest (after m)).
Proof.
  intros H. apply matchAt_sem in H. destruct H as (y & Hy & ->). simpl.
  split; [|reflexivity]. now apply sem_suffix in Hy.
Qed.

Lemma consumed_nil_length s e : suffixOf e s -> consumed s e <> [] -> length e < length s.
Proof.
  intros [p ->] H. rewrite consumed_app in H. rewrite length_app.
  destruct p; [contradiction | simpl; lia].
Qed.

Lemma searchFrom_whole fl r s p m :
  searchFrom fl r p s = Some m ->
  suffixOf (rest (after m)) s /\ (whole m <> [] -> length (rest (after m)) < length s).
Proof.
  intros H. apply searchFrom_matchAt in H. destruct H as (p' & s' & Hs & Hm).
  apply matchAt_after in Hm. destruct Hm as [Hsuf Hw]. split.
  - eapply suffixOf_trans; eassumption.
  - intros Hne. rewrite Hw in Hne. apply consumed_nil_length in Hne; [|exact Hsuf].
    apply suffixOf_length in Hs. lia.
Qed.

(** The scan of [match] with the [g] flag ends within its bound, whatever
    the pattern. *)
Lemma matchLoop_fuel fl r : forall fuel1 fuel2 p s,
  length s < fuel1 -> length s < fuel2 ->
  matchLoop fuel1 fl r p s = matchLoop fuel2 fl r p s.
Proof.
  induction fuel1 as [|fuel1 IH]; intros fuel2 p s H1 H2; [lia|].
  destruct fuel2 as [|fuel2]; [lia|]. simpl.
  destruct (searchFrom fl r p s) as [m|] eqn:E; [|reflexivity].
  apply searchFrom_whole in E. destruct E as [Hsuf Hlen].
  pose proof (suffixOf_length Hsuf) as Hle. f_equal.
  destruct (whole m) as [|c w].
  - destruct (rest (after m)) as [|a s'] eqn:Er; [reflexivity|].
    simpl in Hle. apply IH; lia.
  - assert (length (rest (after m)) < length s) by (apply Hlen; discriminate).
    apply IH; lia.
Qed.

(** So does the scan of [split]. *)
Lemma splitLoop_fuel fl r : forall fuel1 fuel2 p tok s,
  2 * length s + (if isEmpty tok then 0 else 1) < fuel1 ->
  2 * length s + (if isEmpty tok then 0 else 1) < fuel2 ->
  splitLoop fuel1 fl r p tok s = splitLoop fuel2 fl r p tok s.
Proof.
  induction fuel1 as [|fuel1 IH]; intros fuel2 p tok s H1 H2; [lia|].
  destruct fuel2 as [|fuel2]; [lia|]. simpl.
  destruct s as [|a s']; [reflexivity|].
  assert (Hstep : splitLoop fuel1 fl r (Some a) (a :: tok) s'
                  = splitLoop fuel2 fl r (Some a) (a :: tok) s').
  { apply IH; simpl in *; lia. }
  destruct (matchAt fl r p (a :: s')) as [m|] eqn:E; [|exact Hstep].
  apply matchAt_after in E. destruct E as [Hsuf _].
  pose proof (suffixOf_length Hsuf) as Hle.
  destruct (isEmpty tok && Nat.eqb (length (rest (after m))) (length (a :: s'))) eqn:Ec;
    [exact Hstep|].
  f_equal. apply andb_false_iff in Ec. simpl isEmpty. simpl in *.
  destruct Ec as [Ec|Ec].
  - rewrite Ec in H1, H2. apply IH; simpl; lia.
  - apply Nat.eqb_neq in Ec. simpl in Ec.
    destruct (isEmpty tok); apply IH; simpl; lia.
Qed.

Lemma matchAll_fuel fl r s n :
  length s < n -> matchLoop n fl r None s = matchAll fl r s.
Proof. intros H. unfold matchAll. apply matchLoop_fuel; lia. Qed.

Lemma split_fuel fl r a s n :
  2 * length (a :: s) < n ->
  splitLoop n fl r None [] (a :: s) = split fl r (a :: s).
Proof.
  intros H. unfold split. apply splitLoop_fuel; simpl isEmpty; cbv iota; lia.
Qed.

(** * The two attack scans compared *)

Lemma orElse_Some_nil s : orElse (Some s) [] = s.
Proof. now destruct s. Qed.

Lemma matcher_Quant_rep fl g mn mx r x c :
  matcher fl (Quant g mn mx r) x c
  = repeatMatcher (matcher fl r) (groupsOf r) g (S (mn + length (rest x))) mn mx x c.
Proof. reflexivity. Qed.

(** RepeatMatcher without the bound: the recursion of ECMA-262. *)
Lemma matcher_Quant fl g mn mx r x c :
  matcher fl (Quant g mn mx r) x c
  = match mx with
    | Some O => c x
    | _ =>
        let d : cont := fun y =>
          if Nat.eqb mn 0 && Nat.eqb (length (rest y)) (length (rest x))
          then None
          else matcher fl (Quant g (pred mn) (option_map pred mx) r) y c in
        let xr := clearCaps (groupsOf r) x in
        if negb (Nat.eqb mn 0) then matcher fl r xr d
        else if g then
          match matcher fl r xr d with Some z => Some z | None => c x end
        else
          match c x with Some z => Some z | None => matcher fl r xr d end
    end.
Proof.
  rewrite matcher_Quant_rep. cbn [repeatMatcher].
  assert (Hd : matcher fl r (clearCaps (groupsOf r) x)
                 (fun y => if Nat.eqb mn 0 && Nat.eqb (length (rest y)) (length (rest x))
                           then None
                           else repeatMatcher (matcher fl r) (groupsOf r) g
                                  (mn + length (rest x)) (pred mn) (option_map pred mx) y c)
             = matcher fl r (clearCaps (groupsOf r) x)
                 (fun y => if Nat.eqb mn 0 && Nat.eqb (length (rest y)) (length (rest x))
                           then None
                           else matcher fl (Quant g (pred mn) (option_map pred mx) r) y c)).
  { apply matcher_ext. intros y Hy. cbn [rest clearCaps] in Hy.
    apply suffixOf_length in Hy. rewrite matcher_Quant_rep.
    destruct (Nat.eqb mn 0) eqn:E0; cbn [andb].
    - destruct (Nat.eqb (length (rest y)) (length (rest x))) eqn:E1; [reflexivity|].
      apply Nat.eqb_eq in E0. apply Nat.eqb_neq in E1.
      apply repeat_fuel; [apply matcher_ext | lia..].
    - apply Nat.eqb_neq in E0. apply repeat_fuel; [apply matcher_ext | lia..]. }
  cbv zeta. destruct mx as [[|k]|]; try reflexivity; rewrite Hd; reflexivity.
Qed.

Lemma matcher_digit fl x c :
  matcher fl digit x c
  = match rest x with
    | a :: s => if isDigit a then c (step x a s) else None
    | [] => None
    end.
Proof.
  unfold digit. simpl. destruct (rest x) as [|a s]; [reflexivity|].
  unfold classMatches. simpl. now rewrite orb_false_r.
Qed.

Lemma matcher_Seq fl r1 r2 x c :
  matcher fl (Seq r1 r2) x c = matcher fl r1 x (fun y => matcher fl r2 y c).
Proof. reflexivity. Qed.

Lemma searchFrom_after fl r s q m :
  searchFrom fl r q s = Some m -> suffixOf (rest (after m)) s.
Proof.
  intros H. apply searchFrom_matchAt in H. destruct H as (q' & s' & Hs & Hm).
  apply matchAt_sem in Hm. destruct Hm as (y & Hy & ->). simpl.
  apply sem_suffix in Hy. simpl in Hy. eapply suffixOf_trans; eassumption.
Qed.

(** *** One continuation following another

    The matcher asks its continuation for a result and looks at nothing
    but whether there is one: when a continuation follows another, so
    does the matcher with it. *)

Lemma follows_orElse (P : mstate -> Prop) (a1 a2 b1 b2 : option mstate) :
  (a2 = None -> a1 = None) /\ (forall z, a2 = Some z -> P z -> a1 = Some z) ->
  (b2 = None -> b1 = None) /\ (forall z, b2 = Some z -> P z -> b1 = Some z) ->
  (match a2 with Some z => Some z | None => b2 end = None ->
   match a1 with Some z => Some z | None => b1 end = None)
  /\ (forall z, match a2 with Some z => Some z | None => b2 end = Some z -> P z ->
                match a1 with Some z => Some z | None => b1 end = Some z).
Proof.
  intros [Ha1 Ha2] [Hb1 Hb2]. destruct a2 as [z2|].
  - split; [discriminate|]. intros z [= <-] Hz. now rewrite (Ha2 _ eq_refl Hz).
  - rewrite (Ha1 eq_refl). split; assumption.
Qed.

Lemma follows_fail (P : mstate -> Prop) :
  (@None mstate = None -> @None mstate = None)
  /\ (forall z, @None mstate = Some z -> P z -> @None mstate = Some z).
Proof. split; [reflexivity | discriminate]. Qed.

Lemma repeatMatcher_follows (P : mstate -> Prop) m gs g :
  (forall c1 c2, follows P c1 c2 -> follows P (fun x => m x c1) (fun x => m x c2)) ->
  forall fuel mn mx c1 c2,
    follows P c1 c2 ->
    follows P (fun x => repeatMatcher m gs g fuel mn mx x c1)
              (fun x => repeatMatcher m gs g fuel mn mx x c2).
Proof.
  intros Hm fuel. induction fuel as [|fuel IH]; intros mn mx c1 c2 Hc x; simpl.
  - apply follows_fail.
  - assert (Hd : follows P
             (fun y => if Nat.eqb mn 0 && Nat.eqb (length (rest y)) (length (rest x))
                       then None
                       else repeatMatcher m gs g fuel (pred mn) (option_map pred mx) y c1)
             (fun y => if Nat.eqb mn 0 && Nat.eqb (length (rest y)) (length (rest x))
                       then None
                       else repeatMatcher m gs g fuel (pred mn) (option_map pred mx) y c2)).
    { intros y. destruct (Nat.eqb mn 0 && Nat.eqb (length (rest y)) (length (rest x)));
        [apply follows_fail | apply (IH _ _ _ _ Hc y)]. }
    pose proof (Hm _ _ Hd (clearCaps gs x)) as Hstep. cbv beta in Hstep.
    pose proof (Hc x) as Hx.
    destruct mx as [[|k]|]; try exact Hx;
      destruct (Nat.eqb mn 0); cbn [negb]; try exact Hstep;
      destruct g; try (apply follows_orElse; assumption).
Qed.

Lemma matcher_follows (P : mstate -> Prop) fl r :
  forall c1 c2,
    follows P c1 c2 ->
    follows P (fun x => matcher fl r x c1) (fun x => matcher fl r x c2).
Proof.
  induction r; intros c1 c2 Hc x;
    [ simpl; try (destruct (rest x) as [|a s] eqn:E; [apply follows_fail|]) .. | ].
  - apply Hc.
  - destruct (_ =? _)%N; [apply Hc | apply follows_fail].
  - destruct (isLineTerminator a); [apply follows_fail | apply Hc].
  - destruct (classMatches _ _ _ _); [apply Hc | apply follows_fail].
  - destruct (atLineStart fl x); [apply Hc | apply follows_fail].
  - destruct (atLineEnd fl x); [apply Hc | apply follows_fail].
  - destruct (atWordBoundary x); [apply Hc | apply follows_fail].
  - apply (IHr1 _ _ (IHr2 _ _ Hc) x).
  - apply follows_orElse; [apply (IHr1 _ _ Hc x) | apply (IHr2 _ _ Hc x)].
  - refine (IHr _ _ _ x). intros y. apply Hc.
  - cbv beta. rewrite !matcher_Quant_rep.
    apply (@repeatMatcher_follows P (matcher fl r) (groupsOf r) greedy IHr
             (S (min + length (rest x))) min max c1 c2 Hc x).
Qed.

Lemma seq_follows (P : mstate -> Prop) fl r r1 r2 k :
  follows P (fun y => matcher fl r1 y k) (fun y => matcher fl r2 y k) ->
  follows P (fun x => matcher fl (Seq r r1) x k) (fun x => matcher fl (Seq r r2) x k).
Proof.
  intros H x. cbv beta. rewrite !matcher_Seq. apply (@matcher_follows P fl r _ _ H x).
Qed.

(** *** "\d{1,2}" against "\d+"

    After a greedy run of digits the continuation is tried at the end of
    the run first and then one digit earlier each time; "\d{1,2}" tries
    the last two of these positions only. *)

Lemma digitStar_fails fl x k :
  matcher fl (Quant true 0 None digit) x k = None -> k x = None.
Proof.
  rewrite matcher_Quant. cbv zeta. cbn [Nat.eqb negb].
  destruct (matcher fl digit _ _); [discriminate | auto].
Qed.

Lemma digitStar_result fl x k z :
  matcher fl (Quant true 0 None digit) x k = Some z ->
  k x = Some z \/ exists y, k y = Some z /\ length (rest y) < length (rest x).
Proof.
  intros H. apply matcher_sound in H. destruct H as (y & Hsem & Hk).
  inversion Hsem; subst.
  - now left.
  - right. exists y. split; [exact Hk|].
    match goal with H : sem _ digit _ _ |- _ => inversion H; subst; clear H end.
    match goal with H : sem _ (Quant _ _ _ _) _ _ |- _ =>
      apply sem_suffix, suffixOf_length in H end.
    simpl in *. match goal with E : rest x = _ |- _ => rewrite E end. simpl. lia.
Qed.

Lemma digits_follow (P : mstate -> Prop) fl x k :
  (forall y z, k y = Some z -> P z -> length (rest x) <= length (rest y) + 2) ->
  (matcher fl manyDigits x k = None -> matcher fl twoDigits x k = None)
  /\ (forall z, matcher fl manyDigits x k = Some z -> P z ->
                matcher fl twoDigits x k = Some z).
Proof.
  intros Hshort. unfold twoDigits, manyDigits, range, plus.
  rewrite !(matcher_Quant fl true 1). cbn [Nat.eqb negb option_map pred groupsOf digit].
  rewrite !matcher_digit. cbn [rest clearCaps].
  destruct (rest x) as [|a s1] eqn:Ex; [apply follows_fail|].
  destruct (isDigit a) eqn:Ea; [|apply follows_fail].
  cbn [andb].
  rewrite !(matcher_Quant fl true 0). cbn [Nat.eqb negb option_map pred groupsOf digit andb].
  rewrite !matcher_digit. cbn [rest clearCaps step fold_right caps prev].
  destruct s1 as [|b s2]; [split; auto|].
  destruct (isDigit b) eqn:Eb; [|split; auto].
  replace (Nat.eqb (length s2) (length (b :: s2))) with false
    by (symmetry; apply Nat.eqb_neq; simpl; lia).
  rewrite (matcher_Quant fl true 0 (Some 0)).
  match goal with |- context [matcher fl (Quant true 0 None ?r) ?x2 k] =>
    pose proof (@digitStar_fails fl x2 k) as Hnone;
    pose proof (@digitStar_result fl x2 k) as Hsome;
    destruct (matcher fl (Quant true 0 None r) x2 k) as [z2|] eqn:E2 end.
  - split; [discriminate|]. intros z [= <-] Hz.
    destruct (Hsome _ eq_refl) as [Hk|(y & Hk & Hlt)].
    + now rewrite Hk.
    + exfalso. specialize (Hshort _ _ Hk Hz). simpl in Hlt, Hshort. lia.
  - rewrite (Hnone eq_refl). split; auto.
Qed.

Lemma bonusGroup_follows fl x k :
  (forall y z, k y = Some z -> lookupCap 3 (caps z) = lookupCap 3 (caps y)) ->
  (matcher fl (Group 3 (Seq signClass manyDigits)) x k = None ->
   matcher fl (Group 3 (Seq signClass twoDigits)) x k = None)
  /\ (forall z, matcher fl (Group 3 (Seq signClass manyDigits)) x k = Some z ->
                shortCapture z ->
                matcher fl (Group 3 (Seq signClass twoDigits)) x k = Some z).
Proof.
  intros Hk. cbn [matcher signClass].
  destruct (rest x) as [|a s] eqn:Ex; [apply follows_fail|].
  destruct (classMatches _ _ _ a); [|apply follows_fail].
  apply digits_follow. intros y z Hy Hz. cbv beta in Hy.
  apply Hk in Hy. rewrite lookupCap_setCap_same in Hy.
  unfold shortCapture in Hz. rewrite Hy, orElse_Some_nil in Hz.
  unfold consumed in Hz. rewrite length_firstn in Hz.
  cbn [rest step length] in Hz |- *. lia.
Qed.

Lemma damageTail_keeps_bonus fl y z :
  matcher fl (seqs damageTail) y (fun y' => Some y') = Some z ->
  lookupCap 3 (caps z) = lookupCap 3 (caps y).
Proof.
  intros H. apply matcher_sound in H. destruct H as (y' & Hsem & [= <-]).
  apply (sem_frame 3 Hsem). simpl. intros [E|[]]. discriminate.
Qed.

Lemma phasePattern_follows fl p :
  follows shortCapture
    (fun x => matcher fl (phasePattern twoDigits p) x (fun y => Some y))
    (fun x => matcher fl (phasePattern manyDigits p) x (fun y => Some y)).
Proof.
  rewrite !phasePattern_unfold.
  do 4 apply seq_follows.
  intros x. cbv beta. destruct p.
  - rewrite !(matcher_Seq fl (Group 3 _)).
    apply bonusGroup_follows. intros y z. apply damageTail_keeps_bonus.
  - apply bonusGroup_follows. now intros y z [= <-].
Qed.

Lemma matchAt_follows fl p q s :
  (matchAt fl (phasePattern manyDigits p) q s = None ->
   matchAt fl (phasePattern twoDigits p) q s = None)
  /\ (forall m, matchAt fl (phasePattern manyDigits p) q s = Some m ->
                length (orElse (grp 3 m) []) <= 3 ->
                matchAt fl (phasePattern twoDigits p) q s = Some m).
Proof.
  unfold matchAt. destruct (phasePattern_follows fl p (MState q s [])) as [H1 H2].
  cbv beta in H1, H2.
  destruct (matcher fl (phasePattern manyDigits p) _ _) as [y|].
  - split; [discriminate|]. intros m [= <-] Hm.
    now rewrite (H2 _ eq_refl Hm).
  - now rewrite (H1 eq_refl).
Qed.

Lemma searchFrom_follows fl p : forall s q,
  (searchFrom fl (phasePattern manyDigits p) q s = None ->
   searchFrom fl (phasePattern twoDigits p) q s = None)
  /\ (forall m, searchFrom fl (phasePattern manyDigits p) q s = Some m ->
                length (orElse (grp 3 m) []) <= 3 ->
                searchFrom fl (phasePattern twoDigits p) q s = Some m).
Proof.
  induction s as [|a s IH]; intros q; simpl.
  - destruct (matchAt_follows fl p q []) as [H1 H2].
    destruct (matchAt fl (phasePattern manyDigits p) q []) as [m0|].
    + split; [discriminate|]. intros m [= <-] Hm. now rewrite (H2 _ eq_refl Hm).
    + now rewrite (H1 eq_refl).
  - destruct (matchAt_follows fl p q (a :: s)) as [H1 H2].
    destruct (matchAt fl (phasePattern manyDigits p) q (a :: s)) as [m0|].
    + split; [discriminate|]. intros m [= <-] Hm. now rewrite (H2 _ eq_refl Hm).
    + rewrite (H1 eq_refl). apply IH.
Qed.

(** As long as each bonus that "\d+" finds is a sign and at most two
    digits, the loop with "\d{1,2}" finds the same matches. *)
Lemma execLoop_follows fl p : forall fuel q s,
  Forall (fun m => length (orElse (grp 3 m) []) <= 3)
         (execLoop fuel fl (phasePattern manyDigits p) q s) ->
  execLoop fuel fl (phasePattern twoDigits p) q s
  = execLoop fuel fl (phasePattern manyDigits p) q s.
Proof.
  induction fuel as [|fuel IH]; intros q s H; simpl in H |- *; [reflexivity|].
  destruct (searchFrom_follows fl p s q) as [H1 H2].
  destruct (searchFrom fl (phasePattern manyDigits p) q s) as [m|].
  - inversion H; subst. rewrite (H2 _ eq_refl) by assumption.
    f_equal. now apply IH.
  - now rewrite (H1 eq_refl).
Qed.

Lemma filter_isDigit_digits ds :
  Forall (fun d => isDigit d = true) ds -> filter isDigit ds = ds.
Proof.
  induction 1 as [|d ds Hd _ IH]; simpl; [reflexivity|]. now rewrite Hd, IH.
Qed.

Lemma asciiSigned_digits b :
  asciiSigned b -> length b = S (length (filter isDigit b)).
Proof.
  intros (sgn & ds & -> & Hs & Hds & _). simpl.
  rewrite (filter_isDigit_digits Hds).
  destruct Hs as [-> | ->]; reflexivity.
Qed.

(** The bonus of an entry has as many units as the capture it was read
    from; all but the sign are digits. *)
Lemma entryOf_digits g mn mx p q s m :
  1 <= mn -> boundsOk mn mx ->
  matchAt attackFlags (phasePattern (Quant g mn mx digit) p) q s = Some m ->
  length (orElse (grp 3 m) []) = S (bonusDigits (entryOf p m)).
Proof.
  intros Hmn Hb H. apply matchAt_sem in H. destruct H as (y & Hsem & ->).
  apply bonus_shape in Hsem; [|exact Hb].
  destruct Hsem as (a & ds & Hcap & Ha & Hds & _ & _).
  unfold bonusDigits, entryOf, grp. cbn [groups attack].
  rewrite Hcap, normalizePlus_bonus by assumption. rewrite !orElse_Some_nil.
  cbn [length filter].
  rewrite (filter_isDigit_digits Hds).
  destruct Ha as [->|[->| ->]]; reflexivity.
Qed.

Lemma execAll_follows p t :
  Forall (fun e => bonusDigits e <= 2)
         (map (entryOf p) (execAll attackFlags (phasePattern manyDigits p) t)) ->
  execAll attackFlags (phasePattern twoDigits p) t
  = execAll attackFlags (phasePattern manyDigits p) t.
Proof.
  intros H. unfold execAll in *. apply execLoop_follows.
  pose proof (@execLoop_Forall attackFlags (phasePattern manyDigits p)
                (fun m => length (orElse (grp 3 m) []) = S (bonusDigits (entryOf p m)))) as Hall.
  specialize (Hall (fun q s m Hm =>
    @entryOf_digits true 1 None p q s m (le_n 1) I Hm) (S (length t)) None t).
  rewrite Forall_map in H. rewrite Forall_forall in *.
  intros m Hin. rewrite (Hall _ Hin). specialize (H _ Hin). simpl in H. lia.
Qed.

Lemma scanPhase_follows p t :
  Forall (fun e => bonusDigits e <= 2) (snd (Earlier.scanBlocks p [t])) ->
  scanPhase twoDigits p t = Earlier.scanBlocks p [t].
Proof.
  unfold scanPhase, Earlier.scanBlocks. cbn [snd flat_map]. rewrite app_nil_r.
  intros H. now rewrite execAll_follows.
Qed.

Lemma earlier_attackCandidates_split blocks :
  Earlier.attackCandidates blocks
  = if isEmpty (snd (Earlier.scanBlocks Detailed blocks))
    then ([Detailed; Relaxed], snd (Earlier.scanBlocks Relaxed blocks))
    else ([Detailed], snd (Earlier.scanBlocks Detailed blocks)).
Proof.
  unfold Earlier.attackCandidates, bind, ret. simpl.
  destruct (flat_map _ _) eqn:E; simpl; reflexivity.
Qed.

Lemma attackCandidates_follows t :
  Forall (fun e => bonusDigits e <= 2) (snd (Earlier.attackCandidates [t])) ->
  attackCandidates t = Earlier.attackCandidates [t].
Proof.
  rewrite attackCandidates_split, earlier_attackCandidates_split.
  destruct (isEmpty (snd (Earlier.scanBlocks Detailed [t]))) eqn:E; cbn [snd]; intros H.
  - assert (Hd : scanPhase twoDigits Detailed t = Earlier.scanBlocks Detailed [t]).
    { apply scanPhase_follows.
      destruct (snd (Earlier.scanBlocks Detailed [t])); [constructor | discriminate]. }
    rewrite Hd, E. now rewrite scanPhase_follows.
  - now rewrite scanPhase_follows, E.
Qed.

(** What the later scan returns never has more than two digits in a
    bonus. *)
Lemma extractAttacksFromText_digits {ops : StringOps} t :
  Forall (fun e => bonusDigits e <= 2) (extractAttacksFromText t).
Proof.
  apply Forall_forall. intros e He. unfold extractAttacksFromText in He.
  apply coalesceAttacks_subset in He.
  pose proof (attackCandidates_bonus t) as H. rewrite Forall_forall in H.
  destruct (H _ He) as (b & Hb & Hs & Hl).
  unfold bonusDigits. rewrite Hb, orElse_Some_nil.
  apply asciiSigned_digits in Hs. lia.
Qed.

(** * The importer: what holds of every run *)

Lemma parseText_attacks {ops : StringOps} t :
  Parsed.attacks (parseText t) = Some (extractAttacksFromText t).
Proof. reflexivity. Qed.

Lemma parseHtml_attacks {ops : StringOps} {dom : Dom} html :
  exists t, Parsed.attacks (parseHtml html) = Some (extractAttacksFromText t).
Proof. eexists. reflexivity. Qed.

Lemma finish_attacks out rec :
  finish out = inr rec ->
  Stat.attacks rec = match Parsed.attacks out with Some a => a | None => [] end.
Proof.
  unfold finish. destruct (parseFailed out); [discriminate|]. now intros [= <-].
Qed.

(** Every record that [importFromLink] returns carries the attacks that
    [extractAttacksFromText] found in some text. *)
Lemma importFromLink_attacks {net : Net} {ops : StringOps} {dom : Dom} url log rec log' :
  importFromLink url log = (inr rec, log') ->
  exists t, Stat.attacks rec = extractAttacksFromText t.
Proof.
  unfold importFromLink, ioBind.
  destruct (fetchAoN url log) as [[e|[k body]] log1]; [discriminate|].
  destruct (finish _) as [e|r] eqn:E; [discriminate|].
  unfold ioRet. intros [= <- <-]. apply finish_attacks in E. rewrite E.
  destruct k.
  - destruct (parseHtml_attacks body) as (t & ->). now exists t.
  - rewrite parseText_attacks. now exists body.
Qed.

(** The check of [importFromLink] fires only on a record without a name
    whose level and hit points are both numbers that are not finite. *)
Lemma parseFailed_spec out :
  parseFailed out = true <->
  truthy (Parsed.name out) = false
  /\ (exists n, Parsed.level out = Some n /\ forall z, n <> Fin z)
  /\ (exists n, Parsed.hp out = Some n /\ forall z, n <> Fin z).
Proof.
  unfold parseFailed, globalIsFinite.
  rewrite !andb_true_iff, !negb_true_iff. split.
  - intros [[Hn Hl] Hh]. split; [exact Hn|]. split.
    + destruct (Parsed.level out) as [[]|]; try discriminate; eexists; split; eauto; discriminate.
    + destruct (Parsed.hp out) as [[]|]; try discriminate; eexists; split; eauto; discriminate.
  - intros (Hn & (n & -> & Hl) & (n' & -> & Hh)). repeat split; auto.
    + destruct n; auto. exfalso. now apply (Hl z).
    + destruct n'; auto. exfalso. now apply (Hh z).
Qed.

(** ** C1 *)

(** No record whose level is absent is ever rejected, whatever else it
    holds; the same goes for absent hit points. *)
Lemma absent_level_is_accepted n t a h s k :
  finish (Parsed.mk n None t a h s k) = inr (normalize (Parsed.mk n None t a h s k)).
Proof.
  unfold finish, parseFailed. simpl. now rewrite andb_false_r.
Qed.

Lemma absent_hp_is_accepted n l t a s k :
  finish (Parsed.mk n l t a None s k) = inr (normalize (Parsed.mk n l t a None s k)).
Proof.
  unfold finish, parseFailed. simpl. now rewrite andb_false_r.
Qed.

(** The other direction of C1 holds of the code: a record with a name is
    never rejected, nor one with a finite level or finite hit points. *)
Lemma extracted_field_is_accepted out :
  truthy (Parsed.name out) = true
  \/ numberIsFinite (Parsed.level out) = true
  \/ numberIsFinite (Parsed.hp out) = true ->
  finish out = inr (normalize out).
Proof.
  unfold finish, parseFailed, numberIsFinite, globalIsFinite.
  intros [H|[H|H]].
  - now rewrite H.
  - destruct (Parsed.level out) as [[]|]; try discriminate. simpl. now rewrite andb_false_r.
  - destruct (Parsed.hp out) as [[]|]; try discriminate. simpl. now rewrite andb_false_r.
Qed.

(** C1 (the code departs from the claim).  A page that yields no name, no
    level and no hit points is not rejected: the text parser returns the
    record with every field absent, the check
    [!isFinite(out.level)] is false on an absent level because the global
    [isFinite] takes [null] for 0, and [importFromLink] returns the
    defaulted record instead of failing with "Parse failed".  The same
    goes for every record without name, level and hit points. *)
Theorem C1_unrecognizable_page_is_accepted :
  parseText (ops := asciiOps) (str "Nothing to see here")
  = Parsed.mk None None (Some []) None None None (Some [])
  /\ fst (importFromLink (net := mirrorOnlyNet (str "Nothing to see here"))
            (ops := asciiOps) (dom := flatDom) sampleUrl [])
     = inr (Stat.mk UNKNOWN None [] None None None [])
  /\ forall traits ac speed attacks,
       finish (Parsed.mk None None traits ac None speed attacks)
       = inr (Stat.mk UNKNOWN None
                (match traits with Some a => a | None => [] end)
                (if numberIsFinite ac then ac else None)
                None
                (if truthy speed then speed else None)
                (match attacks with Some a => a | None => [] end)).
Proof.
  split; [vm_compute; reflexivity|]. split; [vm_compute; reflexivity|].
  intros traits ac speed attacks. now rewrite absent_level_is_accepted.
Qed.

(** ** C2 *)

(** C2 (as stated, refuted).  Two candidates of one name with the bonuses
    "-5" and "+3": stripped of its sign the first bonus is the larger, 5
    against 3, yet the merge keeps the second. *)
Lemma C2_counterexample :
  keyOf (ops := asciiOps) (claw (str "-5")) = keyOf (ops := asciiOps) (claw (str "+3"))
  /\ gt (specStrippedBonus (claw (str "-5"))) (specStrippedBonus (claw (str "+3"))) = true
  /\ coalesceAttacks (ops := asciiOps) [claw (str "-5"); claw (str "+3")] = [claw (str "+3")]
  /\ map attack
       (extractAttacksFromText (ops := asciiOps)
          (lines [str "Melee claw -5 (1d4)"; str "Melee claw +3 (1d4)"]))
     = [Some (str "+3")].
Proof. repeat split; vm_compute; reflexivity. Qed.

Lemma coalesceAttacks_covers {ops : StringOps} l e' :
  In e' l -> exists e, In e (coalesceAttacks l) /\ keyOf e = keyOf e'.
Proof.
  intros H. pose proof (mergeInv_mergeMap l) as Inv.
  destruct (mapGet (keyOf e') (mergeMap l)) as [e|] eqn:E.
  - exists e. split; [|now apply (inv_keys Inv)].
    unfold coalesceAttacks, mapValues. fold (mergeMap l).
    apply mapGet_In in E. change e with (snd (keyOf e', e)). now apply in_map.
  - exfalso. now apply (inv_seen Inv _ H).
Qed.

(** C2 (amended).  The merge compares the bonuses as signed integers:
    only a plus sign is removed before parsing, a minus sign counts.  For
    every candidate list, each entry kept stands in the list, no earlier
    candidate of its name has a bonus as large, and no later one has a
    larger bonus; so the kept entry is the first of those with the largest
    signed bonus.  Every name of the list has its entry.  Of "+18" and
    "+12" under one name the "+18" entry is kept, and "-5" counts as -5. *)
Theorem C2_merge_keeps_largest_signed_bonus {ops : StringOps} (l : list AttackEntry) :
  Forall (fun e =>
            exists l1 l2, l = l1 ++ e :: l2
              /\ (forall e', In e' l1 -> keyOf e' = keyOf e ->
                             ge (bonusOf e') (bonusOf e) = false)
              /\ (forall e', In e' l2 -> keyOf e' = keyOf e ->
                             gt (bonusOf e') (bonusOf e) = false))
         (coalesceAttacks l)
  /\ (forall e', In e' l -> exists e, In e (coalesceAttacks l) /\ keyOf e = keyOf e')
  /\ coalesceAttacks [claw (str "+18"); claw (str "+12")] = [claw (str "+18")]
  /\ bonusOf (claw (str "-5")) = Fin (-5)
  /\ bonusOf (claw (str "+18")) = Fin 18.
Proof.
  split; [|split; [|split; [|split]]].
  - apply Forall_forall. intros e He. apply coalesceAttacks_In in He.
    exact (inv_best (mergeInv_mergeMap l) _ He).
  - intros e'. apply coalesceAttacks_covers.
  - unfold coalesceAttacks. simpl. unfold coalesceStep at 2. simpl.
    unfold coalesceStep. simpl. rewrite jsstring_eqb_refl. reflexivity.
  - vm_compute. reflexivity.
  - vm_compute. reflexivity.
Qed.

(** ** C3 *)

Lemma splitTraits_nonempty s : Forall (fun x => x <> []) (splitTraits s).
Proof.
  unfold splitTraits. apply Forall_forall. intros x Hx.
  apply filter_In in Hx. destruct Hx as [_ Hx]. now destruct x.
Qed.

Lemma dedupFrom_spec a : forall seen,
  NoDup (dedupFrom seen a)
  /\ forall x, In x (dedupFrom seen a) -> In x a /\ ~ In x seen.
Proof.
  induction a as [|x a IH]; intros seen; simpl.
  - split; [constructor | tauto].
  - destruct (existsb (jsstring_eqb x) seen) eqn:E.
    + destruct (IH seen) as [Hnd Hin]. split; [exact Hnd|].
      intros y Hy. destruct (Hin y Hy). auto.
    + destruct (IH (x :: seen)) as [Hnd Hin]. split.
      * constructor; [|exact Hnd]. intros Hx. destruct (Hin x Hx) as [_ Hn].
        apply Hn. now left.
      * intros y [<-|Hy].
        -- split; [now left|]. intros Hx.
           assert (existsb (jsstring_eqb x) seen = true); [|congruence].
           apply existsb_exists. exists x. split; [exact Hx | apply jsstring_eqb_refl].
        -- destruct (Hin y Hy) as [H1 H2]. split; [now right|].
           intros H. apply H2. now right.
Qed.

(** The traits read off trait elements are distinct... *)
Lemma dedup_NoDup a : NoDup (dedup a).
Proof. apply (dedupFrom_spec a []). Qed.

(** ...and the traits line of the claim gives its three traits in order. *)
Lemma traits_line_example :
  Parsed.traits (parseText (ops := asciiOps) (str "Traits: Fiend, Evil, Large"))
  = Some [str "Fiend"; str "Evil"; str "Large"].
Proof. vm_compute. reflexivity. Qed.

(** C3 (the code departs from the claim).  Only the traits collected from
    trait elements go through [dedup]; the traits split off a "Traits:"
    line do not.  The line "Traits: Evil, Evil" gives the trait "Evil"
    twice, in the parsed record and in the record [importFromLink]
    returns; no trait is empty. *)
Theorem C3_repeated_trait_is_kept :
  Parsed.traits (parseText (ops := asciiOps) (str "Traits: Evil, Evil"))
  = Some [str "Evil"; str "Evil"]
  /\ fst (importFromLink (net := mirrorOnlyNet (str "Traits: Evil, Evil"))
            (ops := asciiOps) (dom := flatDom) sampleUrl [])
     = inr (Stat.mk UNKNOWN None [str "Evil"; str "Evil"] None None None [])
  /\ forall s, Forall (fun x => x <> []) (splitTraits s).
Proof.
  split; [vm_compute; reflexivity|]. split; [vm_compute; reflexivity|].
  apply splitTraits_nonempty.
Qed.

(** ** C4 *)

(** C4.  In every record that [importFromLink] returns, the attacks have
    pairwise distinct lower-cased names. *)
Theorem C4_attacks_have_distinct_names
    {net : Net} {ops : StringOps} {dom : Dom} url log rec log' :
  importFromLink url log = (inr rec, log') ->
  NoDup (map keyOf (Stat.attacks rec)).
Proof.
  intros H. apply importFromLink_attacks in H. destruct H as (t & ->).
  apply coalesceAttacks_NoDup.
Qed.

Lemma C4_witness :
  importFromLink (net := mirrorOnlyNet barghestPage) (ops := asciiOps) (dom := flatDom)
    sampleUrl []
  = (inr (Stat.mk (str "Barghest") (Some (Fin 4)) [str "Fiend"; str "Evil"; str "Large"]
            (Some (Fin 23)) (Some (Fin 150)) (Some (str "35 feet"))
            [Attack (str "jaws") (Some (str "+14")) (Some (str "2d8+6 piercing"));
             claw (str "+18")]),
     [sampleUrl; mirrorUrl (net := mirrorOnlyNet barghestPage) sampleParsedUrl])
  /\ NoDup (map (keyOf (ops := asciiOps))
              [Attack (str "jaws") (Some (str "+14")) (Some (str "2d8+6 piercing"));
               claw (str "+18")]).
Proof.
  assert (H : importFromLink (net := mirrorOnlyNet barghestPage) (ops := asciiOps)
                (dom := flatDom) sampleUrl []
              = (inr (Stat.mk (str "Barghest") (Some (Fin 4))
                        [str "Fiend"; str "Evil"; str "Large"]
                        (Some (Fin 23)) (Some (Fin 150)) (Some (str "35 feet"))
                        [Attack (str "jaws") (Some (str "+14")) (Some (str "2d8+6 piercing"));
                         claw (str "+18")]),
                 [sampleUrl; mirrorUrl (net := mirrorOnlyNet barghestPage) sampleParsedUrl]))
    by (vm_compute; reflexivity).
  split; [exact H|].
  exact (@C4_attacks_have_distinct_names (mirrorOnlyNet barghestPage) asciiOps flatDom
           sampleUrl [] _ _ H).
Defined.

Lemma earlier_attacks_distinct {ops : StringOps} blocks :
  NoDup (map keyOf (Earlier.extractAttacks blocks)).
Proof.
  unfold Earlier.extractAttacks. rewrite earlier_coalesceAttacks.
  apply coalesceAttacks_NoDup.
Qed.

(** ** C5 *)

Lemma scanPhase_relaxed_damage digits t :
  Forall (fun e => damage e = None) (snd (scanPhase digits Relaxed t)).
Proof. unfold scanPhase. cbn [snd]. apply Forall_map, Forall_forall. reflexivity. Qed.

(** C5.  The relaxed pattern is run exactly when the detailed pattern
    gave no candidate; then the candidates are those of the relaxed
    pattern, otherwise those of the detailed one; and every candidate of
    the relaxed pattern, hence every attack returned after it ran, has no
    damage. *)
Theorem C5_relaxed_pattern_runs_iff_detailed_finds_nothing
    {ops : StringOps} (t : jsstring) :
  let detailed := snd (scanPhase twoDigits Detailed t) in
  let relaxed := snd (scanPhase twoDigits Relaxed t) in
  (In Relaxed (fst (attackCandidates t)) <-> detailed = [])
  /\ snd (attackCandidates t) = (if isEmpty detailed then relaxed else detailed)
  /\ Forall (fun e => damage e = None) relaxed
  /\ (In Relaxed (fst (attackCandidates t)) ->
      Forall (fun e => damage e = None) (extractAttacksFromText t)).
Proof.
  intros detailed relaxed. rewrite attackCandidates_split. fold detailed relaxed.
  assert (Hrel : Forall (fun e => damage e = None) relaxed)
    by apply scanPhase_relaxed_damage.
  split; [|split; [|split]].
  - destruct detailed; simpl; split; intros H; try reflexivity; try discriminate; auto.
    destruct H as [H|[]]; discriminate.
  - destruct (isEmpty detailed); reflexivity.
  - exact Hrel.
  - unfold extractAttacksFromText. rewrite attackCandidates_split. fold detailed relaxed.
    destruct (isEmpty detailed); simpl.
    + intros _. apply Forall_forall. intros e He. apply coalesceAttacks_subset in He.
      rewrite Forall_forall in Hrel. auto.
    + intros [H|[]]. discriminate.
Qed.

(** ** C6 *)

(** C6.  [normalize] gives a name that is not empty, the placeholder
    "Unknown" when the parsed name is absent or empty and the parsed name
    otherwise; a level, an armor class and hit points that are absent or a
    finite integer, the parsed one; a speed that is absent or the parsed
    one when that is not empty; and the parsed traits and attacks, or the
    empty sequence when they are not arrays. *)
Theorem C6_normalize_defaults (obj : Parsed.t) :
  let r := normalize obj in
  Stat.name r <> []
  /\ Stat.name r = match Parsed.name obj with Some (a :: s) => a :: s | _ => UNKNOWN end
  /\ (Stat.level r = None \/ exists z, Stat.level r = Some (Fin z) /\ Parsed.level obj = Some (Fin z))
  /\ (Stat.ac r = None \/ exists z, Stat.ac r = Some (Fin z) /\ Parsed.ac obj = Some (Fin z))
  /\ (Stat.hp r = None \/ exists z, Stat.hp r = Some (Fin z) /\ Parsed.hp obj = Some (Fin z))
  /\ Stat.speed r = match Parsed.speed obj with Some (a :: s) => Some (a :: s) | _ => None end
  /\ Stat.traits r = match Parsed.traits obj with Some a => a | None => [] end
  /\ Stat.attacks r = match Parsed.attacks obj with Some a => a | None => [] end.
Proof.
  destruct obj as [n l t a h s k]. simpl.
  split; [destruct n as [[|c n]|]; discriminate|].
  split; [destruct n as [[|c n]|]; reflexivity|].
  split; [destruct l as [[]|]; simpl; eauto|].
  split; [destruct a as [[]|]; simpl; eauto|].
  split; [destruct h as [[]|]; simpl; eauto|].
  split; [destruct s as [[|c s]|]; reflexivity|].
  split; reflexivity.
Qed.

(** ** C7 *)

Lemma fetchAoN_invalid {net : Net} rawUrl log :
  parseURL rawUrl = None -> fetchAoN rawUrl log = (inl (Error "Invalid URL"), log).
Proof. intros H. unfold fetchAoN. now rewrite H. Qed.




(** The earlier importer retrieves in the same order; its proxy request
    needs a URL that [encodeURIComponent] takes. *)
Lemma earlier_fetchWithFallback_run {net : Net} url log :
  let direct := respond log url in
  let proxied := str "https://api.allorigins.win/raw?url=" ++ encodeURIComponent url in
  let proxy := respond (log ++ [url]) proxied in
  snd (Earlier.fetchWithFallback url log)
  = log ++ url :: (if attemptOk direct then []
                   else if isWellFormed url then [proxied] else [])
  /\ (attemptOk direct = false -> isWellFormed url = true -> attemptOk proxy = false ->
      exists e, fst (Earlier.fetchWithFallback url log) = inl e
                /\ isRetrievalFailure e = true).
Proof.
  cbv zeta.
  unfold Earlier.fetchWithFallback, Earlier.encodeRaw, ioBind, fetch, ioRet, ioThrow.
  destruct (respond log url) as [|[o1 ct1 b1]];
    cbn [attemptOk ok bodyText contentType andb negb];
    [ | destruct o1, b1 as [b1|]; cbn [andb negb] ];
    cbn [fst snd];
    try (repeat split; intros; try discriminate; try reflexivity; eexists; reflexivity);
    destruct (isWellFormed url); cbn [fst snd];
    try (split; [reflexivity | intros; discriminate]);
    destruct (respond (log ++ [url]) _) as [|[o2 ct2 b2]];
    try (destruct o2, b2 as [b2|]);
    cbn [attemptOk ok bodyText andb negb fst snd];
    repeat split; intros; try discriminate; try (now rewrite <- app_assoc);
    eexists; try split; reflexivity.
Qed.

(** ** C8 *)

Lemma scanBlocks_bonus p blocks :
  Forall (fun e => exists b, attack e = Some b /\ asciiSigned b)
         (snd (Earlier.scanBlocks p blocks)).
Proof.
  unfold Earlier.scanBlocks. cbn [snd]. apply Forall_forall. intros e He.
  apply in_flat_map in He. destruct He as (blk & _ & He).
  revert e He. apply Forall_forall. apply Forall_map. unfold execAll.
  apply execLoop_Forall. intros q s m H.
  unfold manyDigits, plus in H. apply entryOf_bonus in H; [|lia|exact I].
  destruct H as (b & Hb & Hs & _). exists b. auto.
Qed.

(** The same holds of the earlier importer, whose bonus has any number
    of digits. *)
Lemma earlier_bonus_is_sign_normalized {ops : StringOps} blocks :
  Forall (fun e => exists b, attack e = Some b /\ asciiSigned b
                             /\ ~ In TYPOGRAPHIC_MINUS b)
         (Earlier.extractAttacks blocks).
Proof.
  apply Forall_forall. intros e He. unfold Earlier.extractAttacks in He.
  rewrite earlier_coalesceAttacks in He. apply coalesceAttacks_subset in He.
  assert (H : Forall (fun e => exists b, attack e = Some b /\ asciiSigned b)
                     (snd (Earlier.attackCandidates blocks))).
  { unfold Earlier.attackCandidates, bind, ret.
    pose proof (scanBlocks_bonus Detailed blocks) as H1.
    pose proof (scanBlocks_bonus Relaxed blocks) as H2.
    destruct (Earlier.scanBlocks Detailed blocks) as [l1 a1].
    destruct (Earlier.scanBlocks Relaxed blocks) as [l2 a2].
    destruct a1; simpl in *; auto. }
  rewrite Forall_forall in H. destruct (H e He) as (b & Hb & Hs).
  exists b. repeat split; auto. now apply asciiSigned_no_minus.
Qed.

(** C8.  The bonus of every attack that [extractAttacksFromText] returns
    is a string: an ASCII plus or minus, then one or two digits; the
    typographic minus never occurs in it.  A bonus matched with the
    typographic minus comes out with the ASCII minus in its place, as
    "-5" for the typographic form of minus five. *)
Theorem C8_bonus_is_sign_normalized {ops : StringOps} (t : jsstring) :
  Forall (fun e => exists b, attack e = Some b /\ asciiSigned b /\ length b <= 3
                             /\ ~ In TYPOGRAPHIC_MINUS b)
         (extractAttacksFromText t)
  /\ (forall ds, Forall (fun d => isDigit d = true) ds ->
        normalizePlus (Some (TYPOGRAPHIC_MINUS :: ds)) = ch "-" :: ds)
  /\ map attack
       (extractAttacksFromText (str "Melee jaws " ++ TYPOGRAPHIC_MINUS :: str "5 (1d6 cold)"))
     = [Some (str "-5")].
Proof.
  split; [|split].
  - apply Forall_forall. intros e He. unfold extractAttacksFromText in He.
    apply coalesceAttacks_subset in He.
    pose proof (attackCandidates_bonus t) as H. rewrite Forall_forall in H.
    destruct (H e He) as (b & Hb & Hs & Hl). exists b. repeat split; auto.
    now apply asciiSigned_no_minus.
  - intros ds Hds. rewrite normalizePlus_bonus; [reflexivity | | exact Hds].
    right. now left.
  - vm_compute. reflexivity.
Qed.

(** ** C9 *)

(** C9 (as stated, refuted).  On the block "Melee claw +123 (1d4)" the
    pattern of dataloader-aon_co.js takes at most two digits for the
    bonus and gives "+12", the pattern of the earlier importer takes all
    three and gives "+123". *)
Lemma C9_counterexample :
  map attack (extractAttacksFromText (ops := asciiOps) (str "Melee claw +123 (1d4)"))
  = [Some (str "+12")]
  /\ map attack (Earlier.extractAttacks (ops := asciiOps) [str "Melee claw +123 (1d4)"])
     = [Some (str "+123")]
  /\ extractAttacksFromText (ops := asciiOps) (str "Melee claw +123 (1d4)")
     <> Earlier.extractAttacks (ops := asciiOps) [str "Melee claw +123 (1d4)"].
Proof.
  split; [vm_compute; reflexivity|]. split; [vm_compute; reflexivity|].
  vm_compute. discriminate.
Qed.

(** Where the two scans return the same attacks, no bonus among them
    has more than two digits. *)
Lemma scans_differ_on_long_bonus {ops : StringOps} (t : jsstring) :
  extractAttacksFromText t = Earlier.extractAttacks [t] ->
  Forall (fun e => bonusDigits e <= 2) (Earlier.extractAttacks [t]).
Proof. intros <-. apply extractAttacksFromText_digits. Qed.

(** C9 (amended).  On every text block in which each attack candidate
    that the scan of the earlier importer finds has a bonus of at most
    two digits, the scan of dataloader-aon_co.js and the scan of the
    earlier importer on that block return the same attacks. *)
Theorem C9_scans_agree_when_earlier_bonuses_are_short {ops : StringOps} (t : jsstring) :
  Forall (fun e => bonusDigits e <= 2) (snd (Earlier.attackCandidates [t])) ->
  extractAttacksFromText t = Earlier.extractAttacks [t].
Proof.
  intros H. unfold extractAttacksFromText, Earlier.extractAttacks.
  now rewrite earlier_coalesceAttacks, attackCandidates_follows.
Qed.

Lemma C9_witness :
  Forall (fun e => bonusDigits e <= 2)
         (snd (Earlier.attackCandidates [str "HP 150-200 Melee claw +5 (1d4)"]))
  /\ extractAttacksFromText (ops := asciiOps) (str "HP 150-200 Melee claw +5 (1d4)")
     = Earlier.extractAttacks (ops := asciiOps) [str "HP 150-200 Melee claw +5 (1d4)"].
Proof.
  assert (E : snd (Earlier.attackCandidates [str "HP 150-200 Melee claw +5 (1d4)"])
              = [Attack (str "claw") (Some (str "+5")) (Some (str "1d4"))])
    by (vm_compute; reflexivity).
  assert (H : Forall (fun e => bonusDigits e <= 2)
                (snd (Earlier.attackCandidates [str "HP 150-200 Melee claw +5 (1d4)"]))).
  { rewrite E. constructor; [|constructor]. vm_compute. repeat constructor. }
  split; [exact H|].
  exact (@C9_scans_agree_when_earlier_bonuses_are_short asciiOps _ H).
Defined.

(** ** C10 *)

Lemma bonusOf_absent a : truthy (attack a) = false -> bonusOf a = Fin 0.
Proof.
  unfold bonusOf. destruct (attack a) as [[|c s]|]; simpl; try discriminate;
    intros _; vm_compute; reflexivity.
Qed.

(** C10.  For every candidate list, when the entry the merge holds for a
    name has an absent or empty bonus, that bonus counts as 0, and the
    next candidate of that name takes its place exactly when its own
    parsed bonus is greater than 0. *)
Theorem C10_empty_bonus_counts_as_zero
    {ops : StringOps} (l : list AttackEntry) (a held : AttackEntry) :
  mapGet (keyOf a) (mergeMap l) = Some held ->
  truthy (attack held) = false ->
  bonusOf held = Fin 0
  /\ mapGet (keyOf a) (mergeMap (l ++ [a]))
     = Some (if gt (bonusOf a) (Fin 0) then a else held)
  /\ coalesceAttacks (l ++ [a])
     = mapValues (if gt (bonusOf a) (Fin 0)
                  then mapSet (keyOf a) a (mergeMap l)
                  else mergeMap l).
Proof.
  intros Hheld Hempty. pose proof (bonusOf_absent _ Hempty) as H0.
  split; [exact H0|].
  unfold coalesceAttacks. fold (mergeMap (l ++ [a])).
  rewrite mergeMap_snoc. unfold coalesceStep. rewrite Hheld, H0.
  destruct (gt (bonusOf a) (Fin 0)); split; try reflexivity.
  - now rewrite mapGet_mapSet, jsstring_eqb_refl.
  - exact Hheld.
Qed.

Lemma C10_witness :
  mapGet (keyOf (ops := asciiOps) (claw (str "+3")))
         (mergeMap (ops := asciiOps) [Attack (str "Claw") None None])
  = Some (Attack (str "Claw") None None)
  /\ truthy (attack (Attack (str "Claw") None None)) = false
  /\ (bonusOf (Attack (str "Claw") None None) = Fin 0
      /\ mapGet (keyOf (ops := asciiOps) (claw (str "+3")))
           (mergeMap (ops := asciiOps) ([Attack (str "Claw") None None] ++ [claw (str "+3")]))
         = Some (if gt (bonusOf (claw (str "+3"))) (Fin 0)
                 then claw (str "+3") else Attack (str "Claw") None None)
      /\ coalesceAttacks (ops := asciiOps) ([Attack (str "Claw") None None] ++ [claw (str "+3")])
         = mapValues (if gt (bonusOf (claw (str "+3"))) (Fin 0)
                      then mapSet (keyOf (ops := asciiOps) (claw (str "+3"))) (claw (str "+3"))
                             (mergeMap (ops := asciiOps) [Attack (str "Claw") None None])
                      else mergeMap (ops := asciiOps) [Attack (str "Claw") None None])).
Proof.
  split; [vm_compute; reflexivity|]. split; [reflexivity|].
  apply (@C10_empty_bonus_counts_as_zero asciiOps
           [Attack (str "Claw") None None] (claw (str "+3")) (Attack (str "Claw") None None));
    vm_compute; reflexivity.
Defined.

(** * Further properties: the text utilities *)

Lemma collapseSpaces_shape s : forall inRun,
  singleSpaced (collapseSpaces inRun s) = true
  /\ (inRun = true -> startsClean (collapseSpaces inRun s) = true).
Proof.
  induction s as [|a s IH]; intros inRun; simpl; [auto|].
  destruct (isSpace a) eqn:Ea.
  - destruct inRun.
    + apply IH.
    + split; [|discriminate]. simpl singleSpaced.
      destruct (IH true) as [H1 H2]. rewrite H1, H2 by reflexivity. reflexivity.
  - simpl. rewrite Ea. simpl. split; [apply IH | reflexivity].
Qed.

Lemma singleSpaced_tail a s : singleSpaced (a :: s) = true -> singleSpaced s = true.
Proof. simpl. intros H. apply andb_true_iff in H. tauto. Qed.

Lemma singleSpaced_trimStart s : singleSpaced s = true -> singleSpaced (trimStart s) = true.
Proof.
  induction s as [|a s IH]; simpl; [auto|]. intros H.
  destruct (isSpace a) eqn:Ea.
  - apply IH. apply andb_true_iff in H. tauto.
  - simpl. now rewrite Ea.
Qed.

Lemma startsClean_trimStart s : startsClean (trimStart s) = true.
Proof.
  induction s as [|a s IH]; simpl; [reflexivity|].
  destruct (isSpace a) eqn:Ea; [exact IH|]. simpl. now rewrite Ea.
Qed.

Lemma trimStart_fixed s : startsClean s = true -> trimStart s = s.
Proof.
  destruct s as [|a s]; simpl; [reflexivity|]. intros H.
  apply negb_true_iff in H. now rewrite H.
Qed.

Lemma trimEnd_snoc s a :
  trimEnd (s ++ [a]) = if isSpace a then trimEnd s else s ++ [a].
Proof.
  unfold trimEnd. rewrite rev_app_distr. simpl.
  destruct (isSpace a); [reflexivity|]. simpl. now rewrite rev_involutive.
Qed.

Lemma trimEnd_prefix s : exists q, s = trimEnd s ++ q /\ forallb isSpace q = true.
Proof.
  induction s as [|a s IH] using rev_ind.
  - exists []. split; reflexivity.
  - rewrite trimEnd_snoc. destruct (isSpace a) eqn:Ea.
    + destruct IH as (q & Hq & Hs). exists (q ++ [a]). split.
      * rewrite app_assoc. now rewrite <- Hq.
      * rewrite forallb_app, Hs. simpl. now rewrite Ea.
    + exists []. split; [now rewrite app_nil_r | reflexivity].
Qed.

Lemma startsClean_rev_trimEnd s : startsClean (rev (trimEnd s)) = true.
Proof.
  induction s as [|a s IH] using rev_ind; [reflexivity|].
  rewrite trimEnd_snoc. destruct (isSpace a) eqn:Ea; [exact IH|].
  rewrite rev_app_distr. simpl. now rewrite Ea.
Qed.

Lemma trimEnd_fixed s : startsClean (rev s) = true -> trimEnd s = s.
Proof.
  intros H. unfold trimEnd. rewrite trimStart_fixed by exact H. apply rev_involutive.
Qed.

Lemma singleSpaced_app_l p q : singleSpaced (p ++ q) = true -> singleSpaced p = true.
Proof.
  induction p as [|a p IH]; simpl; [reflexivity|]. intros H.
  apply andb_true_iff in H. destruct H as [H1 H2]. rewrite (IH H2), andb_true_r.
  destruct (isSpace a); [|reflexivity].
  apply andb_true_iff in H1. destruct H1 as [H1 H3]. rewrite H1. simpl.
  destruct p; [reflexivity | exact H3].
Qed.

Lemma startsClean_app_l p q : startsClean (p ++ q) = true -> startsClean p = true.
Proof. destruct p; simpl; auto. Qed.

Lemma trim_tidy s : singleSpaced s = true -> tidy (trim s) = true.
Proof.
  intros H. unfold tidy, trim.
  destruct (trimEnd_prefix (trimStart s)) as (q & Hq & _).
  rewrite startsClean_rev_trimEnd, andb_true_r. apply andb_true_iff. split.
  - apply singleSpaced_app_l with (q := q). rewrite <- Hq. now apply singleSpaced_trimStart.
  - apply startsClean_app_l with (q := q). rewrite <- Hq. apply startsClean_trimStart.
Qed.

Lemma filter_notSpace_collapse s : forall inRun,
  filter notSpace (collapseSpaces inRun s) = filter notSpace s.
Proof.
  induction s as [|a s IH]; intros inRun; simpl; [reflexivity|].
  unfold notSpace at 2. destruct (isSpace a) eqn:Ea; simpl.
  - destruct inRun; simpl; apply IH.
  - unfold notSpace at 1. rewrite Ea. simpl. now rewrite IH.
Qed.

Lemma filter_notSpace_trimStart s : filter notSpace (trimStart s) = filter notSpace s.
Proof.
  induction s as [|a s IH]; simpl; [reflexivity|].
  unfold notSpace at 2. destruct (isSpace a) eqn:Ea; simpl; [exact IH|].
  unfold notSpace at 1. now rewrite Ea.
Qed.

Lemma filter_notSpace_spaces q : forallb isSpace q = true -> filter notSpace q = [].
Proof.
  induction q as [|a q IH]; simpl; [reflexivity|]. intros H.
  apply andb_true_iff in H. destruct H as [Ha Hq]. unfold notSpace at 1.
  rewrite Ha. simpl. auto.
Qed.

Lemma filter_notSpace_trimEnd s : filter notSpace (trimEnd s) = filter notSpace s.
Proof.
  destruct (trimEnd_prefix s) as (q & Hq & Hs).
  rewrite Hq at 2. rewrite filter_app, (filter_notSpace_spaces _ Hs). now rewrite app_nil_r.
Qed.

Lemma collapseSpaces_fixed s : forall inRun,
  singleSpaced s = true -> (inRun = true -> startsClean s = true) ->
  collapseSpaces inRun s = s.
Proof.
  induction s as [|a s IH]; intros inRun H1 H2; simpl; [reflexivity|].
  simpl in H1. apply andb_true_iff in H1. destruct H1 as [Ha Hs].
  destruct (isSpace a) eqn:Ea.
  - apply andb_true_iff in Ha. destruct Ha as [Ha Hc]. apply N.eqb_eq in Ha.
    destruct inRun.
    + specialize (H2 eq_refl). simpl in H2. rewrite Ea in H2. discriminate.
    + subst a. f_equal. apply IH; auto.
  - f_equal. apply IH; [exact Hs | discriminate].
Qed.

Lemma clean_tidy s : tidy (clean s) = true.
Proof. unfold clean. apply trim_tidy. apply collapseSpaces_shape. Qed.

Lemma clean_fixed t : tidy t = true -> clean (Some t) = t.
Proof.
  intros Ht. unfold tidy in Ht. apply andb_true_iff in Ht. destruct Ht as [Ht H3].
  apply andb_true_iff in Ht. destruct Ht as [H1 H2].
  unfold clean, trim. rewrite orElse_Some_nil.
  rewrite collapseSpaces_fixed by (auto; discriminate).
  rewrite trimStart_fixed by exact H2. now apply trimEnd_fixed.
Qed.

(** X1.  The result of [clean] is tidy: it neither starts nor ends with
    white space, and every white-space unit in it is one ASCII space
    between two units that are not white space.  The units that are not
    white space are those of the argument, in their order. *)
Theorem X1_clean_is_tidy (s : option jsstring) :
  tidy (clean s) = true
  /\ filter notSpace (clean s) = filter notSpace (orElse s []).
Proof.
  split; [apply clean_tidy|].
  unfold clean, trim. now rewrite filter_notSpace_trimEnd, filter_notSpace_trimStart,
      filter_notSpace_collapse.
Qed.

(** X2.  The strings that [clean] leaves as they are are exactly the tidy
    ones; so cleaning twice is cleaning once. *)
Theorem X2_clean_fixes_exactly_the_tidy (r : jsstring) (s : option jsstring) :
  (clean (Some r) = r <-> tidy r = true)
  /\ clean (Some (clean s)) = clean s.
Proof.
  split; [split|].
  - intros H. rewrite <- H. apply clean_tidy.
  - apply clean_fixed.
  - apply clean_fixed, clean_tidy.
Qed.

(** * Further properties: [dedup] and the merge *)

Lemma existsb_eqb_In x l : existsb (jsstring_eqb x) l = true <-> In x l.
Proof.
  rewrite existsb_exists. split.
  - intros (y & Hy & E). apply jsstring_eqb_eq in E. now subst.
  - intros H. exists x. split; [exact H | apply jsstring_eqb_refl].
Qed.

Lemma existsb_eqb_notIn x l : existsb (jsstring_eqb x) l = false <-> ~ In x l.
Proof.
  rewrite <- existsb_eqb_In. destruct (existsb (jsstring_eqb x) l); split; congruence.
Qed.

Lemma dedupFrom_snoc a : forall seen x,
  dedupFrom seen (a ++ [x])
  = dedupFrom seen a
    ++ (if existsb (jsstring_eqb x) seen || existsb (jsstring_eqb x) a then [] else [x]).
Proof.
  induction a as [|y a IH]; intros seen x; simpl.
  - rewrite orb_false_r. destruct (existsb (jsstring_eqb x) seen); reflexivity.
  - destruct (existsb (jsstring_eqb y) seen) eqn:Ey.
    + rewrite IH. f_equal.
      destruct (jsstring_eqb x y) eqn:Exy; [|reflexivity].
      apply jsstring_eqb_eq in Exy. subst y. rewrite Ey. reflexivity.
    + simpl. rewrite IH. simpl. do 2 f_equal.
      destruct (jsstring_eqb x y), (existsb (jsstring_eqb x) seen); reflexivity.
Qed.

Lemma dedupFrom_In a x : forall seen,
  In x (dedupFrom seen a) <-> In x a /\ ~ In x seen.
Proof.
  intros seen. split; [apply dedupFrom_spec|].
  revert seen. induction a as [|y a IH]; intros seen [Hin Hn]; simpl in *; [contradiction|].
  destruct (existsb (jsstring_eqb y) seen) eqn:Ey.
  - destruct Hin as [->|Hin]; [|now apply IH].
    apply existsb_eqb_In in Ey. contradiction.
  - destruct (list_eq_dec N.eq_dec y x) as [->|Hne]; [now left|]. right.
    destruct Hin as [->|Hin]; [contradiction|]. apply IH. split; [exact Hin|].
    intros [H|H]; [now apply Hne | now apply Hn].
Qed.

Lemma dedupFrom_fixed a : forall seen,
  NoDup a -> (forall x, In x a -> ~ In x seen) -> dedupFrom seen a = a.
Proof.
  induction a as [|y a IH]; intros seen Hnd Hdis; simpl; [reflexivity|].
  inversion Hnd as [|? ? Hy Ha]; subst.
  replace (existsb (jsstring_eqb y) seen) with false
    by (symmetry; apply existsb_eqb_notIn; apply Hdis; now left).
  f_equal. apply IH; [exact Ha|].
  intros x Hx [<-|H]; [contradiction|]. apply (Hdis x); [now right | exact H].
Qed.

(** X3.  [dedup] keeps exactly the values of the array, each once, in the
    order of their first occurrence: a value is appended when it has not
    occurred before and dropped otherwise.  An array without repetition
    stays as it is, so does an array already deduplicated. *)
Theorem X3_dedup_keeps_first_occurrences (a : list jsstring) (x : jsstring) :
  NoDup (dedup a)
  /\ (In x (dedup a) <-> In x a)
  /\ dedup (a ++ [x])
     = (if existsb (jsstring_eqb x) a then dedup a else dedup a ++ [x])
  /\ (NoDup a -> dedup a = a)
  /\ dedup (dedup a) = dedup a.
Proof.
  split; [apply dedup_NoDup|]. split; [|split; [|split]].
  - unfold dedup. rewrite dedupFrom_In. simpl. tauto.
  - unfold dedup. rewrite dedupFrom_snoc. simpl.
    destruct (existsb (jsstring_eqb x) a); [apply app_nil_r | reflexivity].
  - intros H. apply dedupFrom_fixed; [exact H | auto].
  - apply dedupFrom_fixed; [apply dedup_NoDup | auto].
Qed.

Lemma mapSet_absent (V : Type) k (v : V) m :
  mapGet k m = None -> mapSet k v m = m ++ [(k, v)].
Proof.
  induction m as [|[k0 v0] m IH]; simpl; [reflexivity|].
  destruct (jsstring_eqb k k0); [discriminate|]. intros H. now rewrite IH.
Qed.

Section MergeOrder.
Context {ops : StringOps}.

Lemma coalesceStep_keys m a :
  map fst (coalesceStep m a)
  = match mapGet (keyOf a) m with
    | Some _ => map fst m
    | None => map fst m ++ [keyOf a]
    end.
Proof.
  unfold coalesceStep. destruct (mapGet (keyOf a) m) as [p|] eqn:E.
  - destruct (gt _ _); [|reflexivity]. now rewrite mapSet_keys, E.
  - now rewrite mapSet_keys, E.
Qed.

Lemma mergeMap_keys l : map fst (mergeMap l) = dedup (map keyOf l).
Proof.
  induction l as [|a l IH] using rev_ind; [reflexivity|].
  rewrite mergeMap_snoc, coalesceStep_keys, map_app. simpl map.
  unfold dedup. rewrite dedupFrom_snoc. simpl existsb at 1. cbn [orb].
  fold (dedup (map keyOf l)). rewrite <- IH.
  destruct (mapGet (keyOf a) (mergeMap l)) as [p|] eqn:E.
  - assert (H : existsb (jsstring_eqb (keyOf a)) (map keyOf l) = true).
    { apply existsb_eqb_In.
      assert (Hin : In (keyOf a) (map fst (mergeMap l))).
      { apply mapGet_In in E. change (keyOf a) with (fst (keyOf a, p)). now apply in_map. }
      rewrite IH in Hin. unfold dedup in Hin. now apply dedupFrom_In in Hin. }
    rewrite H. now rewrite app_nil_r.
  - assert (H : existsb (jsstring_eqb (keyOf a)) (map keyOf l) = false).
    { apply existsb_eqb_notIn. intros Hin. apply mapGet_None in E. apply E.
      rewrite IH. unfold dedup. apply dedupFrom_In. split; [exact Hin | auto]. }
    now rewrite H.
Qed.

Lemma mergeMap_distinct l :
  NoDup (map keyOf l) -> mergeMap l = map (fun e => (keyOf e, e)) l.
Proof.
  induction l as [|a l IH] using rev_ind; intros Hnd; [reflexivity|].
  rewrite map_app in Hnd. apply NoDup_app_remove_r in Hnd as Hl.
  rewrite mergeMap_snoc, IH by exact Hl. unfold coalesceStep.
  assert (Hnone : mapGet (keyOf a) (map (fun e => (keyOf e, e)) l) = None).
  { apply mapGet_None. rewrite map_map. simpl.
    intros Hin. apply NoDup_remove_2 in Hnd. apply Hnd. rewrite app_nil_r. exact Hin. }
  rewrite Hnone, mapSet_absent by exact Hnone. now rewrite map_app.
Qed.

Lemma coalesceAttacks_distinct l : NoDup (map keyOf l) -> coalesceAttacks l = l.
Proof.
  intros H. unfold coalesceAttacks. fold (mergeMap l). rewrite mergeMap_distinct by exact H.
  unfold mapValues. rewrite map_map. simpl. apply map_id.
Qed.
End MergeOrder.

(** X4.  The attacks come out in the order in which their lower-cased
    names first occur among the candidates: an entry that replaces an
    earlier one of its name takes that one's place. *)
Theorem X4_merge_keeps_first_encounter_order {ops : StringOps} (l : list AttackEntry) :
  map keyOf (coalesceAttacks l) = dedup (map keyOf l).
Proof. rewrite coalesceAttacks_keys. apply mergeMap_keys. Qed.

(** X5.  Candidates with pairwise distinct lower-cased names are returned
    as they are, all of them and in their order. *)
Theorem X5_merge_leaves_distinct_names_alone {ops : StringOps} (l : list AttackEntry) :
  NoDup (map keyOf l) -> coalesceAttacks l = l.
Proof. apply coalesceAttacks_distinct. Qed.

Lemma X5_witness :
  NoDup (map (keyOf (ops := asciiOps))
             [claw (str "+18"); Attack (str "jaws") (Some (str "+14")) None])
  /\ coalesceAttacks (ops := asciiOps)
       [claw (str "+18"); Attack (str "jaws") (Some (str "+14")) None]
     = [claw (str "+18"); Attack (str "jaws") (Some (str "+14")) None].
Proof.
  assert (H : NoDup (map (keyOf (ops := asciiOps))
                       [claw (str "+18"); Attack (str "jaws") (Some (str "+14")) None])).
  { apply NoDup_cons; [intros [E|[]]; cbv in E; discriminate|].
    apply NoDup_cons; [intros [] | apply NoDup_nil]. }
  split; [exact H|].
  exact (@X5_merge_leaves_distinct_names_alone asciiOps _ H).
Defined.

(** X6.  Merging is idempotent, and it never returns more entries than it
    was given. *)
Theorem X6_merge_is_idempotent {ops : StringOps} (l : list AttackEntry) :
  coalesceAttacks (coalesceAttacks l) = coalesceAttacks l
  /\ length (coalesceAttacks l) <= length l.
Proof.
  split.
  - apply coalesceAttacks_distinct, coalesceAttacks_NoDup.
  - rewrite <- (length_map keyOf (coalesceAttacks l)), coalesceAttacks_keys, mergeMap_keys.
    rewrite <- (length_map keyOf l). generalize (map keyOf l). intros ks.
    unfold dedup. generalize (@nil jsstring).
    induction ks as [|k ks IH]; intros seen; simpl; [lia|].
    destruct (existsb _ seen); [specialize (IH seen) | specialize (IH (k :: seen)); simpl]; lia.
Qed.

(** * Further properties: the attack scan *)

Lemma sem_seqs_cons fl r rs x z :
  sem fl (seqs (r :: rs)) x z -> exists y, sem fl r x y /\ sem fl (seqs rs) y z.
Proof.
  destruct rs as [|r' rs]; simpl; intros H.
  - exists z. split; [exact H | constructor].
  - inversion H; subst. eauto.
Qed.

Lemma sem_group fl i r x y :
  sem fl (Group i r) x y ->
  exists y0, sem fl r x y0 /\ y = setCap i (consumed (rest x) (rest y0)) y0.
Proof. intros H. inversion H; subst. eauto. Qed.

(** A run of one class consumes units of that class only. *)
Lemma class_run_sem fl g neg items mn mx x y :
  sem fl (Quant g mn mx (Class neg items)) x y ->
  exists cs, rest x = cs ++ rest y
    /\ Forall (fun c => classMatches (ignoreCase fl) neg items c = true) cs.
Proof.
  intros H. remember (Quant g mn mx (Class neg items)) as r eqn:Er.
  revert mn mx Er. induction H; intros mn' mx' Er; try discriminate.
  - exists []. split; [reflexivity | constructor].
  - inversion Er; subst. clear IHsem1.
    destruct (IHsem2 _ _ eq_refl) as (cs & Hcs & Hall).
    inversion H0; subst. simpl in *.
    exists (a :: cs). split.
    + match goal with E : rest x = _ |- _ => rewrite E end. simpl. now rewrite Hcs.
    + constructor; assumption.
Qed.

Lemma class_group_sem fl i g neg items mn mx x y :
  sem fl (Group i (Quant g mn mx (Class neg items))) x y ->
  exists cs, lookupCap i (caps y) = Some cs
    /\ Forall (fun c => classMatches (ignoreCase fl) neg items c = true) cs.
Proof.
  intros H. apply sem_group in H. destruct H as (y0 & H & ->).
  apply class_run_sem in H. destruct H as (cs & Hcs & Hall).
  exists cs. rewrite lookupCap_setCap_same, Hcs, consumed_app. auto.
Qed.

Lemma class_neg_spec ic items c a :
  classMatches ic true items c = true -> In (CChr a) items -> c <> a.
Proof.
  unfold classMatches. simpl. intros H Hin ->. apply negb_true_iff in H.
  assert (existsb (itemMatches ic a) items = true); [|congruence].
  apply existsb_exists. exists (CChr a). split; [exact Hin|]. simpl. apply N.eqb_refl.
Qed.

Lemma name_shape fl digits p x y :
  groupsOf digits = [] ->
  sem fl (phasePattern digits p) x y ->
  exists cs, lookupCap 2 (caps y) = Some cs
    /\ Forall (fun c => c <> ch ";" /\ c <> BULLET /\ c <> EM_DASH /\ c <> ch "-") cs.
Proof.
  rewrite phasePattern_unfold. intros Hg H.
  inversion H; subst; clear H.
  match goal with H : sem _ (Seq (plus _) _) _ _ |- _ => inversion H; subst; clear H end.
  match goal with H : sem _ (Seq (Group 2 _) _) _ _ |- _ => inversion H; subst; clear H end.
  match goal with H : sem _ (Group 2 _) _ _ |- _ =>
    apply class_group_sem in H; destruct H as (cs & Hcap & Hall) end.
  exists cs. split.
  - match goal with H : sem _ (Seq (plus ws) _) _ _ |- _ =>
      rewrite (sem_frame 2 H); [exact Hcap|] end.
    destruct p; simpl; rewrite Hg; simpl; intros H; repeat destruct H as [H|H];
      try discriminate; contradiction.
  - eapply Forall_impl; [|exact Hall]. intros c Hc. cbv beta in Hc.
    repeat split; apply (@class_neg_spec _ _ _ _ Hc); simpl; auto 10.
Qed.

Lemma damage_shape fl digits x y :
  sem fl (phasePattern digits Detailed) x y ->
  exists cs, lookupCap 4 (caps y) = Some cs /\ ~ In (ch ")") cs.
Proof.
  rewrite phasePattern_unfold. intros H.
  repeat match goal with
         | H : sem _ (Seq _ _) _ _ |- _ => inversion H; subst; clear H
         end.
  match goal with H : sem _ (Group 4 _) _ _ |- _ =>
    apply class_group_sem in H; destruct H as (cs & Hcap & Hall) end.
  exists cs. split.
  - match goal with H : sem _ (Chr _) ?a y |- _ =>
      rewrite (sem_frame 4 H); [exact Hcap | simpl; tauto] end.
  - intros Hin. rewrite Forall_forall in Hall. specialize (Hall _ Hin).
    apply (@class_neg_spec _ _ _ (ch ")") Hall); [simpl; auto | reflexivity].
Qed.

Lemma singleSpaced_In s c :
  singleSpaced s = true -> In c s -> isSpace c = true -> c = 32%N.
Proof.
  induction s as [|a s IH]; simpl; [tauto|]. intros H [<-|Hin] Hc.
  - rewrite Hc in H. apply andb_true_iff in H. destruct H as [H _].
    apply andb_true_iff in H. destruct H as [H _]. now apply N.eqb_eq in H.
  - apply andb_true_iff in H. apply IH; tauto.
Qed.

(** A unit of a cleaned string is a space or a unit of the argument that
    is not white space. *)
Lemma clean_In s c :
  In c (clean s) -> c = 32%N \/ (In c (orElse s []) /\ isSpace c = false).
Proof.
  intros H. destruct (isSpace c) eqn:Ec.
  - left. apply (singleSpaced_In (clean s)); auto.
    pose proof (clean_tidy s) as Ht. unfold tidy in Ht.
    apply andb_true_iff in Ht. destruct Ht as [Ht _].
    apply andb_true_iff in Ht. tauto.
  - right. split; [|reflexivity].
    assert (Hf : In c (filter notSpace (clean s))).
    { apply filter_In. split; [exact H|]. unfold notSpace. now rewrite Ec. }
    unfold clean, trim in Hf.
    rewrite filter_notSpace_trimEnd, filter_notSpace_trimStart, filter_notSpace_collapse in Hf.
    now apply filter_In in Hf.
Qed.

Lemma entryOf_shape digits p q s m :
  groupsOf digits = [] ->
  matchAt attackFlags (phasePattern digits p) q s = Some m ->
  wellFormedName (name (entryOf p m)) /\ wellFormedDamage (damage (entryOf p m)).
Proof.
  intros Hg H. apply matchAt_sem in H. destruct H as (y & Hsem & ->).
  unfold entryOf, grp. simpl. split.
  - apply name_shape in Hsem; [|exact Hg]. destruct Hsem as (cs & Hcap & Hall). rewrite Hcap.
    split; [apply clean_tidy|]. intros c Hc. apply clean_In in Hc.
    destruct Hc as [->|[Hin Hs]].
    + repeat split; discriminate.
    + rewrite orElse_Some_nil in Hin. rewrite Forall_forall in Hall.
      destruct (Hall _ Hin) as (H1 & H2 & H3 & H4).
      repeat split; auto; intros ->; discriminate.
  - destruct p; [|exact I]. apply damage_shape in Hsem.
    destruct Hsem as (cs & Hcap & Hno). rewrite Hcap. split; [apply clean_tidy|].
    intros Hin. apply clean_In in Hin. destruct Hin as [E|[Hin _]]; [discriminate|].
    rewrite orElse_Some_nil in Hin. contradiction.
Qed.

Lemma scanPhase_shape digits p t :
  groupsOf digits = [] ->
  Forall (fun e => wellFormedName (name e) /\ wellFormedDamage (damage e))
         (snd (scanPhase digits p t)).
Proof.
  intros Hg. unfold scanPhase, execAll. cbn [snd]. apply Forall_map.
  apply execLoop_Forall. intros q s m H. eapply entryOf_shape; eauto.
Qed.

Lemma scanPhase_detailed_damage digits t :
  Forall (fun e => exists d, damage e = Some d) (snd (scanPhase digits Detailed t)).
Proof.
  unfold scanPhase. cbn [snd]. apply Forall_map, Forall_forall. intros m _. simpl. eauto.
Qed.

(** Every attack returned is one of the candidates of the pattern that
    the scan settled on. *)
Lemma extractAttacks_from_phase {ops : StringOps} t e :
  In e (extractAttacksFromText t) ->
  In e (snd (scanPhase twoDigits
               (if isEmpty (snd (scanPhase twoDigits Detailed t)) then Relaxed else Detailed) t)).
Proof.
  unfold extractAttacksFromText. intros H. apply coalesceAttacks_subset in H.
  rewrite attackCandidates_split in H. destruct (isEmpty _); exact H.
Qed.

(** X7.  Every attack that [extractAttacksFromText] returns has a tidy
    name without line break, semicolon, bullet, em dash or hyphen, and a
    damage, when it has one, that is tidy and holds no closing
    parenthesis. *)
Theorem X7_attack_names_and_damages_are_well_formed {ops : StringOps} (t : jsstring) :
  Forall (fun e => wellFormedName (name e) /\ wellFormedDamage (damage e))
         (extractAttacksFromText t).
Proof.
  apply Forall_forall. intros e He. apply extractAttacks_from_phase in He.
  revert e He. apply Forall_forall. now apply scanPhase_shape.
Qed.

(** X8.  The attacks returned either all carry a damage or none does:
    as soon as one attack of the text is followed by a parenthesised
    damage, the attacks without one are left out. *)
Theorem X8_damage_is_all_or_nothing {ops : StringOps} (t : jsstring) :
  (snd (scanPhase twoDigits Detailed t) <> [] ->
   Forall (fun e => exists d, damage e = Some d) (extractAttacksFromText t))
  /\ (snd (scanPhase twoDigits Detailed t) = [] ->
      Forall (fun e => damage e = None) (extractAttacksFromText t))
  /\ (Forall (fun e => exists d, damage e = Some d) (extractAttacksFromText t)
      \/ Forall (fun e => damage e = None) (extractAttacksFromText t)).
Proof.
  assert (H1 : snd (scanPhase twoDigits Detailed t) <> [] ->
               Forall (fun e => exists d, damage e = Some d) (extractAttacksFromText t)).
  { intros Hne. apply Forall_forall. intros e He. apply extractAttacks_from_phase in He.
    destruct (isEmpty (snd (scanPhase twoDigits Detailed t))) eqn:E.
    - destruct (snd (scanPhase twoDigits Detailed t)); [contradiction | discriminate].
    - revert e He. apply Forall_forall. apply scanPhase_detailed_damage. }
  assert (H2 : snd (scanPhase twoDigits Detailed t) = [] ->
               Forall (fun e => damage e = None) (extractAttacksFromText t)).
  { intros Hnil. apply Forall_forall. intros e He. apply extractAttacks_from_phase in He.
    rewrite Hnil in He. simpl in He. revert e He. apply Forall_forall.
    apply scanPhase_relaxed_damage. }
  split; [exact H1|]. split; [exact H2|].
  destruct (snd (scanPhase twoDigits Detailed t)) eqn:E.
  - right. now apply H2.
  - left. apply H1. discriminate.
Qed.

(** *** Numbers read by [parseInt] *)

Lemma isDigit_range d : isDigit d = true -> (48 <= d <= 57)%N.
Proof.
  unfold isDigit, inRange. intros H. apply andb_true_iff in H.
  destruct H as [H1 H2]. apply N.leb_le in H1. apply N.leb_le in H2. lia.
Qed.

Lemma isDigit_not_space d : isDigit d = true -> isSpace d = false.
Proof.
  intros H. apply isDigit_range in H.
  unfold isSpace, isLineTerminator, inRange.
  repeat (apply orb_false_iff; split);
    try (apply N.eqb_neq; lia);
    apply andb_false_iff; left; apply N.leb_gt; lia.
Qed.

Lemma takeDigits_all ds : Forall (fun d => isDigit d = true) ds -> takeDigits ds = ds.
Proof. induction 1 as [|d ds Hd _ IH]; simpl; [reflexivity|]. now rewrite Hd, IH. Qed.

Lemma digitsValue_from acc ds :
  (0 <= acc)%Z -> Forall (fun d => isDigit d = true) ds ->
  (0 <= fold_left (fun acc d => (10 * acc + (Z.of_N d - 48))%Z) ds acc)%Z.
Proof.
  intros Hacc Hds. revert acc Hacc.
  induction Hds as [|d ds Hd _ IH]; intros acc Hacc; cbn [fold_left]; [exact Hacc|].
  apply IH. apply isDigit_range in Hd. lia.
Qed.

Lemma digitsValue_nonneg ds :
  Forall (fun d => isDigit d = true) ds -> (0 <= digitsValue ds)%Z.
Proof. intros H. apply digitsValue_from; [lia | exact H]. Qed.

Lemma toDouble_small z : (Z.abs z < 2 ^ 53)%Z -> toDouble z = Fin z.
Proof. intros H. unfold toDouble. apply Z.ltb_lt in H. now rewrite H. Qed.

Lemma toDouble_nonneg z :
  (0 <= z)%Z -> toDouble z = PosInf \/ exists v, toDouble z = Fin v /\ (0 <= v)%Z.
Proof.
  intros Hz. unfold toDouble.
  destruct (Z.abs z <? 2 ^ 53)%Z; [right; eauto|].
  replace (z <? 0)%Z with false by (symmetry; apply Z.ltb_ge; lia).
  match goal with |- context [(2 ^ 1024 <=? ?v)%Z] => destruct (2 ^ 1024 <=? v)%Z; [now left|] end.
  right. eexists. split; [reflexivity|]. apply Z.shiftl_nonneg.
  assert (0 <= Z.shiftr (Z.abs z) (Z.log2 (Z.abs z) - 52))%Z
    by (apply Z.shiftr_nonneg; lia).
  match goal with |- context [if ?b then _ else _] => destruct b end; lia.
Qed.

Lemma toDouble_not_NaN z : toDouble z <> NaN.
Proof.
  unfold toDouble. destruct (Z.abs z <? 2 ^ 53)%Z; [discriminate|].
  match goal with |- context [(2 ^ 1024 <=? ?v)%Z] => destruct (2 ^ 1024 <=? v)%Z end;
    [destruct (z <? 0)%Z|]; discriminate.
Qed.

(** [parseInt] on a run of digits, with or without a minus sign. *)
Lemma parseInt_digits d ds :
  Forall (fun c => isDigit c = true) (d :: ds) ->
  parseInt (d :: ds) = toDouble (digitsValue (d :: ds))
  /\ parseInt (ch "-" :: d :: ds) = toDouble (- digitsValue (d :: ds)).
Proof.
  intros H. pose proof (takeDigits_all H) as Ht. inversion H as [|? ? Hd Hds]; subst.
  assert (Hs : isSpace d = false) by now apply isDigit_not_space.
  assert (Hr : (48 <= d <= 57)%N) by now apply isDigit_range.
  unfold parseInt. split.
  - cbn [trimStart]. rewrite Hs.
    replace (d =? ch "-")%N with false by (symmetry; apply N.eqb_neq; unfold ch; simpl; lia).
    replace (d =? ch "+")%N with false by (symmetry; apply N.eqb_neq; unfold ch; simpl; lia).
    rewrite Ht. reflexivity.
  - cbn [trimStart]. replace (isSpace (ch "-")) with false by reflexivity.
    rewrite N.eqb_refl, Ht. reflexivity.
Qed.

Lemma digits_no_plus ds :
  Forall (fun d => isDigit d = true) ds -> ~ In (ch "+") ds.
Proof.
  induction 1 as [|d ds Hd _ IH]; simpl; [tauto|].
  intros [E|H]; [|contradiction]. subst d. discriminate.
Qed.

Lemma short_bonus_value b :
  asciiSigned b -> length b <= 3 ->
  exists z, parseInt (replaceFirst (ch "+") [] b) = Fin z /\ (-99 <= z <= 99)%Z.
Proof.
  intros (sgn & ds & -> & Hs & Hds & Hlen) Hle. simpl in Hle.
  assert (Hpow : (2 ^ 53 = 9007199254740992)%Z) by reflexivity.
  destruct ds as [|d ds]; [simpl in Hlen; lia|].
  destruct (parseInt_digits Hds) as [Hp Hm].
  assert (Hv : (0 <= digitsValue (d :: ds) <= 99)%Z).
  { inversion Hds as [|? ? Hd Hds']; subst. apply isDigit_range in Hd.
    destruct ds as [|d2 ds]; [unfold digitsValue; cbn [fold_left]; lia|].
    destruct ds as [|d3 ds]; [|simpl in Hle; lia].
    inversion Hds' as [|? ? Hd2 _]; subst. apply isDigit_range in Hd2.
    unfold digitsValue; cbn [fold_left]; lia. }
  destruct Hs as [-> | ->].
  - exists (digitsValue (d :: ds)). cbn [replaceFirst]. rewrite N.eqb_refl.
    cbn [app]. rewrite Hp, toDouble_small by lia. split; [reflexivity | lia].
  - exists (- digitsValue (d :: ds))%Z.
    rewrite replaceFirst_absent
      by (intros [E|E]; [discriminate | now apply (digits_no_plus Hds)]).
    rewrite Hm, toDouble_small by lia. split; [reflexivity | lia].
Qed.

(** X9.  The bonus of every attack returned parses to an integer from
    -99 to 99: the merge never compares a NaN or an infinity. *)
Theorem X9_bonus_is_a_small_integer {ops : StringOps} (t : jsstring) :
  Forall (fun e => exists z, bonusOf e = Fin z /\ (-99 <= z <= 99)%Z)
         (extractAttacksFromText t).
Proof.
  apply Forall_forall. intros e He. unfold extractAttacksFromText in He.
  apply coalesceAttacks_subset in He.
  pose proof (attackCandidates_bonus t) as H. rewrite Forall_forall in H.
  destruct (H e He) as (b & Hb & Hs & Hl). unfold bonusOf. rewrite Hb.
  replace (orElse (Some b) (str "0")) with b
    by (destruct Hs as (sgn & ds & -> & _); reflexivity).
  now apply short_bonus_value.
Qed.

(** *** Where the attacks come from *)

Lemma execLoop_In fl r m : forall fuel p s,
  In m (execLoop fuel fl r p s) ->
  exists q s', suffixOf s' s /\ matchAt fl r q s' = Some m.
Proof.
  induction fuel as [|fuel IH]; intros p s H; simpl in H; [contradiction|].
  destruct (searchFrom fl r p s) as [m0|] eqn:E; [|contradiction].
  destruct H as [<-|H].
  - now apply searchFrom_matchAt in E.
  - apply IH in H. destruct H as (q & s' & Hs & Hm). exists q, s'. split; [|exact Hm].
    apply searchFrom_after in E. eapply suffixOf_trans; eassumption.
Qed.

Lemma canonicalize_lower a c :
  canonicalize true a = canonicalize true c ->
  (if inRange 65 90 a then a + 32 else a)%N = (if inRange 65 90 c then c + 32 else c)%N.
Proof.
  unfold canonicalize, inRange. cbn [andb].
  destruct ((97 <=? a) && (a <=? 122))%N eqn:Ea, ((97 <=? c) && (c <=? 122))%N eqn:Ec,
           ((65 <=? a) && (a <=? 90))%N eqn:Ua, ((65 <=? c) && (c <=? 90))%N eqn:Uc;
    rewrite ?andb_true_iff, ?andb_false_iff, ?N.leb_le, ?N.leb_gt in *; lia.
Qed.

Lemma chars_sem fl cs : forall x y,
  sem fl (seqs (map Chr cs)) x y ->
  exists v, rest x = v ++ rest y
    /\ map (canonicalize (ignoreCase fl)) v = map (canonicalize (ignoreCase fl)) cs.
Proof.
  induction cs as [|c cs IH]; intros x y H.
  - inversion H; subst. exists []. split; reflexivity.
  - cbn [map] in H. apply sem_seqs_cons in H. destruct H as (y1 & H1 & H2).
    inversion H1; subst. apply IH in H2. destruct H2 as (v & Hv & Hc).
    exists (a :: v). simpl in Hv. split.
    + match goal with E : rest x = _ |- _ => rewrite E end. simpl. now rewrite Hv.
    + simpl. now f_equal.
Qed.

Lemma keyword_sem x y :
  sem attackFlags (Group 1 (Alt (lit "Melee") (lit "Ranged"))) x y ->
  exists v, rest x = v ++ rest y
    /\ (asciiLower v = str "melee" \/ asciiLower v = str "ranged").
Proof.
  intros H. apply sem_group in H. destruct H as (y0 & H & ->). simpl rest.
  assert (Hlow : forall v w,
            map (canonicalize true) v = map (canonicalize true) w ->
            asciiLower v = asciiLower w).
  { induction v as [|a v IH]; intros [|c w] E; try discriminate; [reflexivity|].
    simpl in E. injection E as E1 E2. unfold asciiLower. simpl. f_equal.
    - now apply canonicalize_lower.
    - now apply IH. }
  inversion H; subst;
    match goal with H : sem _ (lit _) _ _ |- _ =>
      apply chars_sem in H; destruct H as (v & Hv & Hc) end;
    exists v; (split; [exact Hv|]); apply Hlow in Hc; rewrite Hc; [left | right]; reflexivity.
Qed.

Lemma candidate_mentions_keyword digits p t e :
  In e (snd (scanPhase digits p t)) ->
  mentions (str "melee") t \/ mentions (str "ranged") t.
Proof.
  unfold scanPhase, execAll. cbn [snd]. intros H. apply in_map_iff in H.
  destruct H as (m & _ & Hm). apply execLoop_In in Hm.
  destruct Hm as (q & s' & [pre ->] & Hm). apply matchAt_sem in Hm.
  destruct Hm as (y & Hsem & _). rewrite phasePattern_unfold in Hsem.
  inversion Hsem; subst.
  match goal with H : sem _ (Group 1 _) _ _ |- _ => apply keyword_sem in H;
    destruct H as (v & Hv & Hk) end.
  simpl in Hv. rewrite Hv.
  destruct Hk as [Hk|Hk]; [left | right]; exists pre, v; eexists; split; eauto.
Qed.

(** X10.  An attack is only ever read off a text that mentions "Melee" or
    "Ranged", in whatever letter case. *)
Theorem X10_attacks_need_a_keyword {ops : StringOps} (t : jsstring) :
  extractAttacksFromText t <> [] ->
  mentions (str "melee") t \/ mentions (str "ranged") t.
Proof.
  intros H. destruct (extractAttacksFromText t) as [|e l] eqn:E; [contradiction|].
  assert (He : In e (extractAttacksFromText t)) by (rewrite E; now left).
  apply extractAttacks_from_phase in He. eapply candidate_mentions_keyword; eauto.
Qed.

Lemma X10_witness :
  extractAttacksFromText (ops := asciiOps) (str "RANGED bow +7") <> []
  /\ (mentions (str "melee") (str "RANGED bow +7")
      \/ mentions (str "ranged") (str "RANGED bow +7")).
Proof.
  assert (H : extractAttacksFromText (ops := asciiOps) (str "RANGED bow +7") <> [])
    by (vm_compute; discriminate).
  split; [exact H|]. exact (@X10_attacks_need_a_keyword asciiOps _ H).
Defined.

(** * Further properties: the parsers *)

Lemma groupsOf_seqs rs : groupsOf (seqs rs) = flat_map groupsOf rs.
Proof.
  induction rs as [|r rs IH]; [reflexivity|].
  destruct rs as [|r' rs]; [simpl; now rewrite app_nil_r|].
  change (seqs (r :: r' :: rs)) with (Seq r (seqs (r' :: rs))).
  cbn [groupsOf flat_map]. now rewrite IH.
Qed.

(** A group among the terms of a sequence holds, at the end, what its
    body consumed, when no later term sets it again. *)
Lemma sem_seqs_group fl i r rs2 : forall rs1 x z,
  sem fl (seqs (rs1 ++ Group i r :: rs2)) x z ->
  ~ In i (flat_map groupsOf rs2) ->
  exists y1 y0, sem fl r y1 y0
    /\ lookupCap i (caps z) = Some (consumed (rest y1) (rest y0)).
Proof.
  induction rs1 as [|r1 rs1 IH]; intros x z H Hi.
  - cbn [app] in H. apply sem_seqs_cons in H. destruct H as (y & Hg & Hrest).
    apply sem_group in Hg. destruct Hg as (y0 & Hr & ->).
    exists x, y0. split; [exact Hr|].
    rewrite (sem_frame i Hrest) by now rewrite groupsOf_seqs.
    apply lookupCap_setCap_same.
  - cbn [app] in H. apply sem_seqs_cons in H. destruct H as (y & _ & Hrest).
    now apply IH in Hrest.
Qed.

Lemma exec_sem fl r s m :
  exec fl r s = Some m ->
  exists x y, sem fl r x y /\ groups m = caps y.
Proof.
  unfold exec. intros H. apply searchFrom_matchAt in H.
  destruct H as (p & s' & _ & Hm). apply matchAt_sem in Hm.
  destruct Hm as (y & Hy & ->). eauto.
Qed.

Lemma optional_minus_sem fl x y :
  sem fl (opt (Chr (ch "-"))) x y ->
  rest x = rest y \/ rest x = ch "-" :: rest y.
Proof.
  intros H. inversion H; subst; [now left|]. right.
  match goal with H : sem _ (Chr _) _ _ |- _ => inversion H; subst; clear H end.
  match goal with H : canonicalize _ _ = canonicalize _ _ |- _ =>
    symmetry in H; apply N.eqb_eq in H; apply canonicalize_symbol in H;
    [subst | reflexivity..] end.
  match goal with H : sem _ (Quant _ _ _ _) _ _ |- _ => inversion H; subst; clear H end.
  - simpl in *. assumption.
  - simpl in *. congruence.
Qed.

(** The text of "-?\d+" is a run of digits, after a minus sign or not;
    [parseInt] reads it as a number. *)
Lemma signedInt_sem fl x y :
  sem fl signedInt x y -> parseInt (consumed (rest x) (rest y)) <> NaN.
Proof.
  intros H. inversion H; subst; clear H.
  match goal with H : sem _ (opt _) _ _ |- _ => apply optional_minus_sem in H end.
  match goal with H : sem _ (plus digit) _ _ |- _ =>
    apply digits_sem in H; [destruct H as (ds & Hds & Hall & Hmin & _) | exact I] end.
  destruct ds as [|d ds]; [simpl in Hmin; lia|].
  destruct (parseInt_digits Hall) as [Hp Hm].
  match goal with H : _ \/ _ |- _ => destruct H as [E|E] end; rewrite E, Hds.
  - rewrite consumed_app, Hp. apply toDouble_not_NaN.
  - change (ch "-" :: (d :: ds) ++ rest y) with ((ch "-" :: d :: ds) ++ rest y).
    rewrite consumed_app, Hm. apply toDouble_not_NaN.
Qed.

Lemma unsignedInt_sem fl x y :
  sem fl (plus digit) x y -> nonNegative (parseInt (consumed (rest x) (rest y))).
Proof.
  intros H. apply digits_sem in H; [|exact I].
  destruct H as (ds & Hds & Hall & Hmin & _).
  destruct ds as [|d ds]; [simpl in Hmin; lia|].
  destruct (parseInt_digits Hall) as [Hp _].
  rewrite Hds, consumed_app, Hp. apply toDouble_nonneg. now apply digitsValue_nonneg.
Qed.

Lemma firstInt_nonNegative label text n :
  firstInt fI (labeledIntRe label) text = Some n -> nonNegative n.
Proof.
  unfold firstInt. destruct (exec fI (labeledIntRe label) text) as [m|] eqn:E; [|discriminate].
  intros [= <-]. apply exec_sem in E. destruct E as (x & y & Hsem & Hg).
  unfold labeledIntRe in Hsem.
  apply (@sem_seqs_group fI 2 (plus digit) []
           [Group 1 (Alt Bol (Class true [CWord])); lit label; plus ws]) in Hsem;
    [|simpl; tauto].
  destruct Hsem as (y1 & y0 & Hr & Hcap). unfold grp. rewrite Hg, Hcap, orElse_Some_nil.
  now apply unsignedInt_sem in Hr.
Qed.

Lemma header_level fl r pre post s m :
  r = seqs (pre ++ Group 2 signedInt :: post) ->
  ~ In 2 (flat_map groupsOf post) ->
  exec fl r s = Some m ->
  parseInt (orElse (grp 2 m) []) <> NaN.
Proof.
  intros -> Hpost E. apply exec_sem in E. destruct E as (x & y & Hsem & Hg).
  apply sem_seqs_group in Hsem; [|exact Hpost].
  destruct Hsem as (y1 & y0 & Hr & Hcap). unfold grp. rewrite Hg, Hcap, orElse_Some_nil.
  now apply signedInt_sem in Hr.
Qed.

Lemma parseText_level {ops : StringOps} t n :
  Parsed.level (parseText t) = Some n -> n <> NaN.
Proof.
  unfold parseText. cbn [Parsed.level].
  destruct (hd_error (matchAll fIM creatureLineRe t)) as [[|a l]|]; try discriminate.
  unfold orMatch. destruct (exec fI nameParenRe (a :: l)) as [m|] eqn:E1.
  - intros [= <-].
    apply (@header_level fI nameParenRe
             [Bol; Group 1 (plusLazy Dot); star ws; Chr (ch "("); starLazy Dot;
              lit "Creature"; plus ws] [Chr (ch ")")] _ _ eq_refl) in E1;
      [exact E1 | simpl; tauto].
  - destruct (exec fI namePlainRe (a :: l)) as [m|] eqn:E2; [|discriminate].
    intros [= <-].
    apply (@header_level fI namePlainRe
             [Bol; Group 1 (plusLazy Dot); plus ws; lit "Creature"; plus ws] []
             _ _ eq_refl) in E2;
      [exact E2 | simpl; tauto].
Qed.

Lemma pickNumber_level {ops : StringOps} {dom : Dom} scope n :
  pickNumber scope fI creatureRe = Some n -> n <> NaN.
Proof.
  unfold pickNumber. destruct (findTextNode scope fI creatureRe) as [node|]; [|discriminate].
  destruct (exec fI creatureRe (nodeText node)) as [m|] eqn:E; [|discriminate].
  intros [= <-]. apply exec_sem in E. destruct E as (x & y & Hsem & Hg).
  unfold creatureRe in Hsem.
  apply (@sem_seqs_group fI 1 signedInt [WordB] [WordB; lit "Creature"; plus ws]) in Hsem;
    [|simpl; tauto].
  destruct Hsem as (y1 & y0 & Hr & Hcap). unfold grp. rewrite Hg, Hcap, orElse_Some_nil.
  now apply signedInt_sem in Hr.
Qed.

Lemma labelNumber_nonNegative fl label s m :
  exec fl (labelNumberRe label) s = Some m ->
  nonNegative (parseInt (orElse (grp 1 m) [])).
Proof.
  intros E. apply exec_sem in E. destruct E as (x & y & Hsem & Hg).
  unfold labelNumberRe in Hsem.
  apply (@sem_seqs_group fl 1 (plus digit) [] [labelRe label; star ws]) in Hsem;
    [|simpl; tauto].
  destruct Hsem as (y1 & y0 & Hr & Hcap). unfold grp. rewrite Hg, Hcap, orElse_Some_nil.
  now apply unsignedInt_sem in Hr.
Qed.

Lemma pickLabeledNumber_nonNegative {ops : StringOps} {dom : Dom} scope label n :
  pickLabeledNumber scope label = Some n -> nonNegative n.
Proof.
  unfold pickLabeledNumber.
  destruct (findTextNode scope fI (labelRe label)) as [node|]; [|discriminate].
  destruct (exec fI (labelNumberRe label) (lineOf node)) as [m|] eqn:E; [|discriminate].
  intros [= <-]. now apply labelNumber_nonNegative in E.
Qed.

Lemma parsed_numbers {ops : StringOps} {dom : Dom} (kind_ : kind) (body_ : jsstring) :
  let out := match kind_ with Html => parseHtml body_ | Text => parseText body_ end in
  (forall n, Parsed.level out = Some n -> n <> NaN)
  /\ (forall n, Parsed.ac out = Some n -> nonNegative n)
  /\ (forall n, Parsed.hp out = Some n -> nonNegative n).
Proof.
  destruct kind_; cbv zeta.
  - unfold parseHtml. cbn [Parsed.level Parsed.ac Parsed.hp].
    split; [intros n; apply pickNumber_level|].
    split; intros n; apply pickLabeledNumber_nonNegative.
  - split; [intros n; apply parseText_level|].
    unfold parseText. cbn [Parsed.ac Parsed.hp].
    split; intros n; apply firstInt_nonNegative.
Qed.

(** X11.  Neither parser ever yields NaN for a number: a level that is
    present is an integer or an infinity, and an armor class or hit
    points that are present are an integer not below zero or plus
    infinity. *)
Theorem X11_parsed_numbers_are_never_NaN
    {ops : StringOps} {dom : Dom} (kind_ : kind) (body_ : jsstring) :
  let out := match kind_ with Html => parseHtml body_ | Text => parseText body_ end in
  (forall n, Parsed.level out = Some n -> n <> NaN)
  /\ (forall n, Parsed.ac out = Some n -> nonNegative n)
  /\ (forall n, Parsed.hp out = Some n -> nonNegative n).
Proof. apply parsed_numbers. Qed.

(** *** Traits *)

Lemma separator_class a :
  classMatches false false [CChr (ch ","); CChr BULLET; CChr (ch ";")] a = isSeparator a.
Proof.
  unfold classMatches, isSeparator, itemMatches, canonicalize. cbn [existsb xorb andb].
  rewrite orb_false_r, !(N.eqb_sym a). now rewrite orb_assoc.
Qed.

Lemma matcher_Class fl neg items x c :
  matcher fl (Class neg items) x c
  = match rest x with
    | a :: s => if classMatches (ignoreCase fl) neg items a then c (step x a s) else None
    | [] => None
    end.
Proof. reflexivity. Qed.

(** A greedy run that may be empty always succeeds at the end of a
    pattern. *)
Lemma star_succeeds fl mx r y :
  matcher fl (Quant true 0 mx r) y (fun z => Some z) <> None.
Proof.
  rewrite matcher_Quant. destruct mx as [[|k]|]; cbn [Nat.eqb negb]; try discriminate;
    match goal with |- context [match ?m with Some z => Some z | None => Some ?y end] =>
      destruct m end; discriminate.
Qed.

Lemma separator_found p a s :
  isSeparator a = true -> matchAt fNone traitSeparator p (a :: s) <> None.
Proof.
  intros Ha. unfold matchAt, traitSeparator, plus.
  rewrite matcher_Quant. cbn [Nat.eqb negb option_map pred andb].
  rewrite matcher_Class. cbn [rest clearCaps ignoreCase fNone].
  rewrite separator_class, Ha.
  match goal with |- context [matcher ?fl (Quant true 0 ?mx ?r) ?y ?k] =>
    pose proof (@star_succeeds fl mx r y) as H;
    destruct (matcher fl (Quant true 0 mx r) y k) end; [discriminate | contradiction].
Qed.

Lemma separator_progress p s m :
  matchAt fNone traitSeparator p s = Some m -> length (rest (after m)) < length s.
Proof.
  intros H. apply matchAt_sem in H. destruct H as (y & Hsem & ->). simpl.
  unfold traitSeparator, plus in Hsem. inversion Hsem; subst.
  - match goal with H : _ \/ _ |- _ => destruct H; discriminate end.
  - match goal with H : sem _ (Class _ _) _ _ |- _ => inversion H; subst; clear H end.
    match goal with H : sem _ (Quant _ _ _ _) _ _ |- _ =>
      apply sem_suffix, suffixOf_length in H end.
    simpl in *. match goal with E : s = _ |- _ => rewrite E end. simpl. lia.
Qed.

Lemma splitLoop_tokens : forall fuel p tok s,
  Forall (fun c => isSeparator c = false) tok ->
  Forall (Forall (fun c => isSeparator c = false))
         (splitLoop fuel fNone traitSeparator p tok s).
Proof.
  induction fuel as [|fuel IH]; intros p tok s Htok; simpl; [constructor|].
  destruct s as [|a s'].
  - constructor; [|constructor]. now apply Forall_rev.
  - destruct (matchAt fNone traitSeparator p (a :: s')) as [m|] eqn:E.
    + apply separator_progress in E.
      replace (Nat.eqb (length (rest (after m))) (length (a :: s'))) with false
        by (symmetry; apply Nat.eqb_neq; lia).
      rewrite andb_false_r. constructor; [now apply Forall_rev | apply IH; constructor].
    + apply IH. constructor; [|exact Htok].
      destruct (isSeparator a) eqn:Ea; [|reflexivity].
      exfalso. eapply separator_found; eauto.
Qed.

Lemma split_tokens s :
  Forall (Forall (fun c => isSeparator c = false)) (split fNone traitSeparator s).
Proof.
  unfold split. destruct s as [|a s].
  - destruct (matchAt _ _ _ _); repeat constructor.
  - apply splitLoop_tokens. constructor.
Qed.

Lemma splitTraits_shape s :
  Forall (fun x => wellFormedTrait x /\ forall c, In c x -> isSeparator c = false)
         (splitTraits s).
Proof.
  unfold splitTraits. apply Forall_forall. intros x Hx.
  apply filter_In in Hx. destruct Hx as [Hx Hne].
  apply in_map_iff in Hx. destruct Hx as (tok & <- & Htok).
  pose proof (split_tokens s) as Hs. rewrite Forall_forall in Hs.
  specialize (Hs _ Htok). rewrite Forall_forall in Hs.
  split; [split; [|apply clean_tidy]|].
  - intros E. rewrite E in Hne. discriminate.
  - intros c Hc. apply clean_In in Hc. destruct Hc as [->|[Hc _]]; [reflexivity|].
    rewrite orElse_Some_nil in Hc. auto.
Qed.

(** X12.  Every trait that [splitTraits] returns is tidy and not empty
    and holds no comma, bullet or semicolon. *)
Theorem X12_split_traits_are_well_formed (s : jsstring) :
  Forall (fun x => wellFormedTrait x /\ forall c, In c x -> isSeparator c = false)
         (splitTraits s).
Proof. apply splitTraits_shape. Qed.

Lemma splitTraits_wellFormed s : Forall wellFormedTrait (splitTraits s).
Proof.
  eapply Forall_impl; [|apply splitTraits_shape]. intros x [H _]. exact H.
Qed.

Lemma parseText_traits {ops : StringOps} t :
  exists traits, Parsed.traits (parseText t) = Some traits /\ Forall wellFormedTrait traits.
Proof.
  unfold parseText. cbn [Parsed.traits]. eexists. split; [reflexivity|].
  destruct (hd_error (matchAll fIM traitsLineRe t)) as [[|a l]|]; try constructor.
  destruct (exec fI traitsRestRe (a :: l)); [apply splitTraits_wellFormed | constructor].
Qed.

Lemma trait_elements_wellFormed (texts : list jsstring) :
  Forall wellFormedTrait (dedup (filter nonEmpty (map (fun x => clean (Some x)) texts))).
Proof.
  apply Forall_forall. intros x Hx. unfold dedup in Hx. apply dedupFrom_In in Hx.
  destruct Hx as [Hx _]. apply filter_In in Hx. destruct Hx as [Hx Hne].
  apply in_map_iff in Hx. destruct Hx as (t & <- & _). split; [|apply clean_tidy].
  intros E. rewrite E in Hne. discriminate.
Qed.

Lemma pickTraitsHtml_wellFormed {ops : StringOps} {dom : Dom} scope :
  Forall wellFormedTrait (pickTraitsHtml scope).
Proof.
  unfold pickTraitsHtml.
  destruct (negb (isEmpty _)).
  - rewrite <- (map_map textContent (fun x => clean (Some x))).
    apply trait_elements_wellFormed.
  - destruct (findTextNode scope fIM traitsLabelRe) as [node|]; [|constructor].
    destruct (exec fI traitsRestRe (lineOf node)); [apply splitTraits_wellFormed | constructor].
Qed.

(** X13.  In every record that [importFromLink] returns, from a document
    or from a text, each trait is tidy and not empty. *)
Theorem X13_returned_traits_are_well_formed
    {net : Net} {ops : StringOps} {dom : Dom} url log rec log' :
  importFromLink url log = (inr rec, log') ->
  Forall wellFormedTrait (Stat.traits rec).
Proof.
  unfold importFromLink, ioBind.
  destruct (fetchAoN url log) as [[e|[k body_]] log1]; [discriminate|].
  unfold finish. destruct (parseFailed _); [discriminate|].
  unfold ioRet. intros [= <- <-]. cbn [normalize Stat.traits].
  destruct k.
  - unfold parseHtml. cbn [Parsed.traits]. apply pickTraitsHtml_wellFormed.
  - destruct (parseText_traits body_) as (traits & -> & H). exact H.
Qed.

Lemma X13_witness :
  importFromLink (net := mirrorOnlyNet barghestPage) (ops := asciiOps) (dom := flatDom)
    sampleUrl []
  = (inr (Stat.mk (str "Barghest") (Some (Fin 4)) [str "Fiend"; str "Evil"; str "Large"]
            (Some (Fin 23)) (Some (Fin 150)) (Some (str "35 feet"))
            [Attack (str "jaws") (Some (str "+14")) (Some (str "2d8+6 piercing"));
             claw (str "+18")]),
     [sampleUrl; mirrorUrl (net := mirrorOnlyNet barghestPage) sampleParsedUrl])
  /\ Forall wellFormedTrait [str "Fiend"; str "Evil"; str "Large"].
Proof.
  assert (H : importFromLink (net := mirrorOnlyNet barghestPage) (ops := asciiOps)
                (dom := flatDom) sampleUrl []
              = (inr (Stat.mk (str "Barghest") (Some (Fin 4))
                        [str "Fiend"; str "Evil"; str "Large"]
                        (Some (Fin 23)) (Some (Fin 150)) (Some (str "35 feet"))
                        [Attack (str "jaws") (Some (str "+14")) (Some (str "2d8+6 piercing"));
                         claw (str "+18")]),
                 [sampleUrl; mirrorUrl (net := mirrorOnlyNet barghestPage) sampleParsedUrl]))
    by (vm_compute; reflexivity).
  split; [exact H|].
  exact (@X13_returned_traits_are_well_formed (mirrorOnlyNet barghestPage) asciiOps flatDom
           sampleUrl [] _ _ H).
Defined.

(** * Further properties: retrieval and the entry point *)

Lemma importFromLink_finish {net : Net} {ops : StringOps} {dom : Dom} url log :
  importFromLink url log
  = match fetchAoN url log with
    | (inl e, log') => (inl e, log')
    | (inr (k, body_), log') =>
        (finish (match k with Html => parseHtml body_ | Text => parseText body_ end), log')
    end.
Proof.
  unfold importFromLink, ioBind. destruct (fetchAoN url log) as [[e|[k body_]] log1];
    [reflexivity|].
  destruct (finish _); reflexivity.
Qed.

Lemma finish_error out e : finish out = inl e -> e = Error "Parse failed".
Proof. unfold finish. destruct (parseFailed out); [now intros [= <-] | discriminate]. Qed.

(** The run of [fetchAoN] on a URL that parses, case by case. *)
Lemma fetchAoN_cases {net : Net} rawUrl u log :
  parseURL rawUrl = Some u ->
  fetchAoN rawUrl log
  = match respond log (Url.href u) with
    | Responded {| ok := true; contentType := ct; bodyText := Some text |} =>
        (inr (if includes (str "text/html") (orElse ct []) then Html else Text, text),
         log ++ [Url.href u])
    | _ =>
        (match respond (log ++ [Url.href u]) (mirrorUrl u) with
         | Responded {| ok := true; bodyText := Some text2 |} => inr (Text, text2)
         | Responded {| ok := false |} => inl (Error "Fetch failed via mirror")
         | _ => inl Rejection
         end,
         log ++ [Url.href u; mirrorUrl u])
    end.
Proof.
  intros Hu. unfold fetchAoN. rewrite Hu.
  unfold ioBind, tryDirect, fetchMirror, fetch, ioBind, ioRet, ioThrow.
  assert (Hlog : (log ++ [Url.href u]) ++ [mirrorUrl u] = log ++ [Url.href u; mirrorUrl u])
    by now rewrite <- app_assoc.
  destruct (respond log (Url.href u)) as [|[o1 ct1 [b1|]]]; cbn [ok bodyText contentType];
    try destruct o1; cbn [negb];
    try (destruct (includes (str "text/html") (orElse ct1 [])); reflexivity);
    destruct (respond (log ++ [Url.href u]) (mirrorUrl u)) as [|[o2 ct2 [b2|]]];
    cbn [ok bodyText]; try destruct o2; cbn [negb]; rewrite Hlog; reflexivity.
Qed.

(** X14.  [importFromLink] fails in three ways only.  With "Invalid URL"
    when the URL does not parse, before any request.  With "Fetch failed
    via mirror" or the rejection of the mirror request when the URL parses
    and both attempts, the direct one and then the mirror, did not
    succeed.  With "Parse failed" when a page was retrieved. *)
Theorem X14_the_three_failures
    {net : Net} {ops : StringOps} {dom : Dom} url log e log' :
  importFromLink url log = (inl e, log') ->
  (e = Error "Invalid URL" /\ parseURL url = None /\ log' = log)
  \/ ((e = Error "Fetch failed via mirror" \/ e = Rejection)
      /\ exists u, parseURL url = Some u
           /\ attemptOk (respond log (Url.href u)) = false
           /\ attemptOk (respond (log ++ [Url.href u]) (mirrorUrl u)) = false
           /\ log' = log ++ [Url.href u; mirrorUrl u])
  \/ (e = Error "Parse failed"
      /\ exists u page, parseURL url = Some u /\ fst (fetchAoN url log) = inr page).
Proof.
  rewrite importFromLink_finish.
  destruct (parseURL url) as [u|] eqn:Hu.
  - rewrite (fetchAoN_cases url log Hu).
    destruct (respond log (Url.href u)) as [|[o1 ct1 [b1|]]] eqn:E1; try destruct o1;
      cbn [attemptOk ok bodyText andb];
      try (intros [= H <-]; apply finish_error in H; right; right;
           split; [exact H | eexists _, _; split; reflexivity]);
      destruct (respond (log ++ [Url.href u]) (mirrorUrl u)) as [|[o2 ct2 [b2|]]] eqn:E2;
      try destruct o2; cbn [attemptOk ok bodyText andb];
      intros [= H <-];
      try (apply finish_error in H; right; right;
           split; [exact H | eexists _, _; split; reflexivity]);
      right; left; subst e; (split; [auto|]);
      exists u; rewrite ?E1, ?E2; repeat split; reflexivity.
  - rewrite (fetchAoN_invalid url log Hu). intros [= <- <-]. left. auto.
Qed.

Lemma X14_witness :
  importFromLink (net := deadNet) (ops := asciiOps) (dom := flatDom) sampleUrl []
  = (inl Rejection, [sampleUrl; mirrorUrl (net := deadNet) sampleParsedUrl])
  /\ ((Rejection = Error "Invalid URL"
       /\ parseURL (Net := deadNet) sampleUrl = None
       /\ [sampleUrl; mirrorUrl (net := deadNet) sampleParsedUrl] = [])
      \/ ((Rejection = Error "Fetch failed via mirror" \/ Rejection = Rejection)
          /\ exists u, parseURL (Net := deadNet) sampleUrl = Some u
               /\ attemptOk (respond (Net := deadNet) [] (Url.href u)) = false
               /\ attemptOk (respond (Net := deadNet) ([] ++ [Url.href u])
                               (mirrorUrl (net := deadNet) u)) = false
               /\ [sampleUrl; mirrorUrl (net := deadNet) sampleParsedUrl]
                  = [] ++ [Url.href u; mirrorUrl (net := deadNet) u])
      \/ (Rejection = Error "Parse failed"
          /\ exists u page, parseURL (Net := deadNet) sampleUrl = Some u
               /\ fst (fetchAoN (net := deadNet) sampleUrl []) = inr page)).
Proof.
  assert (H : importFromLink (net := deadNet) (ops := asciiOps) (dom := flatDom) sampleUrl []
              = (inl Rejection, [sampleUrl; mirrorUrl (net := deadNet) sampleParsedUrl]))
    by (vm_compute; reflexivity).
  split; [exact H|].
  exact (@X14_the_three_failures deadNet asciiOps flatDom sampleUrl [] _ _ H).
Defined.

(** X15.  Which parser reads the page.  A page retrieved directly goes
    to the document parser exactly when its content type mentions
    "text/html", and to the text parser otherwise, also when it states no
    content type.  A page retrieved through the mirror always goes to the
    text parser, whatever content type the mirror states. *)
Theorem X15_which_parser_reads_the_page
    {net : Net} {ops : StringOps} {dom : Dom} url u log :
  parseURL url = Some u ->
  (forall ct text,
     respond log (Url.href u)
     = Responded {| ok := true; contentType := ct; bodyText := Some text |} ->
     importFromLink url log
     = (finish (if includes (str "text/html") (orElse ct [])
                then parseHtml text else parseText text),
        log ++ [Url.href u]))
  /\ (attemptOk (respond log (Url.href u)) = false ->
      forall ct text,
        respond (log ++ [Url.href u]) (mirrorUrl u)
        = Responded {| ok := true; contentType := ct; bodyText := Some text |} ->
        importFromLink url log
        = (finish (parseText text), log ++ [Url.href u; mirrorUrl u])).
Proof.
  intros Hu. rewrite importFromLink_finish, (fetchAoN_cases url log Hu). split.
  - intros ct text ->. destruct (includes _ _); reflexivity.
  - intros Hd ct text Hm.
    destruct (respond log (Url.href u)) as [|[o1 ct1 [b1|]]]; try destruct o1;
      cbn [attemptOk ok bodyText andb] in Hd; try discriminate; rewrite Hm; reflexivity.
Qed.

Lemma X15_witness :
  parseURL (Net := mirrorOnlyNet barghestPage) sampleUrl = Some sampleParsedUrl
  /\ ((forall ct text,
         respond (Net := mirrorOnlyNet barghestPage) [] (Url.href sampleParsedUrl)
         = Responded {| ok := true; contentType := ct; bodyText := Some text |} ->
         importFromLink (net := mirrorOnlyNet barghestPage) (ops := asciiOps)
           (dom := flatDom) sampleUrl []
         = (finish (if includes (str "text/html") (orElse ct [])
                    then parseHtml (ops := asciiOps) (dom := flatDom) text
                    else parseText (ops := asciiOps) text),
            [] ++ [Url.href sampleParsedUrl]))
      /\ (attemptOk (respond (Net := mirrorOnlyNet barghestPage) []
                       (Url.href sampleParsedUrl)) = false ->
          forall ct text,
            respond (Net := mirrorOnlyNet barghestPage) ([] ++ [Url.href sampleParsedUrl])
              (mirrorUrl (net := mirrorOnlyNet barghestPage) sampleParsedUrl)
            = Responded {| ok := true; contentType := ct; bodyText := Some text |} ->
            importFromLink (net := mirrorOnlyNet barghestPage) (ops := asciiOps)
              (dom := flatDom) sampleUrl []
            = (finish (parseText (ops := asciiOps) text),
               [] ++ [Url.href sampleParsedUrl;
                      mirrorUrl (net := mirrorOnlyNet barghestPage) sampleParsedUrl]))).
Proof.
  split; [vm_compute; reflexivity|].
  apply (@X15_which_parser_reads_the_page (mirrorOnlyNet barghestPage) asciiOps flatDom
           sampleUrl sampleParsedUrl []).
  vm_compute. reflexivity.
Defined.

(** * Further properties: the records *)

Lemma finite_nonNegative (v : option number) :
  (forall n, v = Some n -> nonNegative n) ->
  (if numberIsFinite v then v else None) = None
  \/ exists z, (if numberIsFinite v then v else None) = Some (Fin z) /\ (0 <= z)%Z.
Proof.
  intros H. destruct v as [[| |z|]|]; simpl; auto.
  right. exists z. split; [reflexivity|].
  destruct (H _ eq_refl) as [E|(z' & E & Hz)]; [discriminate|]. now inversion E; subst.
Qed.

Lemma cleaned_speed (speed : option jsstring) :
  (forall s, speed = Some s -> tidy s = true) ->
  (if truthy speed then speed else None) = None
  \/ exists s, (if truthy speed then speed else None) = Some s /\ s <> [] /\ tidy s = true.
Proof.
  intros H. destruct speed as [[|c s]|]; simpl; auto.
  right. eexists. split; [reflexivity|]. split; [discriminate | now apply H].
Qed.

Lemma parseText_speed {ops : StringOps} t s :
  Parsed.speed (parseText t) = Some s -> tidy s = true.
Proof.
  unfold parseText. cbn [Parsed.speed]. destruct (exec fI speedRe t); [|discriminate].
  intros [= <-]. apply clean_tidy.
Qed.

Lemma pickLabeledLine_tidy {ops : StringOps} {dom : Dom} scope label s :
  pickLabeledLine scope label = Some s -> tidy s = true.
Proof.
  unfold pickLabeledLine. destruct (findTextNode _ _ _); [|discriminate].
  destruct (exec _ _ _); [|discriminate]. intros [= <-]. apply clean_tidy.
Qed.

(** X16.  In every record that [importFromLink] returns, the armor class
    and the hit points are absent or integers not below zero, and the
    speed is absent or a tidy string that is not empty. *)
Theorem X16_returned_numbers_are_not_negative
    {net : Net} {ops : StringOps} {dom : Dom} url log rec log' :
  importFromLink url log = (inr rec, log') ->
  (Stat.ac rec = None \/ exists z, Stat.ac rec = Some (Fin z) /\ (0 <= z)%Z)
  /\ (Stat.hp rec = None \/ exists z, Stat.hp rec = Some (Fin z) /\ (0 <= z)%Z)
  /\ (Stat.speed rec = None
      \/ exists s, Stat.speed rec = Some s /\ s <> [] /\ tidy s = true).
Proof.
  rewrite importFromLink_finish.
  destruct (fetchAoN url log) as [[e|[k body_]] log1]; [discriminate|].
  unfold finish. destruct (parseFailed _); [discriminate|]. intros [= <- <-].
  destruct (parsed_numbers k body_) as (_ & Hac & Hhp).
  cbn [normalize Stat.ac Stat.hp Stat.speed].
  split; [now apply finite_nonNegative|]. split; [now apply finite_nonNegative|].
  apply cleaned_speed. destruct k.
  - unfold parseHtml. cbn [Parsed.speed]. intros s. apply pickLabeledLine_tidy.
  - intros s. apply parseText_speed.
Qed.

Lemma barghest_run :
  importFromLink (net := mirrorOnlyNet barghestPage) (ops := asciiOps) (dom := flatDom)
    sampleUrl []
  = (inr barghestRecord,
     [sampleUrl; mirrorUrl (net := mirrorOnlyNet barghestPage) sampleParsedUrl]).
Proof. vm_compute. reflexivity. Qed.

Lemma X16_witness :
  importFromLink (net := mirrorOnlyNet barghestPage) (ops := asciiOps) (dom := flatDom)
    sampleUrl []
  = (inr barghestRecord,
     [sampleUrl; mirrorUrl (net := mirrorOnlyNet barghestPage) sampleParsedUrl])
  /\ ((Stat.ac barghestRecord = None
       \/ exists z, Stat.ac barghestRecord = Some (Fin z) /\ (0 <= z)%Z)
      /\ (Stat.hp barghestRecord = None
          \/ exists z, Stat.hp barghestRecord = Some (Fin z) /\ (0 <= z)%Z)
      /\ (Stat.speed barghestRecord = None
          \/ exists s, Stat.speed barghestRecord = Some s /\ s <> [] /\ tidy s = true)).
Proof.
  split; [exact barghest_run|].
  exact (@X16_returned_numbers_are_not_negative (mirrorOnlyNet barghestPage) asciiOps
           flatDom sampleUrl [] _ _ barghest_run).
Defined.

(** * Further properties: the earlier importer *)

Section EarlierRecord.
Context {ops : StringOps} {dom : Dom} {cl : DomClosest}.

Lemma earlier_extractTraits_wellFormed scope :
  Forall wellFormedTrait (EarlierPage.extractTraits scope).
Proof.
  unfold EarlierPage.extractTraits.
  destruct (negb (isEmpty _)).
  - rewrite <- (map_map textContent (fun x => clean (Some x))).
    apply trait_elements_wellFormed.
  - destruct (findTextNode scope fIM traitsLineRe) as [node|].
    + destruct (exec fIM traitsLineRe (nodeText node)); [apply splitTraits_wellFormed|].
      destruct (querySelector scope "p") as [para|]; [|constructor].
      destruct (exec fNone EarlierPage.parenRe (textContent para));
        [apply splitTraits_wellFormed | constructor].
    + destruct (querySelector scope "p") as [para|]; [|constructor].
      destruct (exec fNone EarlierPage.parenRe (textContent para));
        [apply splitTraits_wellFormed | constructor].
Qed.

Lemma earlier_extractNumberAfter_nonNegative scope label n :
  EarlierPage.extractNumberAfter scope label = Some n -> nonNegative n.
Proof.
  unfold EarlierPage.extractNumberAfter.
  destruct (findTextNode scope fNone (labelRe label)) as [node|]; [|discriminate].
  destruct (exec fI (labelNumberRe label) (lineOf node)) as [m|] eqn:E; [|discriminate].
  intros [= <-]. now apply labelNumber_nonNegative in E.
Qed.

Lemma earlier_extractSpeed_tidy scope s :
  EarlierPage.extractSpeed scope = Some s -> tidy s = true.
Proof.
  unfold EarlierPage.extractSpeed. destruct (findTextNode _ _ _); [|discriminate].
  destruct (exec _ _ _); [|discriminate]. intros [= <-]. apply clean_tidy.
Qed.

Lemma earlier_extractLevel_number scope n :
  EarlierPage.extractLevel scope = Some n -> n <> NaN.
Proof. apply pickNumber_level. Qed.

Lemma finite_number (v : option number) :
  (forall n, v = Some n -> n <> NaN) ->
  (if numberIsFinite v then v else None) = None
  \/ exists z, (if numberIsFinite v then v else None) = Some (Fin z).
Proof. intros H. destruct v as [[| |z|]|]; simpl; eauto. Qed.

(** X17.  The record that the earlier importer builds from any document
    has a name that is not empty; a level that is absent or an integer;
    an armor class and hit points that are absent or integers not below
    zero; a speed that is absent or tidy and not empty; traits that are
    tidy and not empty; and attacks with pairwise distinct lower-cased
    names and sign-normalised bonuses. *)
Theorem X17_earlier_record_is_well_formed (html : jsstring) :
  let r := EarlierPage.recordOf html in
  Stat.name r <> []
  /\ (Stat.level r = None \/ exists z, Stat.level r = Some (Fin z))
  /\ (Stat.ac r = None \/ exists z, Stat.ac r = Some (Fin z) /\ (0 <= z)%Z)
  /\ (Stat.hp r = None \/ exists z, Stat.hp r = Some (Fin z) /\ (0 <= z)%Z)
  /\ (Stat.speed r = None \/ exists s, Stat.speed r = Some s /\ s <> [] /\ tidy s = true)
  /\ Forall wellFormedTrait (Stat.traits r)
  /\ NoDup (map keyOf (Stat.attacks r))
  /\ Forall (fun e => exists b, attack e = Some b /\ asciiSigned b
                                /\ ~ In TYPOGRAPHIC_MINUS b) (Stat.attacks r).
Proof.
  unfold EarlierPage.recordOf. cbv zeta.
  cbn [Stat.name Stat.level Stat.ac Stat.hp Stat.speed Stat.traits Stat.attacks].
  split; [destruct (EarlierPage.extractName _ _) as [[|c n]|]; discriminate|].
  split; [apply finite_number; intros n; apply earlier_extractLevel_number|].
  split; [apply finite_nonNegative; intros n; apply earlier_extractNumberAfter_nonNegative|].
  split; [apply finite_nonNegative; intros n; apply earlier_extractNumberAfter_nonNegative|].
  split; [apply cleaned_speed; intros s; apply earlier_extractSpeed_tidy|].
  split; [apply earlier_extractTraits_wellFormed|].
  split; [apply earlier_attacks_distinct | apply earlier_bonus_is_sign_normalized].
Qed.

Context {net : Net}.



End EarlierRecord.

(** A URL that ends in a high surrogate, on a network where nothing
    answers: one request, then the URIError. *)
Lemma earlier_lone_surrogate_run :
  @EarlierPage.importFromLink asciiOps flatDom flatClosest deadNet
    (sampleUrl ++ [0xD800%N]) []
  = (inl URIError, [sampleUrl ++ [0xD800%N]]).
Proof. vm_compute. reflexivity. Qed.

(** * Further properties: splitting into blocks and traits *)

Section SplitContent.
Variables (fl : flags) (r : regex) (keep : char -> bool).
Hypothesis separators :
  forall x y, sem fl r x y ->
    exists cs, rest x = cs ++ rest y /\ filter keep cs = [].

(** The tokens of a split hold, in order, every unit of the text that no
    separator takes. *)
Lemma splitLoop_content : forall fuel p tok s,
  2 * length s + (if isEmpty tok then 0 else 1) < fuel ->
  concat (map (filter keep) (splitLoop fuel fl r p tok s)) = filter keep (rev tok ++ s).
Proof.
  induction fuel as [|fuel IH]; intros p tok s Hf; [lia|]. simpl.
  destruct s as [|a s'].
  - simpl. now rewrite !app_nil_r.
  - assert (Hstep : concat (map (filter keep) (splitLoop fuel fl r (Some a) (a :: tok) s'))
                    = filter keep (rev tok ++ a :: s')).
    { rewrite IH by (simpl in *; lia). simpl rev. now rewrite <- app_assoc. }
    destruct (matchAt fl r p (a :: s')) as [m|] eqn:E; [|exact Hstep].
    destruct (isEmpty tok && Nat.eqb (length (rest (after m))) (length (a :: s'))) eqn:Ec;
      [exact Hstep|].
    pose proof (matchAt_after _ _ _ _ E) as [Hsuf _]. apply suffixOf_length in Hsuf.
    apply matchAt_sem in E. destruct E as (y & Hsem & ->). cbn [after rest] in *.
    apply separators in Hsem. destruct Hsem as (cs & Hcs & Hnone). cbn [rest] in Hcs.
    cbn [map concat]. rewrite IH.
    + cbn [rev app]. rewrite Hcs, !filter_app, Hnone. reflexivity.
    + apply andb_false_iff in Ec. simpl in *. destruct Ec as [Ec|Ec].
      * rewrite Ec in Hf. lia.
      * apply Nat.eqb_neq in Ec. destruct (isEmpty tok); lia.
Qed.

Lemma split_content s :
  concat (map (filter keep) (split fl r s)) = filter keep s.
Proof.
  unfold split. destruct s as [|a s].
  - destruct (matchAt fl r None []); reflexivity.
  - rewrite splitLoop_content; [reflexivity | simpl; lia].
Qed.
End SplitContent.

Lemma concat_filter_nonEmpty (f : jsstring -> jsstring) (l : list jsstring) :
  f [] = [] ->
  concat (map f (filter nonEmpty l)) = concat (map f l).
Proof.
  intros Hf. induction l as [|x l IH]; [reflexivity|]. simpl.
  destruct x as [|c x]; simpl; [now rewrite Hf | now rewrite IH].
Qed.

Lemma chr_run_sem g mn mx c x y :
  sem fNone (Quant g mn mx (Chr c)) x y ->
  exists cs, rest x = cs ++ rest y /\ Forall (fun a => a = c) cs.
Proof.
  intros H. remember (Quant g mn mx (Chr c)) as q eqn:Eq.
  revert mn mx Eq. induction H; intros mn' mx' Eq; try discriminate.
  - exists []. split; [reflexivity | constructor].
  - inversion Eq; subst. clear IHsem1.
    destruct (IHsem2 _ _ eq_refl) as (cs & Hcs & Hall).
    inversion H0; subst. simpl in *.
    exists (a :: cs). split.
    + match goal with E : rest x = _ |- _ => rewrite E end. simpl. now rewrite Hcs.
    + constructor; [|assumption].
      match goal with E : canonicalize _ _ = canonicalize _ _ |- _ => exact E end.
Qed.

Lemma blank_lines_are_space x y :
  sem fNone EarlierPage.blankLinesRe x y ->
  exists cs, rest x = cs ++ rest y /\ filter notSpace cs = [].
Proof.
  intros H. apply chr_run_sem in H. destruct H as (cs & Hcs & Hall).
  exists cs. split; [exact Hcs|].
  clear Hcs. induction Hall as [|a cs -> _ IH]; [reflexivity|]. simpl. exact IH.
Qed.

Lemma trait_separators_are_separators x y :
  sem fNone traitSeparator x y ->
  exists cs, rest x = cs ++ rest y
    /\ filter (fun c => notSpace c && negb (isSeparator c)) cs = [].
Proof.
  intros H. apply class_run_sem in H. destruct H as (cs & Hcs & Hall).
  exists cs. split; [exact Hcs|].
  clear Hcs. induction Hall as [|a cs Ha _ IH]; [reflexivity|]. simpl.
  cbn [ignoreCase fNone] in Ha. rewrite separator_class in Ha.
  now rewrite Ha, andb_false_r.
Qed.

Lemma filter_notSpace_trim s : filter notSpace (trim s) = filter notSpace s.
Proof. unfold trim. now rewrite filter_notSpace_trimEnd, filter_notSpace_trimStart. Qed.

Lemma filter_notSpace_clean s : filter notSpace (clean (Some s)) = filter notSpace s.
Proof.
  unfold clean. now rewrite filter_notSpace_trim, filter_notSpace_collapse, orElse_Some_nil.
Qed.

Lemma filter_notSpace_collapseBlanks s : forall inRun,
  filter notSpace (EarlierPage.collapseBlanks inRun s) = filter notSpace s.
Proof.
  induction s as [|a s IH]; intros inRun; [reflexivity|]. simpl.
  destruct (EarlierPage.isBlank a) eqn:Ea.
  - assert (Hs : notSpace a = false).
    { unfold EarlierPage.isBlank in Ea. apply orb_true_iff in Ea.
      destruct Ea as [Ea|Ea]; apply N.eqb_eq in Ea; subst; reflexivity. }
    rewrite Hs. destruct inRun; simpl; apply IH.
  - simpl. now rewrite IH.
Qed.

Lemma filter_notSpace_noCR s :
  filter notSpace (filter (fun c => negb (c =? CR)%N) s) = filter notSpace s.
Proof.
  induction s as [|a s IH]; [reflexivity|]. simpl.
  destruct (a =? CR)%N eqn:Ea; simpl.
  - apply N.eqb_eq in Ea. subst. simpl. exact IH.
  - now rewrite IH.
Qed.

Lemma filter_notSpace_cleanSpaces t :
  filter notSpace (EarlierPage.cleanSpaces (Some t)) = filter notSpace t.
Proof.
  unfold EarlierPage.cleanSpaces.
  now rewrite filter_notSpace_trim, filter_notSpace_noCR, filter_notSpace_collapseBlanks,
    orElse_Some_nil.
Qed.

Lemma trimStart_In c s : In c (trimStart s) -> In c s.
Proof.
  induction s as [|a s IH]; simpl; [auto|].
  destruct (isSpace a); [intros H; right; auto | auto].
Qed.

Lemma trim_In c s : In c (trim s) -> In c s.
Proof.
  unfold trim. intros H. apply trimStart_In.
  destruct (trimEnd_prefix (trimStart s)) as (q & Hq & _). rewrite Hq.
  apply in_or_app. now left.
Qed.

Lemma trim_ends s : startsClean (trim s) = true /\ startsClean (rev (trim s)) = true.
Proof.
  unfold trim. split; [|apply startsClean_rev_trimEnd].
  destruct (trimEnd_prefix (trimStart s)) as (q & Hq & _).
  apply startsClean_app_l with (q := q). rewrite <- Hq. apply startsClean_trimStart.
Qed.

Lemma collapseBlanks_In c s : forall inRun,
  In c (EarlierPage.collapseBlanks inRun s) -> c = 32%N \/ (In c s /\ EarlierPage.isBlank c = false).
Proof.
  induction s as [|a s IH]; intros inRun; simpl; [tauto|].
  destruct (EarlierPage.isBlank a) eqn:Ea.
  - destruct inRun; simpl; intros H.
    + apply IH in H. tauto.
    + destruct H as [H|H]; [now left | apply IH in H; tauto].
  - simpl. intros [<-|H]; [right; auto | apply IH in H; tauto].
Qed.

(** X19.  The text blocks that the earlier importer cuts a text into
    hold, in order, every unit of the text that is not white space and
    nothing else but white space; no block is empty, none starts or ends
    with white space, and none holds a carriage return or a tab. *)
Theorem X19_text_blocks_lose_only_white_space (raw : jsstring) :
  concat (map (filter notSpace) (EarlierPage.blocksOf raw)) = filter notSpace raw
  /\ Forall (fun b => b <> []
                      /\ startsClean b = true /\ startsClean (rev b) = true
                      /\ ~ In CR b /\ ~ In 9%N b)
            (EarlierPage.blocksOf raw).
Proof.
  unfold EarlierPage.blocksOf. split.
  - rewrite concat_filter_nonEmpty by reflexivity.
    rewrite map_map.
    rewrite (map_ext _ (filter notSpace) filter_notSpace_cleanSpaces).
    apply split_content. exact blank_lines_are_space.
  - apply Forall_forall. intros b Hb. apply filter_In in Hb. destruct Hb as [Hb Hne].
    apply in_map_iff in Hb. destruct Hb as (t & <- & _).
    split; [intros E; rewrite E in Hne; discriminate|].
    unfold EarlierPage.cleanSpaces.
    split; [apply trim_ends|]. split; [apply trim_ends|]. split.
    + intros H. apply trim_In, filter_In in H. destruct H as [_ H]. discriminate.
    + intros H. apply trim_In, filter_In in H. destruct H as [H _].
      apply collapseBlanks_In in H. destruct H as [H|[_ H]]; discriminate.
Qed.

(** X20.  The traits that [splitTraits] returns hold, in order, every
    unit of the text that is neither white space nor a separator (comma,
    bullet, semicolon), and no other unit that is not white space. *)
Theorem X20_split_traits_lose_only_separators_and_white_space (s : jsstring) :
  concat (map (filter notSpace) (splitTraits s))
  = filter (fun c => notSpace c && negb (isSeparator c)) s.
Proof.
  unfold splitTraits. rewrite concat_filter_nonEmpty by reflexivity.
  rewrite map_map. rewrite (map_ext _ (filter notSpace) filter_notSpace_clean).
  pose proof (split_tokens s) as Htok.
  rewrite <- (@split_content fNone traitSeparator
                (fun c => notSpace c && negb (isSeparator c))
                trait_separators_are_separators s).
  f_equal. apply map_ext_in. intros tok Hin.
  rewrite Forall_forall in Htok. specialize (Htok _ Hin). clear Hin.
  induction Htok as [|a tok Ha _ IH]; [reflexivity|]. simpl.
  rewrite Ha, andb_true_r. destruct (notSpace a); now rewrite IH.
Qed.

(** * Further properties: merging in stages, and the sign *)

Lemma mergeMap_of_merged {ops : StringOps} l : mergeMap (coalesceAttacks l) = mergeMap l.
Proof.
  rewrite mergeMap_distinct by apply coalesceAttacks_NoDup.
  unfold coalesceAttacks, mapValues. fold (mergeMap l). rewrite map_map.
  pose proof (mergeInv_mergeMap l) as [Hnd Hkeys _ _].
  assert (H : forall k e, In (k, e) (mergeMap l) -> keyOf e = k).
  { intros k e Hin. apply Hkeys. now apply In_mapGet. }
  clear Hkeys Hnd. induction (mergeMap l) as [|[k e] m IH]; simpl; [reflexivity|].
  rewrite IH by (intros; apply H; now right). f_equal. f_equal. apply H. now left.
Qed.

(** X21.  Merging can be done in stages: merging the candidates seen so
    far and then merging the result with the later candidates gives what
    merging all of them at once gives. *)
Theorem X21_merge_in_stages {ops : StringOps} (l1 l2 : list AttackEntry) :
  coalesceAttacks (coalesceAttacks l1 ++ l2) = coalesceAttacks (l1 ++ l2).
Proof.
  unfold coalesceAttacks at 1 3. rewrite !fold_left_app.
  fold (mergeMap (coalesceAttacks l1)). fold (mergeMap l1).
  now rewrite mergeMap_of_merged.
Qed.

Lemma replaceFirst_first x y pre post :
  ~ In x pre -> replaceFirst x y (pre ++ x :: post) = pre ++ y ++ post.
Proof.
  induction pre as [|a pre IH]; simpl; intros H.
  - now rewrite N.eqb_refl.
  - destruct (a =? x)%N eqn:E.
    + apply N.eqb_eq in E. exfalso. apply H. now left.
    + rewrite IH; [reflexivity | intros Hin; apply H; now right].
Qed.

(** X22.  [normalizePlus] changes the first typographic minus of a string
    into the ASCII minus and nothing else: a later typographic minus
    stays, and a string without one is returned as it is. *)
Theorem X22_normalizePlus_changes_the_first_minus_only (pre post : jsstring) :
  ~ In TYPOGRAPHIC_MINUS pre ->
  normalizePlus (Some pre) = pre
  /\ normalizePlus (Some (pre ++ TYPOGRAPHIC_MINUS :: post)) = pre ++ ch "-" :: post.
Proof.
  intros H. unfold normalizePlus. rewrite !orElse_Some_nil. split.
  - now apply replaceFirst_absent.
  - now rewrite replaceFirst_first.
Qed.

Lemma X22_witness :
  ~ In TYPOGRAPHIC_MINUS (str "+")
  /\ normalizePlus (Some (str "+")) = str "+"
  /\ normalizePlus (Some (str "+" ++ TYPOGRAPHIC_MINUS :: [TYPOGRAPHIC_MINUS; ch "5"]))
     = str "+" ++ ch "-" :: [TYPOGRAPHIC_MINUS; ch "5"].
Proof.
  assert (H : ~ In TYPOGRAPHIC_MINUS (str "+")).
  { intros [E|[]]. cbv in E. discriminate. }
  split; [exact H|].
  exact (@X22_normalizePlus_changes_the_first_minus_only (str "+")
           [TYPOGRAPHIC_MINUS; ch "5"] H).
Defined.
